(** * Rainbow delimiters for cljdoc.org: a shallow embedding of [src/main.js]

    The userscript walks the text of every [<pre>] block, wraps each bracket
    character in a coloured [<span>] and leaves everything else alone.  This
    file embeds the four classes of the script,

    - [ColorUtils]            (HSL to RGB to hexadecimal text),
    - [ColorPaletteGenerator] (the base palette),
    - [ColorAdjuster]         (depth and theme adjustment),
    - [RainbowDelimiters]     (the scanning loop of [processText]),

    and proves the properties its specification states about them, and
    further properties of the code.  The parts of the script that talk to
    the page ([applyToDocument], [observe], [detectDarkMode]) are not
    embedded: what [detectDarkMode] returns is a parameter, and
    [getBackgroundLuminance] takes the text of the computed background
    colour.

    Conventions of the embedding.

    - A JavaScript number that holds a colour component is a rational [Q]:
      arithmetic is exact, [Math.round] and [Math.floor] are the usual
      roundings.  Loop counters, indices and the nesting depth are [nat].
      Module [Binary64] repeats the colour arithmetic on IEEE 754 doubles,
      and section [DoubleRounding] compares the two on every colour the
      default palette yields.
    - A JavaScript string is a [list ascii] (one element per character).
    - [undefined] is [None]; a call that throws a [TypeError] returns [None].
    - The palette entries are objects, and the [Set] of used colours compares
      them by identity.  An object carries its identity in the field
      [Color.id]; the set holds identities. *)

From Stdlib Require Import ZArith QArith Qround Qabs Qminmax Lqa Lia Ascii String.
From Stdlib Require Uint63 PrimFloat.
From stdpp Require Import base option list gmap sets.

Abbreviation jsstring := (list ascii).

(** A string literal as a JavaScript string. *)
Definition str (s : string) : jsstring := list_ascii_of_string s.

(** The double quote character, which a template literal of the script
    contains. *)
Definition dquote : ascii := ascii_of_nat 34.

(** [s.substring(a, b)]: both indices are clamped to the length and swapped
    when out of order. *)
Definition substring (s : jsstring) (a b : nat) : jsstring :=
  let a' := Nat.min a (length s) in
  let b' := Nat.min b (length s) in
  let lo := Nat.min a' b' in
  let hi := Nat.max a' b' in
  take (hi - lo) (drop lo s).

(** [s.padStart(n, c)] for a one-character pad string. *)
Definition padStart (n : nat) (c : ascii) (s : jsstring) : jsstring :=
  replicate (n - length s) c ++ s.

(** ** Numbers *)

Module JsNum.
Local Open Scope Q_scope.

Definition ltb (a b : Q) : bool := negb (Qle_bool b a).

(** Truncation towards zero. *)
Definition trunc (a : Q) : Z := Z.quot (Qnum a) (Zpos (Qden a)).

(** The remainder operator [a % b]: the sign follows the dividend. *)
Definition rem (a b : Q) : Q := a - b * inject_Z (trunc (a / b)).

(** [Math.round]: to the nearest integer, halves towards plus infinity. *)
Definition round (a : Q) : Z := Qfloor (a + (1 # 2)).

Definition of_nat (n : nat) : Q := inject_Z (Z.of_nat n).

Definition hex_digit (d : N) : ascii :=
  nth (N.to_nat d) (list_ascii_of_string "0123456789abcdef") "0"%char.

(** The digits of [n] in base 16, most significant first; [fuel] bounds
    the number of digits. *)
Fixpoint hex_digits (fuel : nat) (n : N) (acc : jsstring) : jsstring :=
  match fuel with
  | O => acc
  | S fuel' =>
      let acc' := hex_digit (n mod 16) :: acc in
      if (n / 16 =? 0)%N then acc' else hex_digits fuel' (n / 16)%N acc'
  end.

(** [n.toString(16)] for an integer [n]. *)
Definition toString16 (n : Z) : jsstring :=
  let digits := hex_digits (S (N.to_nat (N.log2 (Z.abs_N n)))) (Z.abs_N n) [] in
  if (n <? 0)%Z then "-"%char :: digits else digits.
End JsNum.

(** ** Colours *)

(** A plain hue / saturation / lightness triple. *)
Module Hsl.
Record t : Type := mk { h : Q; s : Q; l : Q }.
End Hsl.

(** A palette object [{h, s, l}] together with its identity. *)
Module Color.
Record t : Type := mk { id : nat; hsl : Hsl.t }.
Definition h (c : t) : Q := Hsl.h (hsl c).
Definition s (c : t) : Q := Hsl.s (hsl c).
Definition l (c : t) : Q := Hsl.l (hsl c).
End Color.

Module Rgb.
Record t : Type := mk { r : Z; g : Z; b : Z }.
End Rgb.

(** ** class ColorUtils *)

Module ColorUtils.
Local Open Scope Q_scope.

Module RGB_TO_HSL.
Definition convert (r g b : Q) : Hsl.t :=
  let r := r / 255 in
  let g := g / 255 in
  let b := b / 255 in
  let max := Qmax (Qmax r g) b in
  let min := Qmin (Qmin r g) b in
  let d := max - min in
  let l := (max + min) / 2 in
  if Qeq_bool d 0 then {| Hsl.h := 0; Hsl.s := 0; Hsl.l := l |}
  else
    let s := if JsNum.ltb (1 # 2) l then d / (2 - max - min)
             else d / (max + min) in
    let h :=
      if Qeq_bool max r then (g - b) / d + (if JsNum.ltb g b then 6 else 0)
      else if Qeq_bool max g then (b - r) / d + 2
      else (r - g) / d + 4 in
    let h := h * 60 in
    let h := if JsNum.ltb h 0 then h + 360 else h in
    {| Hsl.h := h; Hsl.s := s * 100; Hsl.l := l * 100 |}.
End RGB_TO_HSL.

Module HSL_TO_RGB.
Definition convert (h s l : Q) : Rgb.t :=
  let s := s / 100 in
  let l := l / 100 in
  let c := (1 - Qabs (2 * l - 1)) * s in
  let x := c * (1 - Qabs (JsNum.rem (h / 60) 2 - 1)) in
  let m := l - c / 2 in
  let '(r, g, b) :=
    if JsNum.ltb h 60 then (c, x, 0)
    else if JsNum.ltb h 120 then (x, c, 0)
    else if JsNum.ltb h 180 then (0, c, x)
    else if JsNum.ltb h 240 then (0, x, c)
    else if JsNum.ltb h 300 then (x, 0, c)
    else (c, 0, x) in
  {| Rgb.r := JsNum.round ((r + m) * 255);
     Rgb.g := JsNum.round ((g + m) * 255);
     Rgb.b := JsNum.round ((b + m) * 255) |}.
End HSL_TO_RGB.

(** The template literal of [hslToHex], applied to an RGB triple. *)
Definition toHex (rgb : Rgb.t) : jsstring :=
  "#"%char :: padStart 2 "0" (JsNum.toString16 (Rgb.r rgb))
           ++ padStart 2 "0" (JsNum.toString16 (Rgb.g rgb))
           ++ padStart 2 "0" (JsNum.toString16 (Rgb.b rgb)).

Definition hslToHex (h s l : Q) : jsstring :=
  let rgb := HSL_TO_RGB.convert h s l in
  toHex rgb.
End ColorUtils.

(** ** class ColorPaletteGenerator *)

Module ColorPaletteGenerator.
Local Open Scope Q_scope.

(** One iteration of the [for] loop: [colors.push({h: i * hueStep, s: 70,
    l: 50})].  The object made in iteration [i] is the [i]-th object the
    call allocates, which is its identity. *)
Definition push_color (hueStep : Q) (colors : list Color.t) (i : nat)
  : list Color.t :=
  colors ++ [Color.mk i (Hsl.mk (JsNum.of_nat i * hueStep) 70 50)].

Definition generateBaseColors (count : nat) : list Color.t :=
  let hueStep := 360 / JsNum.of_nat count in
  foldl (push_color hueStep) [] (seq 0 count).

(** The default value of the parameter. *)
Definition default_count : nat := 32.
End ColorPaletteGenerator.

(** ** The pattern of [getBackgroundLuminance]

    [/rgba?\((\d+),\s*(\d+),\s*(\d+)/], matched the way [String.match]
    does without the [g] flag: the leftmost position where the pattern
    matches, the groups being the three runs of digits. *)

Module BgPattern.

(** [\d] *)
Definition is_digit (c : ascii) : bool :=
  (48 <=? nat_of_ascii c)%nat && (nat_of_ascii c <=? 57)%nat.

(** [\s], for the characters a [jsstring] can hold: tab, line feed, vertical
    tab, form feed, carriage return, space and no-break space. *)
Definition is_space (c : ascii) : bool :=
  bool_decide (nat_of_ascii c ∈ [9; 10; 11; 12; 13; 32; 160]%nat).

(** The longest prefix of characters that satisfy [p], and what follows it.
    The quantifiers [+] and [*] of the pattern are greedy, and what comes
    after each of them starts with a character the quantified class does
    not hold, so the longest run is the only one that can match. *)
Fixpoint munch (p : ascii → bool) (l : jsstring) : jsstring * jsstring :=
  match l with
  | c :: l' =>
      if p c then let '(run, rest) := munch p l' in (c :: run, rest)
      else ([], l)
  | [] => ([], [])
  end.

(** [(\d+)] *)
Definition digits (l : jsstring) : option (jsstring * jsstring) :=
  let '(run, rest) := munch is_digit l in
  if bool_decide (run = []) then None else Some (run, rest).

(** One literal character. *)
Definition literal (c : ascii) (l : jsstring) : option jsstring :=
  match l with
  | a :: l' => if bool_decide (a = c) then Some l' else None
  | [] => None
  end.

(** [\((\d+),\s*(\d+),\s*(\d+)] *)
Definition groups (l : jsstring) : option (jsstring * jsstring * jsstring) :=
  l1 ← literal "(" l;
  '(r, l2) ← digits l1;
  l3 ← literal "," l2;
  '(g, l4) ← digits (munch is_space l3).2;
  l5 ← literal "," l4;
  '(b, _) ← digits (munch is_space l5).2;
  Some (r, g, b).

(** The whole pattern at the start of [l]; the optional [a] is tried
    first. *)
Definition match_at (l : jsstring) : option (jsstring * jsstring * jsstring) :=
  l1 ← literal "r" l;
  l2 ← literal "g" l1;
  l3 ← literal "b" l2;
  match literal "a" l3 ≫= groups with
  | Some m => Some m
  | None => groups l3
  end.

(** The match at the leftmost position that has one. *)
Fixpoint search (l : jsstring) : option (jsstring * jsstring * jsstring) :=
  match match_at l with
  | Some m => Some m
  | None =>
      match l with
      | [] => None
      | _ :: l' => search l'
      end
  end.

(** [Number(s)] for a text [s] of decimal digits. *)
Definition Number (s : jsstring) : Q :=
  inject_Z (foldl (λ acc c, 10 * acc + (Z.of_nat (nat_of_ascii c) - 48))%Z
              0%Z s).

End BgPattern.

(** ** class ColorAdjuster *)

Module ColorAdjuster.
Local Open Scope Q_scope.

(** [adjustColor(baseColor, depth)].  [isDarkMode] is what
    [detectDarkMode()] reads from the document.  Reading [baseColor.s] of
    [undefined] throws. *)
Definition adjustColor (isDarkMode : bool) (baseColor : option Color.t)
    (depth : nat) : option Hsl.t :=
  base ← baseColor;
  let baseLightness := if isDarkMode then 65 else 35 in
  let depthAdjustment :=
    JsNum.of_nat (depth mod 3) * (if isDarkMode then -5 else 5) in
  Some {| Hsl.h := Color.h base;
          Hsl.l := baseLightness + depthAdjustment;
          Hsl.s := Qmax 40 (Color.s base - JsNum.of_nat (depth / 3) * 10) |}.

(** [getBackgroundLuminance(element)], with [bgColor] the text that
    [getComputedStyle(element).backgroundColor] reads. *)
Definition getBackgroundLuminance (bgColor : jsstring) : Q :=
  match BgPattern.search bgColor with
  | None => 0.5
  | Some (r, g, b) =>
      (0.299 * BgPattern.Number r + 0.587 * BgPattern.Number g
       + 0.114 * BgPattern.Number b) / 255
  end.
End ColorAdjuster.

(** ** class RainbowDelimiters *)

Module RainbowDelimiters.

(** The fields of an instance that [processText] reads.  The object
    [delimiter_pairs] is kept as its list of (key, value) entries, in
    insertion order. *)
Record t : Type := mk {
  baseColors : list Color.t;
  delimiter_pairs : list (ascii * ascii)
}.

(** An instance whose palette is [colors]; the delimiter table is the one
    the constructor installs. *)
Definition with_palette (colors : list Color.t) : t :=
  {| baseColors := colors;
     delimiter_pairs := [("("%char, ")"%char);
                         ("["%char, "]"%char);
                         ("{"%char, "}"%char)] |}.

(** [new RainbowDelimiters()]. *)
Definition new : t :=
  with_palette (ColorPaletteGenerator.generateBaseColors
                  ColorPaletteGenerator.default_count).

(** [Object.keys(this.delimiter_pairs).includes(char)] and
    [Object.values(this.delimiter_pairs).includes(char)]. *)
Definition isOpening (this : t) (char : ascii) : bool :=
  bool_decide (char ∈ (delimiter_pairs this).*1).

Definition isClosing (this : t) (char : ascii) : bool :=
  bool_decide (char ∈ (delimiter_pairs this).*2).

(** The closure [getNextColor] of [processText].  It reads and updates the
    local [usedColors]; the updated set is returned next to the colour.
    An index outside the array reads [undefined]. *)
Definition getNextColor (this : t) (usedColors : gset nat) (depth : nat)
  : option Color.t * gset nat :=
  let availableColors :=
    filter (λ c, Color.id c ∉ usedColors) (baseColors this) in
  if bool_decide (length availableColors = 0) then
    (baseColors this !! (depth mod length (baseColors this)), ∅)
  else
    let color := availableColors !! (depth mod length availableColors) in
    (color, match color with
            | Some c => {[ Color.id c ]} ∪ usedColors
            | None => usedColors
            end).

(** One coloured delimiter, as the loop emits it: where it stands, which
    base colour and depth went into [adjustColor], and the colour text
    that ends up in the [<span>]. *)
Record Decoration : Type := mkDecoration {
  d_index : nat;
  d_char : ascii;
  d_base : Color.t;
  d_depth : nat;
  d_adjusted : Hsl.t;
  d_hex : jsstring
}.

(** The local variables of [processText].  [colorStack] has its top at the
    head.  [depth] only ever holds a natural number: it starts at 0, is
    incremented, or is set to [Math.max(0, depth - 1)], which the loop body
    below computes over the integers.  [emitted] is a log, one entry per
    [<span>] appended to [result]; the script itself keeps no such list. *)
Record ScanState : Type := mkState {
  result : jsstring;
  lastIndex : nat;
  depth : nat;
  colorStack : list Color.t;
  usedColors : gset nat;
  emitted : list Decoration
}.

Definition init : ScanState :=
  {| result := []; lastIndex := 0; depth := 0; colorStack := [];
     usedColors := ∅; emitted := [] |}.

(** [`<span style="color: ${hexColor}">${char}</span>`] *)
Definition span_open : jsstring :=
  str "<span style=" ++ [dquote] ++ str "color: ".

Definition span_close : jsstring := str "</span>".

Definition span (hexColor : jsstring) (char : ascii) : jsstring :=
  span_open ++ hexColor ++ [dquote; ">"%char] ++ [char] ++ span_close.

(** The body of the [for] loop at index [i]. *)
Definition loop_body (this : t) (isDarkMode : bool) (text : jsstring)
    (i : nat) (st : ScanState) : option ScanState :=
  match text !! i with
  | None => Some st
  | Some char =>
      let opening := isOpening this char in
      let closing := isClosing this char in
      if opening || closing then
        let result1 := result st ++ substring text (lastIndex st) i in
        (* isOpening ? getNextColor(depth)
                     : colorStack.pop() || getNextColor(depth) *)
        let '(baseColor, stack1, used1) :=
          if opening then
            let '(c, u) := getNextColor this (usedColors st) (depth st) in
            (c, colorStack st, u)
          else
            match colorStack st with
            | c :: rest => (Some c, rest, usedColors st)
            | [] =>
                let '(c, u) :=
                  getNextColor this (usedColors st) (depth st) in
                (c, [], u)
            end in
        adjustedColor ← ColorAdjuster.adjustColor isDarkMode baseColor
                           (depth st);
        let hexColor :=
          ColorUtils.hslToHex (Hsl.h adjustedColor) (Hsl.s adjustedColor)
            (Hsl.l adjustedColor) in
        let result2 := result1 ++ span hexColor char in
        (* adjustColor has read baseColor.s, so baseColor is an object *)
        base ← baseColor;
        let log := emitted st ++
          [mkDecoration i char base (depth st) adjustedColor hexColor] in
        if opening then
          Some {| result := result2; lastIndex := S i;
                  depth := S (depth st); colorStack := base :: stack1;
                  usedColors := used1; emitted := log |}
        else
          Some {| result := result2; lastIndex := S i;
                  depth := Z.to_nat (Z.max 0 (Z.of_nat (depth st) - 1));
                  colorStack := stack1; usedColors := used1;
                  emitted := log |}
      else Some st
  end.

(** [for (let i = start; i < start + n; i++) body(i)] *)
Fixpoint for_loop (body : nat → ScanState → option ScanState)
    (i n : nat) (st : ScanState) : option ScanState :=
  match n with
  | O => Some st
  | S n' => st' ← body i st; for_loop body (S i) n' st'
  end.

(** The local variables after the first [k] iterations. *)
Definition run (this : t) (isDarkMode : bool) (text : jsstring) (k : nat)
  : option ScanState :=
  for_loop (loop_body this isDarkMode text) 0 k init.

(** The local variables when the loop exits. *)
Definition scan (this : t) (isDarkMode : bool) (text : jsstring)
  : option ScanState :=
  run this isDarkMode text (length text).

(** [processText(node)], with [text] the node's [textContent]. *)
Definition processText (this : t) (isDarkMode : bool) (text : jsstring)
  : option jsstring :=
  st ← scan this isDarkMode text;
  Some (result st ++ substring text (lastIndex st) (length text)).

End RainbowDelimiters.


(** * Notions the properties are stated with *)

(** ** Reading a colour text back *)

Module HexText.

Definition lower_hex_digits : jsstring := str "0123456789abcdef".

Definition is_lower_hex (c : ascii) : bool :=
  bool_decide (c ∈ lower_hex_digits).

(** The value of one lowercase hexadecimal digit. *)
Definition digit_value (c : ascii) : option Z :=
  Z.of_nat ∘ fst <$> list_find (λ d, d = c) lower_hex_digits.

(** The channels of a text [#rrggbb].  The script never reads a colour text
    back; this is the decoding the round trip of the specification refers
    to. *)
Definition parse (s : jsstring) : option Rgb.t :=
  match s with
  | [m; r1; r0; g1; g0; b1; b0] =>
      if bool_decide (m = "#"%char) then
        vr1 ← digit_value r1; vr0 ← digit_value r0;
        vg1 ← digit_value g1; vg0 ← digit_value g0;
        vb1 ← digit_value b1; vb0 ← digit_value b0;
        Some (Rgb.mk (16 * vr1 + vr0) (16 * vg1 + vg0) (16 * vb1 + vb0))
      else None
  | _ => None
  end.

(** A text of the shape [#] followed by exactly six lowercase hexadecimal
    digits. *)
Definition well_formed (s : jsstring) : Prop :=
  length s = 7%nat ∧ head s = Some "#"%char ∧
  Forall (λ c, is_lower_hex c = true) (tail s).

End HexText.

Definition byte_range (n : Z) : Prop := (0 ≤ n ≤ 255)%Z.

(** What [toString(16).padStart(2, '0')] has to satisfy on the channel value
    [k]: two lowercase digits whose values are the quotient and the
    remainder of [k] by 16. *)
Definition byte_text_ok (k : nat) : bool :=
  match padStart 2 "0" (JsNum.toString16 (Z.of_nat k)) with
  | [d1; d0] =>
      HexText.is_lower_hex d1 && HexText.is_lower_hex d0 &&
      bool_decide (HexText.digit_value d1 = Some (Z.of_nat (k / 16))) &&
      bool_decide (HexText.digit_value d0 = Some (Z.of_nat (k mod 16)))
  | _ => false
  end.

(** The colour that iteration [i] of [generateBaseColors(count)] pushes. *)
Definition nth_color (count i : nat) : Color.t :=
  Color.mk i (Hsl.mk (JsNum.of_nat i * (360 / JsNum.of_nat count)) 70 50).

(** ** The scan *)

Module Scan.
Import RainbowDelimiters.

(** [adjustColor] on a base colour that is an object. *)
Definition adjusted (isDarkMode : bool) (base : Color.t) (depth : nat) : Hsl.t :=
  default (Color.hsl base)
    (ColorAdjuster.adjustColor isDarkMode (Some base) depth).

Definition hexColor (isDarkMode : bool) (base : Color.t) (depth : nat) : jsstring :=
  let a := adjusted isDarkMode base depth in
  ColorUtils.hslToHex (Hsl.h a) (Hsl.s a) (Hsl.l a).

(** The log entry of a delimiter [char] at index [i] coloured from [base] at
    [depth]. *)
Definition decoration (isDarkMode : bool) (i : nat) (char : ascii)
    (base : Color.t) (depth : nat) : Decoration :=
  mkDecoration i char base depth (adjusted isDarkMode base depth)
    (hexColor isDarkMode base depth).

(** The state after a delimiter at index [i] has been coloured. *)
Definition decorated (isDarkMode : bool) (text : jsstring) (i : nat)
    (char : ascii) (base : Color.t) (st : ScanState) (depth' : nat)
    (stack' : list Color.t) (used' : gset nat) : ScanState :=
  {| result := (result st ++ substring text (lastIndex st) i)
                 ++ span (hexColor isDarkMode base (depth st)) char;
     lastIndex := S i;
     depth := depth';
     colorStack := stack';
     usedColors := used';
     emitted := emitted st ++ [decoration isDarkMode i char base (depth st)] |}.

(** One iteration of the loop as a relation between the local variables
    before and after it. *)
Inductive Step (this : RainbowDelimiters.t) (isDarkMode : bool)
    (text : jsstring) (i : nat) (st : ScanState) : ScanState → Prop :=
  | step_end :
      text !! i = None →
      Step this isDarkMode text i st st
  | step_other char :
      text !! i = Some char →
      isOpening this char = false → isClosing this char = false →
      Step this isDarkMode text i st st
  | step_open char base used' :
      text !! i = Some char →
      isOpening this char = true →
      getNextColor this (usedColors st) (depth st) = (Some base, used') →
      Step this isDarkMode text i st
        (decorated isDarkMode text i char base st (S (depth st))
           (base :: colorStack st) used')
  | step_close_pop char base rest :
      text !! i = Some char →
      isOpening this char = false → isClosing this char = true →
      colorStack st = base :: rest →
      Step this isDarkMode text i st
        (decorated isDarkMode text i char base st
           (Z.to_nat (Z.max 0 (Z.of_nat (depth st) - 1))) rest (usedColors st))
  | step_close_fallback char base used' :
      text !! i = Some char →
      isOpening this char = false → isClosing this char = true →
      colorStack st = [] →
      getNextColor this (usedColors st) (depth st) = (Some base, used') →
      Step this isDarkMode text i st
        (decorated isDarkMode text i char base st
           (Z.to_nat (Z.max 0 (Z.of_nat (depth st) - 1))) [] used').

(** The decoration of the character at index [i], if it has one. *)
Definition deco_at (ds : list Decoration) (i : nat) : option Decoration :=
  snd <$> list_find (λ d, d_index d = i) ds.

Definition opening_decorations (this : RainbowDelimiters.t)
    (ds : list Decoration) : list Decoration :=
  filter (λ d, isOpening this (d_char d) = true) ds.

Definition closing_decorations (this : RainbowDelimiters.t)
    (ds : list Decoration) : list Decoration :=
  filter (λ d, isOpening this (d_char d) = false ∧
               isClosing this (d_char d) = true) ds.

(** [w] is what [text] holds from index [k] on. *)
Definition Segment (text : jsstring) (k : nat) (w : jsstring) : Prop :=
  ∀ j c, w !! j = Some c → text !! (k + j)%nat = Some c.

(** Balanced, correctly nested text: every opening delimiter is closed by
    the closing delimiter of its own kind, pairs nest, and other characters
    may stand anywhere. *)
Inductive WellNested (this : RainbowDelimiters.t) : jsstring → Prop :=
  | wn_nil : WellNested this []
  | wn_other c w :
      isOpening this c = false → isClosing this c = false →
      WellNested this w → WellNested this (c :: w)
  | wn_pair o c w1 w2 :
      (o, c) ∈ delimiter_pairs this →
      WellNested this w1 → WellNested this w2 →
      WellNested this (o :: w1 ++ c :: w2).

(** ** The output as a sequence of pieces *)

Inductive Piece : Type :=
  | Plain (c : ascii)
  | Wrapped (hex : jsstring) (c : ascii).

Definition piece_char (p : Piece) : ascii :=
  match p with Plain c => c | Wrapped _ c => c end.

Definition render_piece (p : Piece) : jsstring :=
  match p with Plain c => [c] | Wrapped hex c => span hex c end.

Definition render (ps : list Piece) : jsstring := concat (render_piece <$> ps).

(** The pieces of [text], whose first character has index [start], under
    the decorations [ds]. *)
Definition pieces_from (ds : list Decoration) (start : nat) (text : jsstring)
  : list Piece :=
  imap (λ j c, match deco_at ds (start + j) with
               | Some d => Wrapped (d_hex d) c
               | None => Plain c
               end) text.

Definition pieces_of (ds : list Decoration) (text : jsstring) : list Piece :=
  pieces_from ds 0 text.

(** ** Stripping the colour markup from a text *)

(** [l] without its prefix [p], when it starts with [p]. *)
Fixpoint strip_prefix (p l : jsstring) : option jsstring :=
  match p, l with
  | [], _ => Some l
  | a :: p', b :: l' => if bool_decide (a = b) then strip_prefix p' l' else None
  | _ :: _, [] => None
  end.

(** The number of characters before the first double quote of [l], and what
    follows that quote. *)
Fixpoint until_quote (l : jsstring) : option (nat * jsstring) :=
  match l with
  | [] => None
  | a :: l' =>
      if bool_decide (a = dquote) then Some (O, l')
      else '(n, r) ← until_quote l'; Some (S n, r)
  end.

(** When [l] starts with the colour markup of a delimiter, a span annotation
    [<span style="color: ...">c</span>] around a delimiter [c] of [this]:
    the delimiter and the length of the annotation.  A span around any other
    character is not colour markup: the scan wraps delimiters only. *)
Definition match_span (this : RainbowDelimiters.t) (l : jsstring)
  : option (ascii * nat) :=
  l1 ← strip_prefix span_open l;
  '(n, l2) ← until_quote l1;
  match l2 with
  | gt :: c :: l3 =>
      if bool_decide (gt = ">"%char) && (isOpening this c || isClosing this c)
      then
        _ ← strip_prefix span_close l3;
        Some (c, (length span_open + n + 3 + length span_close)%nat)
      else None
  | _ => None
  end.

(** Left to right: the colour markup of a delimiter is replaced by the
    delimiter, any other character is kept.  [skip] counts the characters of
    an annotation still to pass over. *)
Fixpoint strip_from (this : RainbowDelimiters.t) (skip : nat) (l : jsstring)
  : jsstring :=
  match l with
  | [] => []
  | a :: l' =>
      match skip with
      | S k => strip_from this k l'
      | O =>
          match match_span this l with
          | Some (c, n) => c :: strip_from this (n - 1) l'
          | None => a :: strip_from this 0 l'
          end
      end
  end.

Definition strip_markup (this : RainbowDelimiters.t) (l : jsstring)
  : jsstring :=
  strip_from this 0 l.

(** The pieces the scan produces: a plain character that is no delimiter, or
    a wrapped delimiter whose colour text holds no double quote. *)
Definition piece_ok (this : RainbowDelimiters.t) (p : Piece) : Prop :=
  match p with
  | Plain c => isOpening this c || isClosing this c = false
  | Wrapped hex c =>
      (dquote ∉ hex) ∧ isOpening this c || isClosing this c = true
  end.

(** What holds of the local variables before iteration [k] of the loop. *)
Record Invariant (this : RainbowDelimiters.t) (isDarkMode : bool)
    (text : jsstring) (k : nat) (st : ScanState) : Prop := {
  inv_depth : depth st = length (colorStack st);
  inv_lastIndex : (lastIndex st ≤ k)%nat ∧ (lastIndex st ≤ length text)%nat;
  inv_stack : Forall (λ c, c ∈ baseColors this) (colorStack st);
  inv_emitted :
    Forall (λ d, (d_index d < k)%nat ∧
                 text !! d_index d = Some (d_char d) ∧
                 isOpening this (d_char d) || isClosing this (d_char d) = true ∧
                 d_base d ∈ baseColors this ∧
                 d = decoration isDarkMode (d_index d) (d_char d) (d_base d)
                       (d_depth d))
      (emitted st);
  inv_decorated :
    ∀ i c, (i < k)%nat → text !! i = Some c →
           isOpening this c || isClosing this c = true →
           is_Some (deco_at (emitted st) i);
  inv_result :
    (k ≤ length text)%nat →
    result st ++ substring text (lastIndex st) k =
    render (pieces_of (emitted st) (take k text))
}.

End Scan.

(** ** The colour arithmetic in IEEE 754 binary64

    The script computes with doubles.  This module repeats the colour
    computation on the kernel's binary64 numbers for the arguments the scan
    feeds it, so that it can be compared with the exact arithmetic above. *)

Module Binary64.
Import PrimFloat.
Local Open Scope float_scope.

Definition of_nat (n : nat) : float := of_uint63 (Uint63.of_Z (Z.of_nat n)).

(** [a % 2] for an [a] from 0 up to 6; the subtractions are exact. *)
Definition rem2 (a : float) : float :=
  if a <? 2 then a else if a <? 4 then a - 2 else a - 4.

Fixpoint round_search (fuel : nat) (n : nat) (a : float) : option Z :=
  match fuel with
  | O => None
  | S fuel' =>
      if a <? of_nat n + 0.5 then Some (Z.of_nat n)
      else round_search fuel' (S n) a
  end.

(** [Math.round(a)] when the result lies in 0..255: the integer [n] with
    [n - 0.5 <= a < n + 0.5]. *)
Definition round (a : float) : option Z :=
  if a <? -0.5 then None else round_search 256 0 a.

Definition max (a b : float) : float := if a <? b then b else a.

(** [ColorUtils.HSL_TO_RGB.convert] *)
Definition convert (h s l : float) : option Rgb.t :=
  let s := s / 100 in
  let l := l / 100 in
  let c := (1 - abs (2 * l - 1)) * s in
  let x := c * (1 - abs (rem2 (h / 60) - 1)) in
  let m := l - c / 2 in
  let '(r, g, b) :=
    if h <? 60 then (c, x, 0)
    else if h <? 120 then (x, c, 0)
    else if h <? 180 then (0, c, x)
    else if h <? 240 then (0, x, c)
    else if h <? 300 then (x, 0, c)
    else (c, 0, x) in
  r' ← round ((r + m) * 255);
  g' ← round ((g + m) * 255);
  b' ← round ((b + m) * 255);
  Some (Rgb.mk r' g' b').

(** The text in the span of a delimiter coloured from palette entry [i] of
    [generateBaseColors(count)] at [depth]: the hue is [i * hueStep], the
    saturation and lightness are those [adjustColor] computes from 70 and
    the depth. *)
Definition hexColor (count : nat) (isDarkMode : bool) (i depth : nat)
  : option jsstring :=
  let hueStep := 360 / of_nat count in
  let h := of_nat i * hueStep in
  let baseLightness := if isDarkMode then 65 else 35 in
  let depthAdjustment :=
    of_nat (depth mod 3) * (if isDarkMode then -5 else 5) in
  let l := baseLightness + depthAdjustment in
  let s := max 40 (70 - of_nat (depth / 3) * 10) in
  ColorUtils.toHex <$> convert h s l.

(** The cases of the default palette, up to depth 11, where binary64 and
    exact arithmetic round a channel differently: theme, palette index and
    depth. *)
Definition rounding_differs : list (bool * nat * nat) :=
  [(true, 1%nat, 10%nat); (true, 31%nat, 10%nat)].

(** Binary64 and exact arithmetic give the same colour text, or the case is
    one of [rounding_differs]. *)
Definition agrees (count : nat) (isDarkMode : bool) (i depth : nat) : bool :=
  bool_decide ((isDarkMode, i, depth) ∈ rounding_differs) ||
  bool_decide
    (hexColor count isDarkMode i depth =
     Some (Scan.hexColor isDarkMode (nth_color count i) depth)).

(** The binary64 channels are in range and their colour text is well formed
    and reads back as these channels. *)
Definition wellFormed (count : nat) (isDarkMode : bool) (i depth : nat) : bool :=
  match hexColor count isDarkMode i depth with
  | Some hex =>
      bool_decide (length hex = 7%nat) &&
      bool_decide (head hex = Some "#"%char) &&
      forallb HexText.is_lower_hex (tail hex) &&
      bool_decide (ColorUtils.toHex <$> HexText.parse hex = Some hex)
  | None => false
  end.

Definition check (count : nat) (i depth : nat) : bool :=
  agrees count false i depth && agrees count true i depth &&
  wellFormed count false i depth && wellFormed count true i depth.

Definition check_depths (count depths i : nat) : bool :=
  forallb (check count i) (seq 0 depths).

End Binary64.

(** ** The conversions without the final rounding *)

Module Unrounded.
Local Open Scope Q_scope.

(** The chroma [c] and the offset [m] of [HSL_TO_RGB.convert]. *)
Definition chroma (s l : Q) : Q := (1 - Qabs (2 * (l / 100) - 1)) * (s / 100).

Definition offset (s l : Q) : Q := l / 100 - chroma s l / 2.

(** The three sums [r + m], [g + m], [b + m] that [HSL_TO_RGB.convert]
    scales by 255 and rounds. *)
Definition channels (h s l : Q) : Q * Q * Q :=
  let c := chroma s l in
  let x := c * (1 - Qabs (JsNum.rem (h / 60) 2 - 1)) in
  let m := offset s l in
  let '(r, g, b) :=
    if JsNum.ltb h 60 then (c, x, 0)
    else if JsNum.ltb h 120 then (x, c, 0)
    else if JsNum.ltb h 180 then (0, c, x)
    else if JsNum.ltb h 240 then (0, x, c)
    else if JsNum.ltb h 300 then (x, 0, c)
    else (c, 0, x) in
  (r + m, g + m, b + m).

(** The channel sums in the sextant [k] of the hue circle, [u] being how far
    the hue is into the sextant (from 0 to 1). *)
Definition sextant (k : Z) (u c m : Q) : Q * Q * Q :=
  match k with
  | 0%Z => (c + m, c * u + m, m)
  | 1%Z => (c * (1 - u) + m, c + m, m)
  | 2%Z => (m, c + m, c * u + m)
  | 3%Z => (m, c * (1 - u) + m, c + m)
  | 4%Z => (c * u + m, m, c + m)
  | _ => (c + m, m, c * (1 - u) + m)
  end.

(** Equal triples of rationals. *)
Definition same (p q : Q * Q * Q) : Prop :=
  p.1.1 == q.1.1 ∧ p.1.2 == q.1.2 ∧ p.2 == q.2.

End Unrounded.

(** The colour [RGB_TO_HSL.convert] returns for integer channels, converted
    back with [HSL_TO_RGB.convert]. *)
Definition rgb_hsl_rgb (r g b : Z) : Rgb.t :=
  let hsl := ColorUtils.RGB_TO_HSL.convert (inject_Z r) (inject_Z g)
               (inject_Z b) in
  ColorUtils.HSL_TO_RGB.convert (Hsl.h hsl) (Hsl.s hsl) (Hsl.l hsl).

#[global] Instance Rgb_eq_dec : EqDecision Rgb.t.
Proof. solve_decision. Defined.

(** Whether the grey of channel value [k] comes back as the grey of channel
    value [(k + 50) / 100]. *)
Definition grey_comes_back_dark (k : nat) : bool :=
  bool_decide
    (rgb_hsl_rgb (Z.of_nat k) (Z.of_nat k) (Z.of_nat k) =
     {| Rgb.r := (Z.of_nat k + 50) / 100; Rgb.g := (Z.of_nat k + 50) / 100;
        Rgb.b := (Z.of_nat k + 50) / 100 |}).

(** ** Successive calls of [getNextColor] *)

(** The colours that calls of [getNextColor] with the depths [depths] return
    one after the other, and the used set after the last of them. *)
Fixpoint nextColors (this : RainbowDelimiters.t) (usedColors : gset nat)
    (depths : list nat) : list (option Color.t) * gset nat :=
  match depths with
  | [] => ([], usedColors)
  | depth :: depths' =>
      let '(color, used1) :=
        RainbowDelimiters.getNextColor this usedColors depth in
      let '(colors, used2) := nextColors this used1 depths' in
      (color :: colors, used2)
  end.

(** ** What a decoration paints *)

(** A decoration without its index: the delimiter, the base colour and depth
    that went into [adjustColor], and the colour text of the span. *)
Definition paint (d : RainbowDelimiters.Decoration)
  : ascii * Color.t * nat * jsstring :=
  (RainbowDelimiters.d_char d, RainbowDelimiters.d_base d,
   RainbowDelimiters.d_depth d, RainbowDelimiters.d_hex d).

(** Two states of the scan that agree on everything the colour of the next
    delimiter depends on, and that have painted the same so far. *)
Record SameColouring (st st' : RainbowDelimiters.ScanState) : Prop := {
  same_depth : RainbowDelimiters.depth st = RainbowDelimiters.depth st';
  same_stack :
    RainbowDelimiters.colorStack st = RainbowDelimiters.colorStack st';
  same_used :
    RainbowDelimiters.usedColors st = RainbowDelimiters.usedColors st';
  same_paint :
    paint <$> RainbowDelimiters.emitted st =
    paint <$> RainbowDelimiters.emitted st'
}.

(** ** Balanced text, whatever the kinds *)

(** Text whose delimiters balance when their kinds are ignored: an opening
    delimiter may be closed by a closing delimiter of any kind. *)
Inductive Balanced (this : RainbowDelimiters.t) : jsstring → Prop :=
  | bal_nil : Balanced this []
  | bal_other c w :
      RainbowDelimiters.isOpening this c = false →
      RainbowDelimiters.isClosing this c = false →
      Balanced this w → Balanced this (c :: w)
  | bal_pair o c w1 w2 :
      RainbowDelimiters.isOpening this o = true →
      RainbowDelimiters.isOpening this c = false →
      RainbowDelimiters.isClosing this c = true →
      Balanced this w1 → Balanced this w2 →
      Balanced this (o :: w1 ++ c :: w2).

(** ** Colours given out while the palette lasts *)

(** What the loop maintains before iteration [k] while [text] has no more
    delimiters than the palette has colours: one decoration per delimiter
    met, no more used colours than decorations, and the base colours of the
    opening delimiters are used and pairwise different objects. *)
Record Unused (this : RainbowDelimiters.t) (text : jsstring) (k : nat)
    (st : RainbowDelimiters.ScanState) : Prop := {
  unused_count :
    length (RainbowDelimiters.emitted st) =
    length (filter (λ c, RainbowDelimiters.isOpening this c
                         || RainbowDelimiters.isClosing this c = true)
              (take k text));
  unused_size :
    (size (RainbowDelimiters.usedColors st)
     ≤ length (RainbowDelimiters.emitted st))%nat;
  unused_palette :
    RainbowDelimiters.usedColors st ⊆
    list_to_set (Color.id <$> RainbowDelimiters.baseColors this);
  unused_opening :
    Forall (λ d, Color.id (RainbowDelimiters.d_base d)
                 ∈ RainbowDelimiters.usedColors st)
      (Scan.opening_decorations this (RainbowDelimiters.emitted st));
  unused_distinct :
    NoDup (Color.id ∘ RainbowDelimiters.d_base <$>
           Scan.opening_decorations this (RainbowDelimiters.emitted st))
}.

(** Text with [n] opening delimiters that are never closed, and balanced
    text before, between and after them. *)
Inductive OpenNesting (this : RainbowDelimiters.t) : nat → jsstring → Prop :=
  | open_none w : Balanced this w → OpenNesting this 0 w
  | open_more n w o w' :
      OpenNesting this n w →
      RainbowDelimiters.isOpening this o = true →
      Balanced this w' →
      OpenNesting this (S n) (w ++ o :: w').

(** * Properties *)

(** ** The palette *)

Section Palette.
Import ColorPaletteGenerator.
Local Open Scope Q_scope.

Lemma foldl_push_color hueStep acc a n :
  foldl (push_color hueStep) acc (seq a n) =
  acc ++ ((λ i, Color.mk i (Hsl.mk (JsNum.of_nat i * hueStep) 70 50)) <$> seq a n).
Proof.
  revert acc a. induction n as [|n IH]; intros acc a; simpl.
  - by rewrite app_nil_r.
  - rewrite IH. unfold push_color. by rewrite <- app_assoc.
Qed.

Lemma generateBaseColors_map count :
  generateBaseColors count = nth_color count <$> seq 0 count.
Proof. unfold generateBaseColors. by rewrite foldl_push_color. Qed.

Lemma generateBaseColors_length count :
  length (generateBaseColors count) = count.
Proof. by rewrite generateBaseColors_map, length_fmap, length_seq. Qed.

Lemma generateBaseColors_lookup count i :
  (i < count)%nat → generateBaseColors count !! i = Some (nth_color count i).
Proof.
  intros Hi. rewrite generateBaseColors_map, list_lookup_fmap.
  by rewrite lookup_seq_lt.
Qed.

(** C8. For every [count] the palette has exactly [count] entries, and entry
    [i] is the colour with hue [i * (360 / count)], saturation 70 and
    lightness 50 (and identity [i]).  The result is a function of [count]
    alone, so the order is fixed.  No entry exists past the end. *)
Theorem generateBaseColors_spec (count : nat) :
  length (generateBaseColors count) = count ∧
  (∀ i, (i < count)%nat →
     ∃ c, generateBaseColors count !! i = Some c ∧
          Color.id c = i ∧
          Color.h c = JsNum.of_nat i * (360 / JsNum.of_nat count) ∧
          Color.s c = 70 ∧ Color.l c = 50) ∧
  (∀ i, (count ≤ i)%nat → generateBaseColors count !! i = None).
Proof.
  split; [apply generateBaseColors_length|]. split.
  - intros i Hi. exists (nth_color count i).
    by rewrite generateBaseColors_lookup.
  - intros i Hi. apply lookup_ge_None. by rewrite generateBaseColors_length.
Qed.

(** X17. The hues grow with the index: the palette walks once around the
    hue circle, from 0 up to but not including 360. *)
Lemma generateBaseColors_hues (count i j : nat) (ci cj : Color.t) :
  generateBaseColors count !! i = Some ci →
  generateBaseColors count !! j = Some cj →
  (i < j)%nat →
  0 <= Color.h ci ∧ Color.h ci < Color.h cj ∧ Color.h cj < 360.
Proof.
  intros Hi Hj Hlt.
  assert (Hjc : (j < count)%nat).
  { apply lookup_lt_Some in Hj. by rewrite generateBaseColors_length in Hj. }
  rewrite generateBaseColors_lookup in Hi by lia.
  rewrite generateBaseColors_lookup in Hj by lia.
  injection Hi as <-. injection Hj as <-.
  unfold nth_color, Color.h. cbn [Color.hsl Hsl.h]. unfold JsNum.of_nat.
  assert (Hc : 0 < inject_Z (Z.of_nat count)).
  { change 0 with (inject_Z 0). rewrite <- Zlt_Qlt. lia. }
  assert (Hij : inject_Z (Z.of_nat i) < inject_Z (Z.of_nat j)).
  { rewrite <- Zlt_Qlt. lia. }
  assert (Hj' : inject_Z (Z.of_nat j) < inject_Z (Z.of_nat count)).
  { rewrite <- Zlt_Qlt. lia. }
  assert (Hi0 : 0 <= inject_Z (Z.of_nat i)).
  { change 0 with (inject_Z 0). rewrite <- Zle_Qle. lia. }
  assert (Estep : 360 / inject_Z (Z.of_nat count) * inject_Z (Z.of_nat count) == 360).
  { field. intros E. rewrite E in Hc. by apply Qlt_irrefl in Hc. }
  set (step := 360 / inject_Z (Z.of_nat count)) in *.
  assert (Hstep : 0 < step).
  { destruct (Qlt_le_dec 0 step) as [|Hneg]; [done|]. exfalso. nra. }
  repeat split; nra.
Qed.

End Palette.

(** ** Rounding and remainders *)

Section Rounding.
Local Open Scope Q_scope.

Lemma trunc_nonneg_floor (a : Q) : 0 <= a → JsNum.trunc a = Qfloor a.
Proof.
  destruct a as [n d]. unfold JsNum.trunc, Qfloor, Qle. simpl. intros H.
  apply Z.quot_div_nonneg; lia.
Qed.

Lemma rem_two_range (a : Q) : 0 <= a → 0 <= JsNum.rem a 2 ∧ JsNum.rem a 2 < 2.
Proof.
  intros Ha. unfold JsNum.rem.
  assert (Hq : a / 2 * 2 == a) by field.
  set (q := a / 2) in *.
  assert (H2 : 0 <= q) by lra.
  rewrite (trunc_nonneg_floor _ H2).
  pose proof (Qfloor_le q) as Hlo.
  pose proof (Qlt_floor q) as Hhi.
  rewrite inject_Z_plus in Hhi. change (inject_Z 1) with 1 in Hhi.
  split; lra.
Qed.

Lemma round_unit_range (v : Q) :
  0 <= v → v <= 1 → (0 ≤ JsNum.round (v * 255) ≤ 255)%Z.
Proof.
  intros H0 H1. unfold JsNum.round. split.
  - apply Z.le_trans with (Qfloor 0); [done|]. apply Qfloor_resp_le. lra.
  - apply Z.le_trans with (Qfloor (255 + (1 # 2))); [|done].
    apply Qfloor_resp_le. lra.
Qed.

End Rounding.

(** ** The channels of a converted colour *)

Section ConvertRange.
Import ColorUtils.
Local Open Scope Q_scope.

Lemma convert_range (h s l : Q) :
  0 <= h → 0 <= s → s <= 100 → 0 <= l → l <= 100 →
  byte_range (Rgb.r (HSL_TO_RGB.convert h s l)) ∧
  byte_range (Rgb.g (HSL_TO_RGB.convert h s l)) ∧
  byte_range (Rgb.b (HSL_TO_RGB.convert h s l)).
Proof.
  intros Hh Hs0 Hs1 Hl0 Hl1. unfold HSL_TO_RGB.convert, byte_range.
  assert (Es : s / 100 * 100 == s) by field.
  assert (El : l / 100 * 100 == l) by field.
  set (s' := s / 100) in *. set (l' := l / 100) in *.
  assert (Ht : 0 <= 1 - Qabs (2 * l' - 1) ∧
               1 - Qabs (2 * l' - 1) <= 2 * l' ∧
               1 - Qabs (2 * l' - 1) <= 2 - 2 * l').
  { apply Qabs_case; intros; repeat split; lra. }
  set (t := 1 - Qabs (2 * l' - 1)) in *.
  assert (Hc : 0 <= t * s' ∧ t * s' <= t) by (split; nra).
  set (c := t * s') in *.
  assert (Hh60 : 0 <= h / 60).
  { assert (h / 60 * 60 == h) by field. lra. }
  destruct (rem_two_range (h / 60) Hh60) as [Hr0 Hr2].
  set (k := JsNum.rem (h / 60) 2) in *.
  assert (Hf : 0 <= 1 - Qabs (k - 1) ∧ 1 - Qabs (k - 1) <= 1).
  { apply Qabs_case; intros; split; lra. }
  set (f := 1 - Qabs (k - 1)) in *.
  assert (Hx : 0 <= c * f ∧ c * f <= c) by (split; nra).
  set (x := c * f) in *.
  assert (Ec : c / 2 * 2 == c) by field.
  set (c2 := c / 2) in *.
  repeat match goal with |- context [JsNum.ltb ?a ?b] =>
    destruct (JsNum.ltb a b) end;
  cbn [Rgb.r Rgb.g Rgb.b]; repeat split;
  apply round_unit_range; lra.
Qed.

End ConvertRange.

(** ** The colour text *)

Section Hex.
Import ColorUtils HexText.

Lemma byte_text_ok_all : forallb byte_text_ok (seq 0 256) = true.
Proof. vm_compute. reflexivity. Qed.

Lemma byte_text (n : Z) :
  byte_range n →
  ∃ d1 d0, padStart 2 "0" (JsNum.toString16 n) = [d1; d0] ∧
           is_lower_hex d1 = true ∧ is_lower_hex d0 = true ∧
           ∃ v1 v0, digit_value d1 = Some v1 ∧ digit_value d0 = Some v0 ∧
                    (16 * v1 + v0)%Z = n.
Proof.
  intros [H0 H1].
  pose proof byte_text_ok_all as Hall.
  rewrite forallb_forall in Hall.
  specialize (Hall (Z.to_nat n)).
  assert (Hin : In (Z.to_nat n) (seq 0 256)) by (apply in_seq; lia).
  specialize (Hall Hin). unfold byte_text_ok in Hall.
  rewrite Z2Nat.id in Hall by lia.
  destruct (padStart 2 "0" (JsNum.toString16 n)) as [|d1 [|d0 [|? ?]]]; try done.
  rewrite !andb_true_iff, !bool_decide_eq_true in Hall.
  destruct Hall as [[[Hd1 Hd0] Hv1] Hv0].
  exists d1, d0. repeat split; try done.
  eexists _, _. repeat split; [exact Hv1|exact Hv0|].
  rewrite Nat2Z.inj_div, Nat2Z.inj_mod, Z2Nat.id by lia.
  change (Z.of_nat 16) with 16%Z.
  pose proof (Z.div_mod n 16). lia.
Qed.

Lemma toHex_round_trip (rgb : Rgb.t) :
  byte_range (Rgb.r rgb) → byte_range (Rgb.g rgb) → byte_range (Rgb.b rgb) →
  well_formed (toHex rgb) ∧ parse (toHex rgb) = Some rgb.
Proof.
  intros Hr Hg Hb. destruct rgb as [r g b]. simpl in *.
  destruct (byte_text r Hr) as (r1 & r0 & Er & Hr1 & Hr0 & vr1 & vr0 & Vr1 & Vr0 & Sr).
  destruct (byte_text g Hg) as (g1 & g0 & Eg & Hg1 & Hg0 & vg1 & vg0 & Vg1 & Vg0 & Sg).
  destruct (byte_text b Hb) as (b1 & b0 & Eb & Hb1 & Hb0 & vb1 & vb0 & Vb1 & Vb0 & Sb).
  unfold toHex. cbn [Rgb.r Rgb.g Rgb.b]. rewrite Er, Eg, Eb. split.
  - unfold well_formed. simpl. repeat split; try done.
    repeat constructor; done.
  - simpl. rewrite Vr1, Vr0, Vg1, Vg0, Vb1, Vb0. simpl.
    by rewrite Sr, Sg, Sb.
Qed.

(** C9. For a hue in [0, 360) and saturation and lightness in [0, 100], the
    text [hslToHex] builds has exactly 7 characters, a [#] followed by six
    lowercase hexadecimal digits (two per channel, zero padded), and reading
    it back gives exactly the integer channels [HSL_TO_RGB.convert]
    produced. *)
Theorem hslToHex_round_trip (h s l : Q) :
  (0 <= h)%Q → (h < 360)%Q → (0 <= s)%Q → (s <= 100)%Q →
  (0 <= l)%Q → (l <= 100)%Q →
  length (hslToHex h s l) = 7%nat ∧
  head (hslToHex h s l) = Some "#"%char ∧
  Forall (λ c, is_lower_hex c = true) (tail (hslToHex h s l)) ∧
  parse (hslToHex h s l) = Some (HSL_TO_RGB.convert h s l).
Proof.
  intros Hh _ Hs0 Hs1 Hl0 Hl1.
  destruct (convert_range h s l Hh Hs0 Hs1 Hl0 Hl1) as (Hr & Hg & Hb).
  destruct (toHex_round_trip _ Hr Hg Hb) as [(Hlen & Hhd & Hdig) Hparse].
  unfold hslToHex. auto.
Qed.

Lemma hslToHex_round_trip_witness :
  parse (hslToHex 0 70 35) = Some (HSL_TO_RGB.convert 0 70 35).
Proof.
  apply (hslToHex_round_trip 0 70 35); vm_compute; congruence.
Defined.

End Hex.

(** ** Adjusting and choosing colours *)

Section Adjust.
Import ColorAdjuster.
Local Open Scope Q_scope.

(** C6. The adjusted colour keeps the hue of the base colour; its lightness
    is the theme baseline (35 light, 65 dark) plus [depth mod 3] times the
    theme offset (+5 light, -5 dark); its saturation is the base saturation
    minus 10 for every 3 full levels of depth, and 40 where that would fall
    below 40. *)
Theorem adjustColor_spec (isDarkMode : bool) (base : Color.t) (depth : nat) :
  ∃ adj, adjustColor isDarkMode (Some base) depth = Some adj ∧
    Hsl.h adj = Color.h base ∧
    Hsl.l adj ==
      (if isDarkMode then 65 - 5 * JsNum.of_nat (depth mod 3)
       else 35 + 5 * JsNum.of_nat (depth mod 3)) ∧
    (40 <= Color.s base - 10 * JsNum.of_nat (depth / 3) →
       Hsl.s adj == Color.s base - 10 * JsNum.of_nat (depth / 3)) ∧
    (Color.s base - 10 * JsNum.of_nat (depth / 3) <= 40 → Hsl.s adj == 40) ∧
    40 <= Hsl.s adj.
Proof.
  eexists. split; [reflexivity|]. cbn [Hsl.h Hsl.l Hsl.s].
  split; [reflexivity|]. split; [destruct isDarkMode; ring|].
  repeat split.
  - intros H. rewrite Q.max_r by lra. ring.
  - intros H. rewrite Q.max_l by lra. reflexivity.
  - apply Q.le_max_l.
Qed.

(** Two consecutive depths never get the same lightness. *)
Lemma adjustColor_next_depth (isDarkMode : bool) (base : Color.t) (depth : nat) :
  ∃ a a',
    adjustColor isDarkMode (Some base) depth = Some a ∧
    adjustColor isDarkMode (Some base) (S depth) = Some a' ∧
    ¬ Hsl.l a' == Hsl.l a.
Proof.
  eexists _, _. split; [reflexivity|]. split; [reflexivity|].
  cbn [Hsl.l]. unfold JsNum.of_nat.
  assert (Hr : (depth mod 3 < 3)%nat) by (apply Nat.mod_upper_bound; lia).
  assert (Hs : (S depth mod 3 = (depth mod 3 + 1) mod 3)%nat).
  { replace (S depth) with (depth + 1)%nat by lia.
    by rewrite Nat.Div0.add_mod_idemp_l. }
  rewrite Hs.
  destruct (depth mod 3)%nat as [|[|[|r]]]; [| | |lia];
    destruct isDarkMode; vm_compute; discriminate.
Qed.

End Adjust.

Section NextColor.
Import RainbowDelimiters.

Lemma getNextColor_available (this : RainbowDelimiters.t) (usedColors : gset nat)
    (depth : nat) :
  filter (λ c, Color.id c ∉ usedColors) (baseColors this) ≠ [] →
  ∃ c, filter (λ c, Color.id c ∉ usedColors) (baseColors this)
         !! (depth mod length
               (filter (λ c, Color.id c ∉ usedColors) (baseColors this)))
       = Some c ∧
       c ∈ baseColors this ∧ (Color.id c ∉ usedColors) ∧
       getNextColor this usedColors depth =
         (Some c, {[ Color.id c ]} ∪ usedColors).
Proof.
  unfold getNextColor.
  set (avail := filter (λ c, Color.id c ∉ usedColors) (baseColors this)).
  intros Hne.
  assert (Hlen : length avail ≠ 0%nat) by (destruct avail; done).
  rewrite bool_decide_eq_false_2 by done.
  destruct (lookup_lt_is_Some_2 avail (depth mod length avail)) as [c Hc].
  { apply Nat.mod_upper_bound. done. }
  exists c. rewrite Hc. split; [done|].
  apply list_elem_of_lookup_2 in Hc.
  apply list_elem_of_filter in Hc as [Hnew Hin]. done.
Qed.

Lemma getNextColor_exhausted (this : RainbowDelimiters.t) (usedColors : gset nat)
    (depth : nat) :
  filter (λ c, Color.id c ∉ usedColors) (baseColors this) = [] →
  getNextColor this usedColors depth =
    (baseColors this !! (depth mod length (baseColors this)), ∅).
Proof. unfold getNextColor. by intros ->. Qed.

(** With a palette that is not empty, [getNextColor] always returns one of
    its entries. *)
Lemma getNextColor_some (this : RainbowDelimiters.t) (usedColors : gset nat)
    (depth : nat) :
  baseColors this ≠ [] →
  ∃ c, (getNextColor this usedColors depth).1 = Some c ∧ c ∈ baseColors this.
Proof.
  intros Hne.
  destruct (decide (filter (λ c, Color.id c ∉ usedColors) (baseColors this) = []))
    as [Hempty|Hleft].
  - rewrite (getNextColor_exhausted _ _ _ Hempty). simpl.
    destruct (lookup_lt_is_Some_2 (baseColors this)
                (depth mod length (baseColors this))) as [c Hc].
    { apply Nat.mod_upper_bound. destruct (baseColors this); done. }
    exists c. split; [done|]. by eapply list_elem_of_lookup_2.
  - destruct (getNextColor_available this usedColors depth Hleft)
      as (c & _ & Hin & _ & ->).
    by exists c.
Qed.

(** C2. [getNextColor(depth)] filters the palette to the colours that are
    not in the used set.  When some colour is left it returns the entry at
    index [depth mod filteredLength] of the filtered list, a palette colour
    that was not used, and adds it to the used set.  When none is left it
    empties the used set and returns the entry at index
    [depth mod paletteLength] of the whole palette, which it does not add to
    the set. *)
Theorem getNextColor_spec (this : RainbowDelimiters.t) (usedColors : gset nat)
    (depth : nat) :
  let availableColors :=
    filter (λ c, Color.id c ∉ usedColors) (baseColors this) in
  (availableColors ≠ [] →
     ∃ c, availableColors !! (depth mod length availableColors) = Some c ∧
          c ∈ baseColors this ∧ (Color.id c ∉ usedColors) ∧
          getNextColor this usedColors depth =
            (Some c, {[ Color.id c ]} ∪ usedColors)) ∧
  (availableColors = [] →
     getNextColor this usedColors depth =
       (baseColors this !! (depth mod length (baseColors this)), ∅)).
Proof.
  intros avail. split.
  - apply getNextColor_available.
  - apply getNextColor_exhausted.
Qed.

End NextColor.

(** ** One iteration of the loop *)

Section LoopBody.
Import RainbowDelimiters Scan.
Variable this : RainbowDelimiters.t.
Variable isDarkMode : bool.
Variable text : jsstring.

Lemma adjustColor_object base d :
  ColorAdjuster.adjustColor isDarkMode (Some base) d =
  Some (adjusted isDarkMode base d).
Proof. reflexivity. Qed.

Lemma loop_body_Step i st st' :
  loop_body this isDarkMode text i st = Some st' →
  Step this isDarkMode text i st st'.
Proof.
  unfold loop_body. destruct (text !! i) as [char|] eqn:Hchar.
  2: { intros [= <-]. by constructor. }
  destruct (isOpening this char) eqn:Hop; simpl.
  - destruct (getNextColor this (usedColors st) (depth st)) as [[base|] used'] eqn:Hnext;
      simpl; [|done].
    intros [= <-]. by eapply step_open.
  - destruct (isClosing this char) eqn:Hcl; simpl.
    2: { intros [= <-]. by eapply step_other. }
    destruct (colorStack st) as [|base rest] eqn:Hstack.
    + destruct (getNextColor this (usedColors st) (depth st)) as [[base|] used'] eqn:Hnext;
        simpl; [|done].
      intros [= <-]. by eapply step_close_fallback.
    + simpl. intros [= <-]. by eapply step_close_pop.
Qed.

Lemma Step_loop_body i st st' :
  Step this isDarkMode text i st st' →
  loop_body this isDarkMode text i st = Some st'.
Proof.
  unfold loop_body.
  destruct 1 as [Hc|c Hc Hop Hcl|c base used' Hc Hop Hnext
                 |c base rest Hc Hop Hcl Hstack|c base used' Hc Hop Hcl Hstack Hnext];
    rewrite Hc; try rewrite Hop; try rewrite Hcl; simpl;
    try rewrite Hstack; try rewrite Hnext; done.
Qed.

(** With a palette that is not empty every iteration completes. *)
Lemma loop_body_total i st :
  baseColors this ≠ [] → is_Some (loop_body this isDarkMode text i st).
Proof.
  intros Hne. unfold loop_body. destruct (text !! i) as [char|]; [|done].
  destruct (getNextColor_some this (usedColors st) (depth st) Hne) as (base & Hb & _).
  destruct (getNextColor this (usedColors st) (depth st)) as [b used'].
  simpl in Hb. subst b.
  destruct (isOpening this char); simpl; [done|].
  destruct (isClosing this char); simpl; [|done].
  destruct (colorStack st); simpl; done.
Qed.

Lemma for_loop_app body i n m st :
  for_loop body i (n + m) st =
  for_loop body i n st ≫= for_loop body (i + n) m.
Proof.
  revert i st. induction n as [|n IH]; intros i st; simpl.
  - by rewrite Nat.add_0_r.
  - destruct (body i st) as [st1|]; simpl; [|done].
    rewrite IH. by rewrite Nat.add_succ_r.
Qed.

Lemma run_S k :
  run this isDarkMode text (S k) =
  run this isDarkMode text k ≫= loop_body this isDarkMode text k.
Proof.
  unfold run. replace (S k) with (k + 1)%nat by lia.
  rewrite for_loop_app. simpl.
  destruct (for_loop _ 0 k init) as [st|]; simpl; [|done].
  by destruct (loop_body this isDarkMode text k st).
Qed.

Lemma for_loop_total i n st :
  baseColors this ≠ [] →
  is_Some (for_loop (loop_body this isDarkMode text) i n st).
Proof.
  intros Hne. revert i st. induction n as [|n IH]; intros i st; simpl; [done|].
  destruct (loop_body_total i st Hne) as [st1 ->]. simpl. apply IH.
Qed.

Lemma run_total k :
  baseColors this ≠ [] → is_Some (run this isDarkMode text k).
Proof. apply for_loop_total. Qed.

Lemma run_step k st :
  run this isDarkMode text k = Some st →
  baseColors this ≠ [] →
  ∃ st', run this isDarkMode text (S k) = Some st' ∧
         Step this isDarkMode text k st st'.
Proof.
  intros Hk Hne. destruct (loop_body_total k st Hne) as [st' Hst'].
  exists st'. split; [by rewrite run_S, Hk|by apply loop_body_Step].
Qed.

End LoopBody.

(** ** Looking up decorations *)

Section DecoAt.
Import RainbowDelimiters Scan.

Lemma deco_at_None ds i :
  Forall (λ d, d_index d ≠ i) ds → deco_at ds i = None.
Proof.
  intros H. unfold deco_at.
  by rewrite (proj2 (list_find_None (λ d, d_index d = i) ds) H).
Qed.

Lemma deco_at_index ds i d : deco_at ds i = Some d → d_index d = i ∧ d ∈ ds.
Proof.
  unfold deco_at. destruct (list_find _ ds) as [[j x]|] eqn:Hf; simpl; [|done].
  intros [= ->]. apply list_find_Some in Hf as (Hj & Hx & _).
  split; [done|]. by eapply list_elem_of_lookup_2.
Qed.

Lemma deco_at_app_l ds ds' i d :
  deco_at ds i = Some d → deco_at (ds ++ ds') i = Some d.
Proof.
  unfold deco_at. destruct (list_find _ ds) as [[j x]|] eqn:Hf; simpl; [|done].
  intros [= ->].
  assert (list_find (λ d, d_index d = i) (ds ++ ds') = Some (j, d)) as ->; [|done].
  apply list_find_app_Some. by left.
Qed.

Lemma deco_at_app_r ds ds' i :
  Forall (λ d, d_index d ≠ i) ds → deco_at (ds ++ ds') i = deco_at ds' i.
Proof.
  unfold deco_at. induction 1 as [|d ds Hd _ IH]; simpl; [done|].
  rewrite decide_False by done.
  destruct (list_find (λ d, d_index d = i) (ds ++ ds')) as [[j x]|];
    simpl in *; done.
Qed.

Lemma deco_at_snoc_other ds d i :
  d_index d ≠ i → deco_at (ds ++ [d]) i = deco_at ds i.
Proof.
  intros Hd. destruct (deco_at ds i) as [x|] eqn:Hx.
  - by apply deco_at_app_l.
  - rewrite deco_at_app_r.
    + apply deco_at_None. by constructor.
    + unfold deco_at in Hx.
      destruct (list_find _ ds) eqn:Hf; [done|]. by apply list_find_None in Hf.
Qed.

Lemma deco_at_snoc_new ds d k :
  Forall (λ x, (d_index x < k)%nat) ds → d_index d = k →
  deco_at (ds ++ [d]) k = Some d.
Proof.
  intros Hlt Hd. rewrite deco_at_app_r.
  - unfold deco_at. simpl. by rewrite decide_True.
  - eapply Forall_impl; [exact Hlt|]. simpl. lia.
Qed.

End DecoAt.

(** ** Substrings *)

Section Substring.

Lemma substring_ordered (s : jsstring) a b :
  (a ≤ b)%nat → (b ≤ length s)%nat → substring s a b = take (b - a) (drop a s).
Proof.
  intros Hab Hb. unfold substring.
  rewrite (Nat.min_l a), (Nat.min_l b), (Nat.min_l a b), (Nat.max_r a b) by lia.
  done.
Qed.

Lemma substring_empty (s : jsstring) a :
  (a ≤ length s)%nat → substring s a a = [].
Proof.
  intros Ha. rewrite substring_ordered by lia. by rewrite Nat.sub_diag.
Qed.

Lemma substring_snoc (s : jsstring) a b c :
  (a ≤ b)%nat → s !! b = Some c →
  substring s a (S b) = substring s a b ++ [c].
Proof.
  intros Hab Hc. pose proof (lookup_lt_Some _ _ _ Hc) as Hlt.
  rewrite !substring_ordered by lia.
  replace (S b - a)%nat with (S (b - a)) by lia.
  apply take_S_r. rewrite lookup_drop. by replace (a + (b - a))%nat with b by lia.
Qed.

Lemma substring_all (s : jsstring) : substring s 0 (length s) = s.
Proof.
  rewrite substring_ordered by lia. rewrite Nat.sub_0_r. simpl.
  apply firstn_all.
Qed.

End Substring.

(** ** What the loop maintains *)

Section Invariants.
Import RainbowDelimiters Scan.
Variable this : RainbowDelimiters.t.
Variable isDarkMode : bool.
Variable text : jsstring.

Lemma getNextColor_elem used d base used' :
  getNextColor this used d = (Some base, used') → base ∈ baseColors this.
Proof.
  unfold getNextColor. case_bool_decide; intros [= Hb _].
  - by eapply list_elem_of_lookup_2.
  - apply list_elem_of_lookup_2 in Hb.
    by apply list_elem_of_filter in Hb as [_ ?].
Qed.

(** Induction along the iterations of the loop. *)
Lemma run_ind (P : nat → ScanState → Prop) :
  P 0%nat init →
  (∀ k st st', run this isDarkMode text k = Some st → P k st →
               Step this isDarkMode text k st st' → P (S k) st') →
  ∀ k st, run this isDarkMode text k = Some st → P k st.
Proof.
  intros H0 HS. induction k as [|k IH]; intros st Hrun.
  - by injection Hrun as <-.
  - rewrite run_S in Hrun.
    destruct (run this isDarkMode text k) as [st0|] eqn:Hk; [|done].
    simpl in Hrun. eapply HS; eauto using loop_body_Step.
Qed.

Lemma render_app ps qs : render (ps ++ qs) = render ps ++ render qs.
Proof. unfold render. by rewrite fmap_app, concat_app. Qed.

Lemma pieces_of_snoc ds l c :
  pieces_of ds (l ++ [c]) =
  pieces_of ds l ++
  [match deco_at ds (length l) with
   | Some d => Wrapped (d_hex d) c
   | None => Plain c
   end].
Proof.
  unfold pieces_of, pieces_from. rewrite imap_app. simpl.
  by rewrite Nat.add_0_r.
Qed.

Lemma pieces_of_ext ds ds' l :
  (∀ i, (i < length l)%nat → deco_at ds i = deco_at ds' i) →
  pieces_of ds l = pieces_of ds' l.
Proof.
  intros H. unfold pieces_of, pieces_from. apply imap_ext.
  intros i x Hi. simpl. rewrite H; [done|]. by eapply lookup_lt_Some.
Qed.

Lemma Invariant_init : Invariant this isDarkMode text 0 init.
Proof.
  split; simpl.
  - done.
  - lia.
  - done.
  - done.
  - intros; lia.
  - done.
Qed.

Lemma Invariant_decorated k c base st depth' stack' used' :
  Invariant this isDarkMode text k st →
  text !! k = Some c →
  isOpening this c || isClosing this c = true →
  base ∈ baseColors this →
  depth' = length stack' →
  Forall (λ c, c ∈ baseColors this) stack' →
  Invariant this isDarkMode text (S k)
    (decorated isDarkMode text k c base st depth' stack' used').
Proof.
  intros [Hd [Hl1 Hl2] Hs He Hdec Hres] Hc Hdelim Hbase Hd' Hs'.
  pose proof (lookup_lt_Some _ _ _ Hc) as Hlt.
  assert (Hidx : Forall (λ x, (d_index x < k)%nat) (emitted st)).
  { eapply Forall_impl; [exact He|]. simpl. tauto. }
  split; simpl.
  - done.
  - lia.
  - done.
  - apply Forall_app. split.
    + eapply Forall_impl; [exact He|]. simpl. intros d (? & ? & ? & ? & ?).
      repeat split; try done. lia.
    + repeat constructor; simpl; try done. 
  - intros i c' Hi Hc' Hdelim'.
    destruct (decide (i = k)) as [->|Hne].
    + rewrite deco_at_snoc_new; done.
    + rewrite deco_at_snoc_other by (simpl; lia).
      apply (Hdec i c'); [lia|done|done].
  - intros _. rewrite substring_empty by lia. rewrite app_nil_r.
    rewrite (take_S_r _ _ _ Hc), pieces_of_snoc.
    rewrite length_take, Nat.min_l by lia.
    rewrite deco_at_snoc_new by done. simpl.
    rewrite render_app. f_equal.
    + rewrite Hres by lia. f_equal. apply pieces_of_ext.
      intros i Hi. rewrite length_take in Hi.
      symmetry. apply deco_at_snoc_other. simpl. lia.
    + unfold render. simpl. by rewrite app_nil_r.
Qed.

Lemma Invariant_other k c st :
  Invariant this isDarkMode text k st →
  text !! k = Some c →
  isOpening this c = false → isClosing this c = false →
  Invariant this isDarkMode text (S k) st.
Proof.
  intros [Hd [Hl1 Hl2] Hs He Hdec Hres] Hc Hop Hcl.
  pose proof (lookup_lt_Some _ _ _ Hc) as Hlt.
  split.
  - done.
  - lia.
  - done.
  - eapply Forall_impl; [exact He|]. simpl. intros d (? & ? & ? & ? & ?).
    repeat split; try done. lia.
  - intros i c' Hi Hc' Hdelim'.
    destruct (decide (i = k)) as [->|Hne].
    + rewrite Hc in Hc'. injection Hc' as <-. by rewrite Hop, Hcl in Hdelim'.
    + apply (Hdec i c'); [lia|done|done].
  - intros _. rewrite (substring_snoc _ _ _ c) by done.
    rewrite (take_S_r _ _ _ Hc), pieces_of_snoc.
    rewrite length_take, Nat.min_l by lia.
    rewrite deco_at_None.
    2: { eapply Forall_impl; [exact He|]. simpl. intros d (? & _). lia. }
    rewrite render_app, app_assoc, Hres by lia. done.
Qed.

Lemma Invariant_end k st :
  Invariant this isDarkMode text k st →
  text !! k = None →
  Invariant this isDarkMode text (S k) st.
Proof.
  intros [Hd [Hl1 Hl2] Hs He Hdec Hres] Hc.
  apply lookup_ge_None in Hc.
  split.
  - done.
  - lia.
  - done.
  - eapply Forall_impl; [exact He|]. simpl. intros d (? & ? & ? & ? & ?).
    repeat split; try done. lia.
  - intros i c' Hi Hc' Hdelim'.
    apply lookup_lt_Some in Hc' as Hlt. apply (Hdec i c'); [lia|done|done].
  - intros Hk. lia.
Qed.

Lemma Invariant_Step k st st' :
  Invariant this isDarkMode text k st →
  Step this isDarkMode text k st st' →
  Invariant this isDarkMode text (S k) st'.
Proof.
  intros Hinv Hstep. pose proof Hinv as [Hd _ Hs _ _ _].
  destruct Hstep as [Hc|c Hc Hop Hcl|c base used' Hc Hop Hnext
                    |c base rest Hc Hop Hcl Hstack|c base used' Hc Hop Hcl Hstack Hnext].
  - by apply Invariant_end.
  - by eapply Invariant_other.
  - apply Invariant_decorated; try done.
    + by rewrite Hop.
    + by eapply getNextColor_elem.
    + simpl. by rewrite Hd.
    + constructor; [by eapply getNextColor_elem|done].
  - rewrite Hstack in Hs, Hd. inversion Hs; subst.
    apply Invariant_decorated; try done.
    + by rewrite Hop, Hcl.
    + rewrite Hd. simpl. lia.
  - apply Invariant_decorated; try done.
    + by rewrite Hop, Hcl.
    + by eapply getNextColor_elem.
    + rewrite Hd, Hstack. simpl. lia.
Qed.

Lemma run_Invariant k st :
  run this isDarkMode text k = Some st → Invariant this isDarkMode text k st.
Proof.
  revert k st. apply run_ind.
  - apply Invariant_init.
  - intros k st st' _. apply Invariant_Step.
Qed.

End Invariants.

(** ** The delimiter table of the constructor *)

Section Table.
Import RainbowDelimiters Scan.
Variable colors : list Color.t.

Lemma isOpening_table c :
  isOpening (with_palette colors) c = true ↔
  c = "("%char ∨ c = "["%char ∨ c = "{"%char.
Proof.
  unfold isOpening. rewrite bool_decide_eq_true. simpl.
  rewrite !elem_of_cons, elem_of_nil. tauto.
Qed.

Lemma isClosing_table c :
  isClosing (with_palette colors) c = true ↔
  c = ")"%char ∨ c = "]"%char ∨ c = "}"%char.
Proof.
  unfold isClosing. rewrite bool_decide_eq_true. simpl.
  rewrite !elem_of_cons, elem_of_nil. tauto.
Qed.

Lemma closing_not_opening c :
  isClosing (with_palette colors) c = true →
  isOpening (with_palette colors) c = false.
Proof.
  rewrite isClosing_table. intros [-> | [-> | ->]]; reflexivity.
Qed.

Lemma pair_opening_closing o c :
  (o, c) ∈ delimiter_pairs (with_palette colors) →
  isOpening (with_palette colors) o = true ∧
  isOpening (with_palette colors) c = false ∧
  isClosing (with_palette colors) c = true.
Proof.
  simpl. rewrite !elem_of_cons, elem_of_nil.
  intros [[= -> ->] | [[= -> ->] | [[= -> ->] | [] ]]]; done.
Qed.

End Table.

(** ** Depth and stack *)

Section Depth.
Import RainbowDelimiters Scan.
Variable colors : list Color.t.
Variable isDarkMode : bool.
Variable text : jsstring.
Hypothesis palette_not_empty : colors ≠ [].

Local Abbreviation this := (with_palette colors).

Lemma clamp_pred (d : nat) :
  Z.to_nat (Z.max 0 (Z.of_nat d - 1)) = (d - 1)%nat.
Proof. lia. Qed.

(** C10. Before every iteration of the scan the depth is the number of
    colours on the stack, so the stack is empty exactly when the depth is 0.
    A closing delimiter therefore takes the [getNextColor] fallback exactly
    when the depth is 0, where the clamped decrement leaves depth and stack
    both at 0; at a depth above 0 it pops the stack and the decrement lowers
    the depth by one with it. *)
Theorem depth_is_stack_height (k : nat) :
  ∃ st, run this isDarkMode text k = Some st ∧
    depth st = length (colorStack st) ∧
    (colorStack st = [] ↔ depth st = 0%nat) ∧
    ∀ c, text !! k = Some c → isClosing this c = true →
      ∃ st' d,
        run this isDarkMode text (S k) = Some st' ∧
        emitted st' = emitted st ++ [d] ∧
        depth st' = length (colorStack st') ∧
        ((depth st = 0%nat ∧ colorStack st = [] ∧
          getNextColor this (usedColors st) (depth st)
            = (Some (d_base d), usedColors st') ∧
          depth st' = 0%nat ∧ colorStack st' = [])
         ∨
         ((0 < depth st)%nat ∧
          colorStack st = d_base d :: colorStack st' ∧
          usedColors st' = usedColors st ∧
          depth st' = (depth st - 1)%nat)).
Proof.
  destruct (run_total this isDarkMode text k palette_not_empty) as [st Hst].
  pose proof (run_Invariant _ _ _ _ _ Hst) as Hinv.
  pose proof (inv_depth _ _ _ _ _ Hinv) as Hd.
  exists st. split; [done|]. split; [done|]. split.
  { rewrite Hd. destruct (colorStack st); simpl; split; done. }
  intros c Hc Hcl.
  destruct (run_step _ _ _ _ _ Hst palette_not_empty) as (st' & Hst' & Hstep).
  pose proof (run_Invariant _ _ _ _ _ Hst') as Hinv'.
  pose proof (closing_not_opening colors c Hcl) as Hop.
  destruct Hstep as [Hc'|c' Hc' Hop' Hcl'|c' base used' Hc' Hop' Hnext
                    |c' base rest Hc' Hop' Hcl' Hstack
                    |c' base used' Hc' Hop' Hcl' Hstack Hnext];
    rewrite Hc in Hc'; try done; injection Hc' as <-; try congruence.
  - eexists _, _. split; [exact Hst'|]. split; [reflexivity|].
    split; [apply (inv_depth _ _ _ _ _ Hinv')|]. right. simpl.
    rewrite Hd, Hstack. simpl. repeat split; lia.
  - eexists _, _. split; [exact Hst'|]. split; [reflexivity|].
    split; [apply (inv_depth _ _ _ _ _ Hinv')|]. left. simpl.
    assert (Hd0 : depth st = 0%nat) by (by rewrite Hd, Hstack).
    repeat split; try done. rewrite Hd0. done.
Qed.

(** C7. The depth handed to [adjustColor] for a delimiter is the depth held
    when the character is reached: an opening delimiter is adjusted with the
    depth before the increment, a closing delimiter with the depth before
    the (clamped) decrement. *)
Theorem adjust_uses_current_depth (k : nat) (c : ascii) :
  text !! k = Some c →
  isOpening this c || isClosing this c = true →
  ∃ st st' d,
    run this isDarkMode text k = Some st ∧
    run this isDarkMode text (S k) = Some st' ∧
    emitted st' = emitted st ++ [d] ∧
    d_index d = k ∧ d_char d = c ∧
    d_depth d = depth st ∧
    ColorAdjuster.adjustColor isDarkMode (Some (d_base d)) (depth st)
      = Some (d_adjusted d) ∧
    d_hex d = ColorUtils.hslToHex (Hsl.h (d_adjusted d)) (Hsl.s (d_adjusted d))
                (Hsl.l (d_adjusted d)) ∧
    (isOpening this c = true → depth st' = S (depth st)) ∧
    (isClosing this c = true →
       Z.of_nat (depth st') = Z.max 0 (Z.of_nat (depth st) - 1)).
Proof.
  intros Hc Hdelim.
  destruct (run_total this isDarkMode text k palette_not_empty) as [st Hst].
  destruct (run_step _ _ _ _ _ Hst palette_not_empty) as (st' & Hst' & Hstep).
  exists st, st'.
  destruct Hstep as [Hc'|c' Hc' Hop' Hcl'|c' base used' Hc' Hop' Hnext
                    |c' base rest Hc' Hop' Hcl' Hstack
                    |c' base used' Hc' Hop' Hcl' Hstack Hnext];
    rewrite Hc in Hc'; try done; injection Hc' as <-.
  - by rewrite Hop', Hcl' in Hdelim.
  - eexists. repeat split; try done.
    intros Hcl. by rewrite (closing_not_opening colors c Hcl) in Hop'.
  - eexists. repeat split; try done; simpl; intros; try congruence; lia.
  - eexists. repeat split; try done; simpl; intros; try congruence; lia.
Qed.

End Depth.

(** ** Runs over a stretch of the text *)

Section Stretch.
Import RainbowDelimiters Scan.
Variable colors : list Color.t.
Variable isDarkMode : bool.
Variable text : jsstring.
Hypothesis palette_not_empty : colors ≠ [].

Local Abbreviation this := (with_palette colors).
Local Abbreviation body := (loop_body (with_palette colors) isDarkMode text).

Lemma run_app k n :
  run this isDarkMode text (k + n) =
  run this isDarkMode text k ≫= for_loop body k n.
Proof. unfold run. by rewrite for_loop_app. Qed.

Lemma Step_emitted k st st' :
  Step this isDarkMode text k st st' →
  ∃ more, emitted st' = emitted st ++ more.
Proof.
  destruct 1; simpl; eauto.
  all: exists []; by rewrite app_nil_r.
Qed.

Lemma for_loop_emitted i n st st' :
  for_loop body i n st = Some st' →
  ∃ more, emitted st' = emitted st ++ more.
Proof.
  revert i st. induction n as [|n IH]; intros i st; simpl.
  - intros [= <-]. exists []. by rewrite app_nil_r.
  - destruct (body i st) as [st1|] eqn:Hb; simpl; [|done].
    intros Hrest. apply loop_body_Step, Step_emitted in Hb as [m1 Hm1].
    apply IH in Hrest as [m2 Hm2]. exists (m1 ++ m2).
    by rewrite Hm2, Hm1, app_assoc.
Qed.

Lemma Segment_cons k c w :
  Segment text k (c :: w) → text !! k = Some c ∧ Segment text (S k) w.
Proof.
  intros H. split.
  - specialize (H 0%nat c eq_refl). by rewrite Nat.add_0_r in H.
  - intros j x Hx. specialize (H (S j) x Hx).
    by rewrite Nat.add_succ_r in H.
Qed.

Lemma Segment_app k w1 w2 :
  Segment text k (w1 ++ w2) →
  Segment text k w1 ∧ Segment text (k + length w1) w2.
Proof.
  intros H. split.
  - intros j x Hx. apply H. by apply lookup_app_l_Some.
  - intros j x Hx. rewrite <- Nat.add_assoc. apply H.
    rewrite lookup_app_r by lia.
    by replace (length w1 + j - length w1)%nat with j by lia.
Qed.

Lemma Segment_whole : Segment text 0 text.
Proof. by intros j c Hc. Qed.

Lemma body_other k c st :
  text !! k = Some c →
  isOpening this c = false → isClosing this c = false →
  body k st = Some st.
Proof. intros. apply Step_loop_body. by eapply step_other. Qed.

Lemma body_open k o st :
  text !! k = Some o → isOpening this o = true →
  ∃ base used',
    getNextColor this (usedColors st) (depth st) = (Some base, used') ∧
    body k st =
      Some (decorated isDarkMode text k o base st (S (depth st))
              (base :: colorStack st) used').
Proof.
  intros Ho Hop.
  destruct (getNextColor_some this (usedColors st) (depth st) palette_not_empty)
    as (base & Hb & _).
  destruct (getNextColor this (usedColors st) (depth st)) as [b used'] eqn:Hn.
  simpl in Hb. subst b. exists base, used'. split; [done|].
  apply Step_loop_body. by eapply step_open.
Qed.

Lemma body_close_pop k c st base rest :
  text !! k = Some c → isClosing this c = true →
  colorStack st = base :: rest →
  body k st =
    Some (decorated isDarkMode text k c base st (depth st - 1) rest
            (usedColors st)).
Proof.
  intros Hc Hcl Hstack. apply Step_loop_body.
  rewrite <- clamp_pred.
  eapply step_close_pop; eauto using closing_not_opening.
Qed.


Lemma opening_decorations_app ds ds' :
  opening_decorations this (ds ++ ds') =
  opening_decorations this ds ++ opening_decorations this ds'.
Proof. apply filter_app. Qed.

Lemma closing_decorations_app ds ds' :
  closing_decorations this (ds ++ ds') =
  closing_decorations this ds ++ closing_decorations this ds'.
Proof. apply filter_app. Qed.

Lemma opening_decorations_open d :
  isOpening this (d_char d) = true →
  opening_decorations this [d] = [d] ∧ closing_decorations this [d] = [].
Proof.
  intros H. unfold opening_decorations, closing_decorations.
  rewrite !filter_cons, !filter_nil.
  rewrite decide_True by done. rewrite decide_False; [done|].
  intros [? _]. congruence.
Qed.

Lemma closing_decorations_close d :
  isClosing this (d_char d) = true →
  opening_decorations this [d] = [] ∧ closing_decorations this [d] = [d].
Proof.
  intros H. pose proof (closing_not_opening colors _ H) as Hop.
  unfold opening_decorations, closing_decorations.
  rewrite !filter_cons, !filter_nil.
  rewrite decide_False by congruence. by rewrite decide_True.
Qed.

(** Over a well nested stretch the loop never fails, leaves stack and depth
    as it found them, and emits as many opening as closing decorations. *)
Lemma for_loop_nested w :
  WellNested this w →
  ∀ k st, Segment text k w →
  ∃ st' new,
    for_loop body k (length w) st = Some st' ∧
    colorStack st' = colorStack st ∧
    depth st' = depth st ∧
    emitted st' = emitted st ++ new ∧
    length (opening_decorations this new) =
    length (closing_decorations this new).
Proof.
  induction 1 as [|c w Hop Hcl Hw IH|o c w1 w2 Hpair Hw1 IH1 Hw2 IH2];
    intros k st Hseg.
  - exists st, []. simpl. by rewrite app_nil_r.
  - apply Segment_cons in Hseg as [Hc Hrest].
    destruct (IH (S k) st Hrest) as (st' & new & Hrun & ?).
    exists st', new. split; [|done].
    simpl. by rewrite (body_other k c st Hc Hop Hcl).
  - apply pair_opening_closing in Hpair as (Hoo & Hco & Hcc).
    apply Segment_cons in Hseg as [Ho Hseg].
    apply Segment_app in Hseg as [Hseg1 Hseg].
    apply Segment_cons in Hseg as [Hc Hseg2].
    destruct (body_open k o st Ho Hoo) as (base & used1 & Hnext & Hb1).
    set (st1 := decorated isDarkMode text k o base st (S (depth st))
                  (base :: colorStack st) used1) in *.
    destruct (IH1 (S k) st1 Hseg1) as (st2 & new1 & Hrun1 & Hs2 & Hd2 & He2 & Hn1).
    pose proof (body_close_pop (S (k + length w1)) c st2 base (colorStack st)
                  Hc Hcc Hs2) as Hb3.
    set (st3 := decorated isDarkMode text (S (k + length w1)) c base st2
                  (depth st2 - 1) (colorStack st) (usedColors st2)) in *.
    destruct (IH2 (S (S (k + length w1))) st3 Hseg2)
      as (st4 & new2 & Hrun2 & Hs4 & Hd4 & He4 & Hn2).
    exists st4,
      ([decoration isDarkMode k o base (depth st)] ++ new1 ++
       [decoration isDarkMode (S (k + length w1)) c base (depth st2)] ++ new2).
    split; [|split; [|split; [|split]]].
    + change (length (o :: w1 ++ c :: w2)) with (S (length (w1 ++ c :: w2))).
      rewrite length_app. simpl length.
      cbn [for_loop]. rewrite Hb1. simpl.
      rewrite for_loop_app, Hrun1. simpl. rewrite Hb3. simpl. exact Hrun2.
    + by rewrite Hs4.
    + rewrite Hd4. subst st3. simpl. rewrite Hd2. subst st1. simpl. lia.
    + rewrite He4. subst st3. simpl. rewrite He2. subst st1. simpl.
      by rewrite <- !app_assoc.
    + rewrite !opening_decorations_app, !closing_decorations_app, !length_app.
      destruct (opening_decorations_open
                  (decoration isDarkMode k o base (depth st)) Hoo) as [-> ->].
      destruct (closing_decorations_close
                  (decoration isDarkMode (S (k + length w1)) c base (depth st2)) Hcc)
        as [-> ->].
      simpl. lia.
Qed.

End Stretch.

(** ** Balanced text and stray closing delimiters *)

Section Nesting.
Import RainbowDelimiters Scan.
Variable colors : list Color.t.
Variable isDarkMode : bool.
Hypothesis palette_not_empty : colors ≠ [].

Local Abbreviation this := (with_palette colors).


(** C5. On balanced, correctly nested text the scan ends at depth 0, and it
    has emitted as many decorations for opening delimiters as for closing
    delimiters. *)
Theorem balanced_returns_to_zero (text : jsstring) :
  WellNested this text →
  ∃ st, scan this isDarkMode text = Some st ∧
        depth st = 0%nat ∧
        length (opening_decorations this (emitted st)) =
        length (closing_decorations this (emitted st)).
Proof.
  intros Hw.
  destruct (for_loop_nested colors isDarkMode text palette_not_empty text Hw
              0%nat init (Segment_whole text))
    as (st & new & Hrun & _ & Hd & He & Hn).
  exists st. split; [exact Hrun|]. split; [exact Hd|].
  rewrite He. simpl. exact Hn.
Qed.



End Nesting.

(** ** Matched pairs *)

Section MatchedPair.
Import RainbowDelimiters Scan.
Variable colors : list Color.t.
Variable isDarkMode : bool.
Hypothesis palette_not_empty : colors ≠ [].

Local Abbreviation this := (with_palette colors).

Lemma Segment_middle (pre w post : jsstring) :
  Segment (pre ++ w ++ post) (length pre) w.
Proof.
  intros j c Hc. rewrite lookup_app_r by lia.
  replace (length pre + j - length pre)%nat with j by lia.
  by apply lookup_app_l_Some.
Qed.

(** A matched pair: the closing delimiter pops the base colour its opening
    delimiter pushed, and is adjusted one level deeper than the opening
    delimiter was. *)
Lemma matched_pair (pre inner post : jsstring) (o c : ascii) :
  (o, c) ∈ delimiter_pairs this →
  WellNested this inner →
  ∃ st st1 st2 dO dC,
    scan this isDarkMode (pre ++ o :: inner ++ c :: post) = Some st ∧
    run this isDarkMode (pre ++ o :: inner ++ c :: post) (S (length pre))
      = Some st1 ∧
    run this isDarkMode (pre ++ o :: inner ++ c :: post)
      (S (length pre + length inner)) = Some st2 ∧
    deco_at (emitted st) (length pre) = Some dO ∧
    deco_at (emitted st) (S (length pre + length inner)) = Some dC ∧
    d_char dO = o ∧ d_char dC = c ∧
    d_base dO ∈ colors ∧
    head (colorStack st1) = Some (d_base dO) ∧
    colorStack st2 = colorStack st1 ∧
    d_base dC = d_base dO ∧
    depth st1 = S (d_depth dO) ∧
    d_depth dC = S (d_depth dO) ∧
    ¬ (Hsl.l (d_adjusted dC) == Hsl.l (d_adjusted dO))%Q.
Proof.
  intros Hpair Hinner.
  set (text := pre ++ o :: inner ++ c :: post).
  set (i := length pre).
  assert (Hseg : Segment text i (o :: inner ++ [c])).
  { subst text i.
    replace (pre ++ o :: inner ++ c :: post)
      with (pre ++ (o :: inner ++ [c]) ++ post).
    - apply Segment_middle.
    - simpl. by rewrite <- app_assoc. }
  apply pair_opening_closing in Hpair as (Hoo & Hco & Hcc).
  apply Segment_cons in Hseg as [Ho Hseg].
  apply Segment_app in Hseg as [Hseg1 Hseg].
  apply Segment_cons in Hseg as [Hc _].
  change (S i + length inner)%nat with (S (i + length inner)) in Hc.
  destruct (run_total this isDarkMode text i palette_not_empty) as [st0 Hst0].
  pose proof (run_Invariant _ _ _ _ _ Hst0) as Hinv0.
  destruct (body_open colors isDarkMode text palette_not_empty i o st0 Ho Hoo)
    as (base & used1 & Hnext & Hb1).
  set (st1 := decorated isDarkMode text i o base st0 (S (depth st0))
                (base :: colorStack st0) used1) in *.
  assert (Hst1 : run this isDarkMode text (S i) = Some st1).
  { by rewrite run_S, Hst0. }
  destruct (for_loop_nested colors isDarkMode text palette_not_empty inner Hinner
              (S i) st1 Hseg1) as (st2 & new1 & Hrun1 & Hs2 & Hd2 & He2 & _).
  assert (Hst2 : run this isDarkMode text (S (i + length inner)) = Some st2).
  { change (S (i + length inner)) with (S i + length inner)%nat.
    by rewrite run_app, Hst1. }
  pose proof (run_Invariant _ _ _ _ _ Hst2) as Hinv2.
  pose proof (body_close_pop colors isDarkMode text (S (i + length inner)) c st2
                base (colorStack st0) Hc Hcc Hs2) as Hb3.
  set (st3 := decorated isDarkMode text (S (i + length inner)) c base st2
                (depth st2 - 1) (colorStack st0) (usedColors st2)) in *.
  assert (Hst3 : run this isDarkMode text (S (S (i + length inner))) = Some st3).
  { by rewrite run_S, Hst2. }
  destruct (run_total this isDarkMode text (length text) palette_not_empty)
    as [st Hst].
  assert (Hlen : length text = (S (S (i + length inner)) + length post)%nat).
  { subst text i. rewrite !length_app. simpl. rewrite length_app. simpl. lia. }
  pose proof Hst as Hst'. rewrite Hlen, run_app, Hst3 in Hst'. simpl in Hst'.
  apply for_loop_emitted in Hst' as [more Hmore].
  exists st, st1, st2, (decoration isDarkMode i o base (depth st0)),
    (decoration isDarkMode (S (i + length inner)) c base (depth st2)).
  split; [exact Hst|]. split; [exact Hst1|]. split; [exact Hst2|].
  assert (Hidx0 : Forall (λ x, (d_index x < i)%nat) (emitted st0)).
  { eapply Forall_impl; [exact (inv_emitted _ _ _ _ _ Hinv0)|]. simpl. tauto. }
  assert (Hidx2 : Forall (λ x, (d_index x < S (i + length inner))%nat) (emitted st2)).
  { eapply Forall_impl; [exact (inv_emitted _ _ _ _ _ Hinv2)|]. simpl. tauto. }
  split.
  { rewrite Hmore. subst st3. simpl. rewrite He2. subst st1. simpl.
    rewrite <- !app_assoc. rewrite app_assoc.
    apply deco_at_app_l. by apply deco_at_snoc_new. }
  split.
  { rewrite Hmore. subst st3. simpl.
    apply deco_at_app_l. by apply deco_at_snoc_new. }
  assert (Hd2' : depth st2 = S (depth st0)) by (by rewrite Hd2).
  split; [done|]. split; [done|].
  split; [exact (getNextColor_elem this _ _ _ _ Hnext)|].
  split; [done|]. split; [done|]. split; [done|]. split; [done|].
  split; [exact Hd2'|].
  cbn [decoration d_adjusted]. rewrite Hd2'.
  destruct (adjustColor_next_depth isDarkMode base (depth st0))
    as (a & a' & Ha & Ha' & Hne).
  unfold adjusted. by rewrite Ha, Ha'.
Qed.

End MatchedPair.

(** ** Stripping the markup *)

Section Strip.
Import RainbowDelimiters Scan.
Variable colors : list Color.t.

Local Abbreviation this := (with_palette colors).

Lemma strip_prefix_app p l : strip_prefix p (p ++ l) = Some l.
Proof.
  induction p as [|a p IH]; [done|].
  cbn [app strip_prefix]. by rewrite bool_decide_eq_true_2.
Qed.

Lemma until_quote_app hex l :
  dquote ∉ hex → until_quote (hex ++ dquote :: l) = Some (length hex, l).
Proof.
  induction hex as [|a hex IH]; intros Hq; cbn [app until_quote].
  - by rewrite bool_decide_eq_true_2.
  - apply not_elem_of_cons in Hq as [Ha Hq].
    rewrite bool_decide_eq_false_2 by done. by rewrite IH.
Qed.

Lemma span_length hex c :
  length (span hex c) = (length span_open + length hex + 3 + length span_close)%nat.
Proof. unfold span. rewrite !length_app. simpl. lia. Qed.

Lemma match_span_span hex c l :
  dquote ∉ hex → isOpening this c || isClosing this c = true →
  match_span this (span hex c ++ l) = Some (c, length (span hex c)).
Proof.
  intros Hq Hc. unfold match_span, span.
  rewrite <- !app_assoc. rewrite strip_prefix_app. cbn [mbind option_bind app].
  rewrite until_quote_app by done. cbn [mbind option_bind app].
  rewrite bool_decide_eq_true_2 by done. rewrite Hc. cbn [andb].
  rewrite strip_prefix_app. cbn [mbind option_bind]. do 2 f_equal.
  rewrite !length_app. simpl. lia.
Qed.

Lemma strip_from_skip p l :
  strip_from this (length p) (p ++ l) = strip_from this 0 l.
Proof. induction p as [|a p IH]; simpl; done. Qed.

Lemma strip_span hex c l :
  dquote ∉ hex → isOpening this c || isClosing this c = true →
  strip_from this 0 (span hex c ++ l) = c :: strip_from this 0 l.
Proof.
  intros Hq Hc. pose proof (match_span_span hex c l Hq Hc) as Hm.
  destruct (span hex c) as [|a sp] eqn:Hsp; [done|].
  simpl. simpl in Hm. rewrite Hm. simpl. rewrite Nat.sub_0_r.
  by rewrite strip_from_skip.
Qed.

(** The character [<] is no delimiter, so no rendering of pieces starts with
    [>] and a delimiter. *)
Lemma render_gt ps c l :
  Forall (piece_ok this) ps → render ps = ">"%char :: c :: l →
  isOpening this c || isClosing this c = false.
Proof.
  intros Hok Heq. destruct Hok as [|[a|hex w] ps Hp Hok]; [done| |done].
  injection Heq as -> Heq.
  destruct Hok as [|[b|hex w] ps Hb Hok]; [done| |].
  - injection Heq as -> _. exact Hb.
  - injection Heq as <- _. reflexivity.
Qed.

(** In a rendering of pieces the first double quote is never followed by
    [>] and a delimiter: it is a plain character, or the quote that opens
    the style attribute of a span. *)
Lemma until_quote_render ps n c l :
  Forall (piece_ok this) ps →
  until_quote (render ps) = Some (n, ">"%char :: c :: l) →
  isOpening this c || isClosing this c = false.
Proof.
  intros Hok. revert n. induction Hok as [|[a|hex w] ps Hp Hok IH]; intros n.
  - done.
  - change (render (Plain a :: ps)) with (a :: render ps).
    cbn [until_quote]. case_bool_decide.
    + intros [= _ Heq]. by eapply render_gt.
    + destruct (until_quote (render ps)) as [[n' r]|] eqn:Hq; [|done].
      simpl. intros [= _ ->]. by eapply IH.
  - change (render (Wrapped hex w :: ps)) with (span hex w ++ render ps).
    unfold span, span_open. simpl. intros [= _ ?].
Qed.

(** The text that follows a prefix without [<] in a rendering of pieces is
    again a rendering of pieces: the prefix is made of plain characters. *)
Lemma strip_prefix_render p ps l :
  "<"%char ∉ p → Forall (piece_ok this) ps →
  strip_prefix p (render ps) = Some l →
  ∃ ps', l = render ps' ∧ Forall (piece_ok this) ps'.
Proof.
  revert ps. induction p as [|x p IH]; intros ps Hp Hok.
  - intros [= <-]. by exists ps.
  - apply not_elem_of_cons in Hp as [Hx Hp].
    destruct Hok as [|[a|hex w] ps Ha Hok]; [done| |].
    + change (render (Plain a :: ps)) with (a :: render ps).
      cbn [strip_prefix]. case_bool_decide; [|done]. by apply IH.
    + change (render (Wrapped hex w :: ps)) with (span hex w ++ render ps).
      unfold span, span_open. simpl.
      rewrite bool_decide_eq_false_2; [done|]. congruence.
Qed.

Lemma span_open_eq :
  span_open = "<"%char :: str "span style=" ++ [dquote] ++ str "color: ".
Proof. reflexivity. Qed.

(** No colour markup starts at a plain character of a rendering. *)
Lemma match_span_plain a ps :
  Forall (piece_ok this) ps → match_span this (a :: render ps) = None.
Proof.
  intros Hok. unfold match_span.
  destruct (strip_prefix span_open (a :: render ps)) as [l1|] eqn:Hpre;
    [|done].
  rewrite span_open_eq in Hpre. cbn [strip_prefix] in Hpre.
  case_bool_decide; [|done].
  apply strip_prefix_render in Hpre as (ps' & -> & Hok'); [| |done].
  2: { apply (bool_decide_unpack _). by vm_compute. }
  simpl. destruct (until_quote (render ps')) as [[n l2]|] eqn:Hq; [|done].
  simpl. destruct l2 as [|gt [|c l3]]; [done|done|].
  case_bool_decide; [|done]. subst gt.
  by rewrite (until_quote_render _ _ _ _ Hok' Hq).
Qed.

Lemma strip_plain a ps :
  Forall (piece_ok this) ps →
  strip_from this 0 (a :: render ps) = a :: strip_from this 0 (render ps).
Proof.
  intros Hok. pose proof (match_span_plain a ps Hok) as Hm.
  cbn [strip_from]. by rewrite Hm.
Qed.

(** Stripping the rendering of pieces gives their characters. *)
Lemma strip_render ps :
  Forall (piece_ok this) ps →
  strip_from this 0 (render ps) = piece_char <$> ps.
Proof.
  induction 1 as [|p ps Hp Hok IH]; [done|].
  change (render (p :: ps)) with (render_piece p ++ render ps).
  change (piece_char <$> p :: ps) with (piece_char p :: (piece_char <$> ps)).
  destruct p as [c|hex c]; cbn [render_piece piece_char piece_ok app] in *.
  - rewrite strip_plain by done. by rewrite IH.
  - destruct Hp as [Hq Hc]. rewrite strip_span by done. by rewrite IH.
Qed.

Lemma hex_digit_not_quote d : JsNum.hex_digit d ≠ dquote.
Proof.
  unfold JsNum.hex_digit.
  destruct (nth_in_or_default (N.to_nat d)
              (list_ascii_of_string "0123456789abcdef") "0"%char) as [Hin| ->];
    [|done].
  intros Heq. rewrite Heq in Hin. simpl in Hin.
  repeat (destruct Hin as [Hin|Hin]; [discriminate Hin|]). done.
Qed.

Lemma hex_digits_no_quote fuel n acc :
  dquote ∉ acc → dquote ∉ JsNum.hex_digits fuel n acc.
Proof.
  revert n acc. induction fuel as [|fuel IH]; intros n acc Hacc; simpl; [done|].
  assert (dquote ∉ JsNum.hex_digit (n mod 16) :: acc).
  { apply not_elem_of_cons. split; [|done].
    intros Heq. by apply (hex_digit_not_quote (n mod 16)). }
  destruct (n / 16 =? 0)%N; [done|]. by apply IH.
Qed.

Lemma toString16_no_quote n : dquote ∉ JsNum.toString16 n.
Proof.
  unfold JsNum.toString16.
  pose proof (hex_digits_no_quote (S (N.to_nat (N.log2 (Z.abs_N n))))
                (Z.abs_N n) [] (not_elem_of_nil _)) as H.
  destruct (n <? 0)%Z; [|done].
  apply not_elem_of_cons. split; done.
Qed.

Lemma padStart_no_quote n s : dquote ∉ s → dquote ∉ padStart n "0" s.
Proof.
  intros Hs. unfold padStart. rewrite elem_of_app. intros [H|H]; [|done].
  by apply elem_of_replicate in H as [[=] _].
Qed.

Lemma hslToHex_no_quote h s l : dquote ∉ ColorUtils.hslToHex h s l.
Proof.
  unfold ColorUtils.hslToHex, ColorUtils.toHex.
  apply not_elem_of_cons. split; [done|].
  rewrite !elem_of_app.
  intros [H|[H|H]]; revert H; apply padStart_no_quote, toString16_no_quote.
Qed.

End Strip.

(** ** The output text *)

Section Output.
Import RainbowDelimiters Scan.
Variable this : RainbowDelimiters.t.
Variable isDarkMode : bool.
Variable text : jsstring.
Variable st : ScanState.
Hypothesis scanned : scan this isDarkMode text = Some st.

Lemma scan_Invariant : Invariant this isDarkMode text (length text) st.
Proof. by apply run_Invariant. Qed.

Lemma processText_render :
  processText this isDarkMode text =
  Some (render (pieces_of (emitted st) text)).
Proof.
  unfold processText. rewrite scanned. simpl.
  rewrite (inv_result _ _ _ _ _ scan_Invariant) by lia.
  by rewrite firstn_all.
Qed.

Lemma pieces_of_chars ds : piece_char <$> pieces_of ds text = text.
Proof.
  unfold pieces_of, pieces_from. apply list_eq. intros i.
  rewrite list_lookup_fmap, list_lookup_imap.
  destruct (text !! i) as [c|]; simpl; [|done].
  by destruct (deco_at ds i).
Qed.

Lemma pieces_of_delimiter i c :
  text !! i = Some c →
  isOpening this c || isClosing this c = true →
  ∃ d, deco_at (emitted st) i = Some d ∧ d ∈ emitted st ∧
       pieces_of (emitted st) text !! i = Some (Wrapped (d_hex d) c).
Proof.
  intros Hc Hdelim. pose proof (lookup_lt_Some _ _ _ Hc) as Hlt.
  destruct (inv_decorated _ _ _ _ _ scan_Invariant i c Hlt Hc Hdelim) as [d Hd].
  exists d. split; [done|]. split; [by apply deco_at_index in Hd as [_ ?]|].
  unfold pieces_of, pieces_from. rewrite list_lookup_imap, Hc. simpl.
  by rewrite Hd.
Qed.

Lemma pieces_of_other i c :
  text !! i = Some c →
  isOpening this c || isClosing this c = false →
  deco_at (emitted st) i = None ∧
  pieces_of (emitted st) text !! i = Some (Plain c).
Proof.
  intros Hc Hdelim.
  assert (Hnone : deco_at (emitted st) i = None).
  { destruct (deco_at (emitted st) i) as [d|] eqn:Hd; [|done].
    apply deco_at_index in Hd as [Hi Hin].
    pose proof (proj1 (Forall_forall _ _)
                  (inv_emitted _ _ _ _ _ scan_Invariant) d Hin)
      as (_ & Hchar & Hdel & _).
    rewrite Hi, Hc in Hchar. injection Hchar as ->. congruence. }
  split; [done|].
  unfold pieces_of, pieces_from. rewrite list_lookup_imap, Hc. simpl.
  by rewrite Hnone.
Qed.

Lemma pieces_of_ok : Forall (piece_ok this) (pieces_of (emitted st) text).
Proof.
  apply Forall_lookup. intros i p Hp.
  assert (is_Some (text !! i)) as [c Hc].
  { apply lookup_lt_is_Some. apply lookup_lt_Some in Hp.
    unfold pieces_of, pieces_from in Hp. by rewrite length_imap in Hp. }
  destruct (isOpening this c || isClosing this c) eqn:Hdelim.
  - destruct (pieces_of_delimiter i c Hc Hdelim) as (d & _ & Hin & Hpi).
    rewrite Hpi in Hp. injection Hp as <-. simpl. split; [|done].
    pose proof (proj1 (Forall_forall _ _)
                  (inv_emitted _ _ _ _ _ scan_Invariant) d Hin)
      as (_ & _ & _ & _ & Hd).
    rewrite Hd. simpl. apply hslToHex_no_quote.
  - destruct (pieces_of_other i c Hc Hdelim) as [_ Hpi].
    rewrite Hpi in Hp. by injection Hp as <-.
Qed.

Lemma render_plain (l : jsstring) : render (Plain <$> l) = l.
Proof.
  induction l as [|c l IH]; [done|].
  change (render (Plain <$> c :: l)) with (c :: render (Plain <$> l)).
  by rewrite IH.
Qed.

Lemma pieces_of_no_delimiter :
  Forall (λ c, isOpening this c || isClosing this c = false) text →
  pieces_of (emitted st) text = Plain <$> text.
Proof.
  intros Hall. apply list_eq. intros i. rewrite list_lookup_fmap.
  destruct (text !! i) as [c|] eqn:Hc; simpl.
  - apply pieces_of_other; [done|].
    by apply (proj1 (Forall_lookup _ _) Hall i c).
  - apply lookup_ge_None. apply lookup_ge_None in Hc.
    unfold pieces_of, pieces_from. by rewrite length_imap.
Qed.

End Output.

(** ** The claims about the output text and about matched pairs *)

Section OutputClaims.
Import RainbowDelimiters Scan.
Variable colors : list Color.t.
Variable isDarkMode : bool.
Hypothesis palette_not_empty : colors ≠ [].

Local Abbreviation this := (with_palette colors).

(** C1.  For every text and theme [processText] returns the characters of
    the text in order, each delimiter wrapped in one span and every other
    character as it is, so the pieces of the output read back as the text.
    Stripping the colour markup, the span annotations around delimiters,
    from the output text gives the text back, whatever the text holds.  A
    text without delimiters, the empty text included, is returned
    unchanged. *)
Theorem stripping_recovers_text (text : jsstring) :
  ∃ st out,
    scan this isDarkMode text = Some st ∧
    processText this isDarkMode text = Some out ∧
    out = render (pieces_of (emitted st) text) ∧
    piece_char <$> pieces_of (emitted st) text = text ∧
    (∀ i c, text !! i = Some c →
       if isOpening this c || isClosing this c
       then ∃ d, deco_at (emitted st) i = Some d ∧
                 pieces_of (emitted st) text !! i = Some (Wrapped (d_hex d) c)
       else pieces_of (emitted st) text !! i = Some (Plain c)) ∧
    strip_markup this out = text ∧
    (Forall (λ c, isOpening this c || isClosing this c = false) text →
       out = text).
Proof.
  destruct (run_total this isDarkMode text (length text) palette_not_empty)
    as [st Hst].
  exists st, (render (pieces_of (emitted st) text)).
  split; [exact Hst|]. split; [by apply processText_render|].
  split; [done|]. split; [apply pieces_of_chars|]. split; [|split].
  - intros i c Hc.
    destruct (isOpening this c || isClosing this c) eqn:Hdelim.
    + destruct (pieces_of_delimiter this isDarkMode text st Hst i c Hc Hdelim)
        as (d & Hd & _ & Hp).
      by exists d.
    + by destruct (pieces_of_other this isDarkMode text st Hst i c Hc Hdelim).
  - unfold strip_markup.
    rewrite (strip_render colors _ (pieces_of_ok this isDarkMode text st Hst)).
    apply pieces_of_chars.
  - intros Hall.
    rewrite (pieces_of_no_delimiter this isDarkMode text st Hst Hall).
    apply render_plain.
Qed.

End OutputClaims.

Section Examples.
Import RainbowDelimiters Scan.

Local Abbreviation default_palette :=
  (ColorPaletteGenerator.generateBaseColors
     ColorPaletteGenerator.default_count).

Lemma default_palette_not_empty : default_palette ≠ [].
Proof. vm_compute. discriminate. Qed.

(** C3, as amended.  In a properly matched pair the closing delimiter gets
    the base colour that was pushed for its opening delimiter, a colour of
    the palette; it is adjusted at the depth current when it is reached,
    which is one more than the depth its opening delimiter was adjusted at,
    so the two differ in lightness.
    For [(x)] in the light theme: [(] at index 0 is wrapped with palette
    entry 0 adjusted for depth 0, [)] at index 2 with the same base colour
    popped from the stack and adjusted for depth 1, and [x] is not
    wrapped.  The two colour texts are the same in binary64. *)
Theorem closer_takes_opener_base :
  (∀ (colors : list Color.t) (isDarkMode : bool) (pre inner post : jsstring)
     (o c : ascii),
     colors ≠ [] →
     (o, c) ∈ delimiter_pairs (with_palette colors) →
     WellNested (with_palette colors) inner →
     ∃ st st1 st2 dO dC,
       scan (with_palette colors) isDarkMode (pre ++ o :: inner ++ c :: post)
         = Some st ∧
       run (with_palette colors) isDarkMode (pre ++ o :: inner ++ c :: post)
         (S (length pre)) = Some st1 ∧
       run (with_palette colors) isDarkMode (pre ++ o :: inner ++ c :: post)
         (S (length pre + length inner)) = Some st2 ∧
       deco_at (emitted st) (length pre) = Some dO ∧
       deco_at (emitted st) (S (length pre + length inner)) = Some dC ∧
       d_char dO = o ∧ d_char dC = c ∧
       d_base dO ∈ colors ∧
       head (colorStack st1) = Some (d_base dO) ∧
       colorStack st2 = colorStack st1 ∧
       d_base dC = d_base dO ∧
       depth st1 = S (d_depth dO) ∧
       d_depth dC = S (d_depth dO) ∧
       ¬ (Hsl.l (d_adjusted dC) == Hsl.l (d_adjusted dO))%Q) ∧
  (∃ st dO dC,
     scan new false (str "(x)") = Some st ∧
     processText new false (str "(x)") =
       Some (span (str "#981b1b") "(" ++ str "x" ++ span (str "#ad1f1f") ")") ∧
     emitted st = [dO; dC] ∧
     d_index dO = 0%nat ∧ d_char dO = "("%char ∧
     d_base dO = nth_color 32 0 ∧ d_depth dO = 0%nat ∧
     ColorAdjuster.adjustColor false (Some (d_base dO)) 0 = Some (d_adjusted dO) ∧
     d_hex dO = str "#981b1b" ∧
     d_index dC = 2%nat ∧ d_char dC = ")"%char ∧
     d_base dC = d_base dO ∧ d_depth dC = 1%nat ∧
     ColorAdjuster.adjustColor false (Some (d_base dC)) 1 = Some (d_adjusted dC) ∧
     d_hex dC = str "#ad1f1f" ∧
     deco_at (emitted st) 1 = None ∧
     Binary64.hexColor 32 false 0 0 = Some (d_hex dO) ∧
     Binary64.hexColor 32 false 0 1 = Some (d_hex dC)).
Proof.
  split.
  - intros colors isDarkMode pre inner post o c Hne Hpair Hinner.
    by apply matched_pair.
  - eexists _, _, _.
    split; [vm_compute; reflexivity|].
    split; [vm_compute; reflexivity|].
    split; [vm_compute; reflexivity|].
    repeat split; vm_compute; reflexivity.
Qed.

Lemma closer_takes_opener_base_witness :
  ∃ st dO dC,
    scan new false (str "(x)") = Some st ∧
    deco_at (emitted st) 0 = Some dO ∧
    deco_at (emitted st) 2 = Some dC ∧
    d_base dC = d_base dO ∧ d_depth dC = S (d_depth dO).
Proof.
  destruct (proj1 closer_takes_opener_base default_palette false
              [] (str "x") [] "("%char ")"%char)
    as (st & _ & _ & dO & dC & Hst & _ & _ & HO & HC & _ & _ & _ & _ & _ & Hb & _
        & Hd & _).
  - exact default_palette_not_empty.
  - vm_compute. apply list_elem_of_here.
  - apply wn_other; [reflexivity|reflexivity|apply wn_nil].
  - exists st, dO, dC. repeat split; assumption.
Defined.

(** C3 as the specification has it fails: the closing delimiter of [(x)] is
    not coloured at depth 0. *)
Lemma closer_at_depth_0_counterexample :
  ¬ ∃ st dO dC,
      scan new false (str "(x)") = Some st ∧
      deco_at (emitted st) 0 = Some dO ∧
      deco_at (emitted st) 2 = Some dC ∧
      d_base dC = d_base dO ∧
      d_depth dO = 0%nat ∧ d_depth dC = 0%nat.
Proof.
  intros (st & dO & dC & Hst & _ & HC & _ & _ & Hd).
  vm_compute in Hst. injection Hst as <-.
  vm_compute in HC. injection HC as <-.
  discriminate Hd.
Qed.

(** C1 as the specification has it fails: a text that already holds a span
    annotation comes back unchanged, and stripping removes the
    annotation. *)
(** Span annotations that are part of the text are no colour markup and
    stay: a span around a character that is no delimiter is returned and
    stripped unchanged, and in a span around a delimiter only the inner
    span, which the scan added, is stripped. *)
Lemma stripping_keeps_spans_of_the_text :
  processText new false (span (str "#000000") "x")
    = Some (span (str "#000000") "x") ∧
  strip_markup new (span (str "#000000") "x") = span (str "#000000") "x" ∧
  ∃ out,
    processText new false (span (str "#000000") "(") = Some out ∧
    out ≠ span (str "#000000") "(" ∧
    strip_markup new out = span (str "#000000") "(".
Proof.
  split; [vm_compute; reflexivity|]. split; [vm_compute; reflexivity|].
  eexists. split; [vm_compute; reflexivity|].
  split; [vm_compute; discriminate|vm_compute; reflexivity].
Qed.

Lemma stripping_recovers_text_witness :
  ∃ out,
    processText new true (str "(f [x] {y})") = Some out ∧
    strip_markup new out = str "(f [x] {y})".
Proof.
  destruct (stripping_recovers_text default_palette true) with
    (text := str "(f [x] {y})") as (st & out & _ & Hout & _ & _ & _ & Hstrip & _).
  - exact default_palette_not_empty.
  - exists out. split; [exact Hout|exact Hstrip].
Defined.

End Examples.

(** ** The claims at concrete inputs *)

Section Witnesses.
Import RainbowDelimiters Scan.

Local Abbreviation default_palette :=
  (ColorPaletteGenerator.generateBaseColors
     ColorPaletteGenerator.default_count).


Lemma example_well_nested : WellNested new (str "(a[b]{c})").
Proof.
  apply (wn_pair new "(" ")" (str "a[b]{c}") []);
    [vm_compute; apply list_elem_of_here| |apply wn_nil].
  apply wn_other; [reflexivity|reflexivity|].
  apply (wn_pair new "[" "]" (str "b") (str "{c}")).
  - vm_compute. apply list_elem_of_further, list_elem_of_here.
  - apply wn_other; [reflexivity|reflexivity|apply wn_nil].
  - apply (wn_pair new "{" "}" (str "c") []);
      [|apply wn_other; [reflexivity|reflexivity|apply wn_nil]|apply wn_nil].
    vm_compute. do 2 apply list_elem_of_further. apply list_elem_of_here.
Qed.

Lemma depth_is_stack_height_witness :
  default_palette ≠ [] ∧
  ∃ st, run new false (str "(x))") 3 = Some st ∧
        depth st = length (colorStack st).
Proof.
  split; [exact default_palette_not_empty|].
  destruct (depth_is_stack_height default_palette false (str "(x))")
              default_palette_not_empty 3) as (st & Hst & Hd & _).
  exists st. split; [exact Hst|exact Hd].
Defined.

Lemma adjust_uses_current_depth_witness :
  default_palette ≠ [] ∧
  ∃ st d,
    run new false (str "(x)") 2 = Some st ∧
    d_index d = 2%nat ∧ d_depth d = depth st.
Proof.
  split; [exact default_palette_not_empty|].
  destruct (adjust_uses_current_depth default_palette false (str "(x)")
              default_palette_not_empty 2 ")"%char)
    as (st & st' & d & Hst & _ & _ & Hi & _ & Hd & _).
  - reflexivity.
  - reflexivity.
  - exists st, d. split; [exact Hst|]. split; [exact Hi|exact Hd].
Defined.

Lemma balanced_returns_to_zero_witness :
  default_palette ≠ [] ∧ WellNested new (str "(a[b]{c})") ∧
  ∃ st, scan new true (str "(a[b]{c})") = Some st ∧ depth st = 0%nat.
Proof.
  split; [exact default_palette_not_empty|]. split; [exact example_well_nested|].
  destruct (balanced_returns_to_zero default_palette true
              default_palette_not_empty (str "(a[b]{c})") example_well_nested)
    as (st & Hst & Hd & _).
  exists st. split; [exact Hst|exact Hd].
Defined.


End Witnesses.

(** ** Binary64 against exact arithmetic *)

Section DoubleRounding.
Import RainbowDelimiters Scan.

Lemma forallb_below (P : nat → bool) (n : nat) :
  forallb P (seq 0 n) = true → ∀ i, (i < n)%nat → P i = true.
Proof.
  intros H i Hi. rewrite forallb_forall in H. apply H, in_seq. lia.
Qed.

Lemma binary64_check : forallb (Binary64.check_depths 32 12) (seq 0 32) = true.
Proof. vm_compute. reflexivity. Qed.

Lemma binary64_checked (isDarkMode : bool) (i depth : nat) :
  (i < 32)%nat → (depth < 12)%nat →
  Binary64.agrees 32 isDarkMode i depth = true ∧
  Binary64.wellFormed 32 isDarkMode i depth = true.
Proof.
  intros Hi Hd.
  pose proof (forallb_below _ _ binary64_check i Hi) as Hrow.
  pose proof (forallb_below _ _ Hrow depth Hd) as Hall.
  unfold Binary64.check in Hall.
  rewrite !andb_true_iff in Hall. destruct Hall as [[[Hf Ht] Hwf] Hwt].
  destruct isDarkMode; [exact (conj Ht Hwt)|exact (conj Hf Hwf)].
Qed.

(** X18. For every entry of the default palette, both themes and every
    depth up to 11, the colour text computed in binary64 is the one computed
    in exact arithmetic, two cases apart. *)
Lemma binary64_agrees (isDarkMode : bool) (i depth : nat) :
  (i < 32)%nat → (depth < 12)%nat →
  (isDarkMode, i, depth) ∉ Binary64.rounding_differs →
  Binary64.hexColor 32 isDarkMode i depth =
  Some (hexColor isDarkMode (nth_color 32 i) depth).
Proof.
  intros Hi Hd Hnot.
  destruct (binary64_checked isDarkMode i depth Hi Hd) as [Hag _].
  unfold Binary64.agrees in Hag. apply orb_true_iff in Hag as [Hin|Heq].
  - by apply bool_decide_eq_true in Hin.
  - by apply bool_decide_eq_true in Heq.
Qed.

(** In the two cases a channel is exactly 127.5 in exact arithmetic and
    just below it in binary64. *)
Lemma binary64_differs :
  Binary64.hexColor 32 true 1 10 = Some (str "#c27f70") ∧
  hexColor true (nth_color 32 1) 10 = str "#c28070" ∧
  Binary64.hexColor 32 true 31 10 = Some (str "#c2707f") ∧
  hexColor true (nth_color 32 31) 10 = str "#c27080".
Proof. repeat split; vm_compute; reflexivity. Qed.

(** In binary64 as well the colour text of these cases is a [#] and six
    lowercase hexadecimal digits. *)
Lemma binary64_well_formed (isDarkMode : bool) (i depth : nat) :
  (i < 32)%nat → (depth < 12)%nat →
  ∃ hex, Binary64.hexColor 32 isDarkMode i depth = Some hex ∧
         HexText.well_formed hex ∧
         ColorUtils.toHex <$> HexText.parse hex = Some hex.
Proof.
  intros Hi Hd.
  destruct (binary64_checked isDarkMode i depth Hi Hd) as [_ Hwf].
  unfold Binary64.wellFormed in Hwf.
  destruct (Binary64.hexColor 32 isDarkMode i depth) as [hex|]; [|done].
  rewrite !andb_true_iff, !bool_decide_eq_true in Hwf.
  destruct Hwf as [[[Hlen Hhd] Hdig] Hparse].
  exists hex. split; [done|]. split; [|done].
  unfold HexText.well_formed. repeat split; try done.
  apply Forall_forall. intros c Hc. rewrite forallb_forall in Hdig.
  apply Hdig. by apply list_elem_of_In.
Qed.

End DoubleRounding.

(** ** A palette of two colours *)

Section PaletteOfTwo.
Import RainbowDelimiters Scan.

(** With two colours and the text [((()))] the third opening delimiter
    finds every colour used: [getNextColor] empties the used set and
    returns entry [2 mod 2] of the whole palette.  The three closing
    delimiters pop the three colours and the depth is back at 0. *)
Lemma palette_of_two :
  ∃ st2 st,
    run (with_palette (ColorPaletteGenerator.generateBaseColors 2)) false
      (str "((()))") 2 = Some st2 ∧
    depth st2 = 2%nat ∧
    filter (λ c, Color.id c ∉ usedColors st2)
      (ColorPaletteGenerator.generateBaseColors 2) = [] ∧
    getNextColor (with_palette (ColorPaletteGenerator.generateBaseColors 2))
      (usedColors st2) 2 = (Some (nth_color 2 0), ∅) ∧
    scan (with_palette (ColorPaletteGenerator.generateBaseColors 2)) false
      (str "((()))") = Some st ∧
    depth st = 0%nat ∧ colorStack st = [] ∧
    Color.id ∘ d_base <$> emitted st = [0; 1; 0; 0; 1; 0]%nat ∧
    d_depth <$> emitted st = [0; 1; 2; 3; 2; 1]%nat.
Proof.
  eexists _, _.
  split; [vm_compute; reflexivity|].
  split; [vm_compute; reflexivity|].
  split; [vm_compute; reflexivity|].
  split; [vm_compute; reflexivity|].
  split; [vm_compute; reflexivity|].
  repeat split; vm_compute; reflexivity.
Qed.

End PaletteOfTwo.

(** * Further properties of the code *)

(** ** The sextants of the hue circle in [HSL_TO_RGB.convert] *)

Section RgbToHsl.
Import ColorUtils.
Local Open Scope Q_scope.

Lemma ltb_true a b : JsNum.ltb a b = true ↔ a < b.
Proof.
  unfold JsNum.ltb. rewrite negb_true_iff. split.
  - intros H. apply Qnot_le_lt. intros Hle. apply Qle_bool_iff in Hle. congruence.
  - intros H. destruct (Qle_bool b a) eqn:E; [|done].
    apply Qle_bool_iff in E. lra.
Qed.

Lemma ltb_false a b : JsNum.ltb a b = false ↔ b <= a.
Proof.
  unfold JsNum.ltb. rewrite negb_false_iff. apply Qle_bool_iff.
Qed.

Lemma convert_channels h s l :
  HSL_TO_RGB.convert h s l =
  {| Rgb.r := JsNum.round ((Unrounded.channels h s l).1.1 * 255);
     Rgb.g := JsNum.round ((Unrounded.channels h s l).1.2 * 255);
     Rgb.b := JsNum.round ((Unrounded.channels h s l).2 * 255) |}.
Proof.
  unfold HSL_TO_RGB.convert, Unrounded.channels.
  repeat match goal with |- context [JsNum.ltb ?a ?b] =>
    destruct (JsNum.ltb a b) end; reflexivity.
Qed.

Lemma Qfloor_unique (x : Q) (n : Z) :
  inject_Z n <= x → x < inject_Z n + 1 → Qfloor x = n.
Proof.
  intros Hlo Hhi.
  pose proof (Qfloor_le x) as H1. pose proof (Qlt_floor x) as H2.
  rewrite inject_Z_plus in H2. change (inject_Z 1) with 1 in H2.
  assert (A : inject_Z n < inject_Z (Qfloor x) + 1) by lra.
  assert (B : inject_Z (Qfloor x) < inject_Z n + 1) by lra.
  change 1 with (inject_Z 1) in A, B. rewrite <- inject_Z_plus in A, B.
  rewrite <- Zlt_Qlt in A, B. lia.
Qed.

Lemma round_integer (x : Q) (n : Z) : x == inject_Z n → JsNum.round x = n.
Proof.
  intros H. unfold JsNum.round. apply Qfloor_unique; lra.
Qed.

Lemma rem_two_at (a : Q) (j : Z) :
  (0 <= j)%Z → inject_Z (2 * j) <= a → a < inject_Z (2 * j) + 2 →
  JsNum.rem a 2 == a - inject_Z (2 * j).
Proof.
  intros Hj Hlo Hhi. unfold JsNum.rem.
  assert (Hq : a / 2 * 2 == a) by field.
  set (q := a / 2) in *.
  rewrite inject_Z_mult in *. change (inject_Z 2) with 2 in *.
  assert (Hj0 : 0 <= inject_Z j).
  { change 0 with (inject_Z 0). by rewrite <- Zle_Qle. }
  assert (H0 : 0 <= q) by lra.
  rewrite (trunc_nonneg_floor _ H0).
  rewrite (Qfloor_unique q j) by lra. ring.
Qed.

Lemma hue_factor_up (a : Q) (j : Z) :
  (0 <= j)%Z → inject_Z (2 * j) <= a → a <= inject_Z (2 * j) + 1 →
  1 - Qabs (JsNum.rem a 2 - 1) == a - inject_Z (2 * j).
Proof.
  intros Hj Hlo Hhi.
  pose proof (rem_two_at a j Hj Hlo ltac:(lra)) as Hr.
  set (k := JsNum.rem a 2) in *.
  apply Qabs_case; intros; lra.
Qed.

Lemma hue_factor_down (a : Q) (j : Z) :
  (0 <= j)%Z → inject_Z (2 * j) + 1 <= a → a < inject_Z (2 * j) + 2 →
  1 - Qabs (JsNum.rem a 2 - 1) == inject_Z (2 * j) + 2 - a.
Proof.
  intros Hj Hlo Hhi.
  pose proof (rem_two_at a j Hj ltac:(lra) Hhi) as Hr.
  set (k := JsNum.rem a 2) in *.
  apply Qabs_case; intros; lra.
Qed.

(** Chroma and lightness offset of a colour whose lightness and saturation
    come from a largest channel [M] and a smallest channel [m]. *)
Lemma chroma_of_extremes (M m s l : Q) :
  0 <= m → m < M → M <= 1 →
  l * 2 == (M + m) * 100 →
  s * (if JsNum.ltb (1 # 2) ((M + m) / 2) then 2 - M - m else M + m)
    == (M - m) * 100 →
  Unrounded.chroma s l == M - m ∧ Unrounded.offset s l == m.
Proof.
  intros Hm HmM HM Hl Hs. unfold Unrounded.offset, Unrounded.chroma.
  assert (El : l / 100 * 100 == l) by field.
  assert (Es : s / 100 * 100 == s) by field.
  set (l' := l / 100) in *. set (s' := s / 100) in *.
  assert (Eh : (M + m) / 2 * 2 == M + m) by field.
  set (half := (M + m) / 2) in *.
  assert (Ht : 1 - Qabs (2 * l' - 1) ==
               if JsNum.ltb (1 # 2) half then 2 - M - m else M + m).
  { destruct (JsNum.ltb (1 # 2) half) eqn:E.
    - apply ltb_true in E. apply Qabs_case; intros; lra.
    - apply ltb_false in E. apply Qabs_case; intros; lra. }
  set (t := if JsNum.ltb (1 # 2) half then 2 - M - m else M + m) in *.
  assert (Hc : (1 - Qabs (2 * l' - 1)) * s' == M - m).
  { rewrite Ht. nra. }
  split; [exact Hc|].
  assert (E2 : (1 - Qabs (2 * l' - 1)) * s' / 2 * 2 == (1 - Qabs (2 * l' - 1)) * s')
    by field.
  set (c2 := (1 - Qabs (2 * l' - 1)) * s' / 2) in *. lra.
Qed.

(** [HSL_TO_RGB.convert] sextant by sextant. *)
Lemma channels_sextant (h s l : Q) (k : Z) (u : Q) :
  (0 <= k <= 5)%Z → 0 <= u → u < 1 →
  h == 60 * (inject_Z k + u) →
  Unrounded.same (Unrounded.channels h s l)
    (Unrounded.sextant k u (Unrounded.chroma s l) (Unrounded.offset s l)).
Proof.
  intros Hk Hu0 Hu1 Hh. unfold Unrounded.channels.
  set (c := Unrounded.chroma s l). set (m := Unrounded.offset s l).
  assert (Ea : h / 60 * 60 == h) by field.
  set (a := h / 60) in *.
  assert (Hf : 1 - Qabs (JsNum.rem a 2 - 1) ==
               if Z.even k then u else 1 - u).
  { assert (Hcases : (k = 0 ∨ k = 1 ∨ k = 2 ∨ k = 3 ∨ k = 4 ∨ k = 5)%Z) by lia.
    destruct Hcases as [?|[?|[?|[?|[?|?]]]]]; subst k; cbn [Z.even];
      change (inject_Z 0) with 0 in Hh; change (inject_Z 1) with 1 in Hh;
      change (inject_Z 2) with 2 in Hh; change (inject_Z 3) with 3 in Hh;
      change (inject_Z 4) with 4 in Hh; change (inject_Z 5) with 5 in Hh.
    - pose proof (hue_factor_up a 0) as F.
      change (inject_Z (2 * 0)) with 0 in F. rewrite F; [lra|lia|lra|lra].
    - pose proof (hue_factor_down a 0) as F.
      change (inject_Z (2 * 0)) with 0 in F. rewrite F; [lra|lia|lra|lra].
    - pose proof (hue_factor_up a 1) as F.
      change (inject_Z (2 * 1)) with 2 in F. rewrite F; [lra|lia|lra|lra].
    - pose proof (hue_factor_down a 1) as F.
      change (inject_Z (2 * 1)) with 2 in F. rewrite F; [lra|lia|lra|lra].
    - pose proof (hue_factor_up a 2) as F.
      change (inject_Z (2 * 2)) with 4 in F. rewrite F; [lra|lia|lra|lra].
    - pose proof (hue_factor_down a 2) as F.
      change (inject_Z (2 * 2)) with 4 in F. rewrite F; [lra|lia|lra|lra]. }
  set (f := 1 - Qabs (JsNum.rem a 2 - 1)) in *.
  assert (Hcases : (k = 0 ∨ k = 1 ∨ k = 2 ∨ k = 3 ∨ k = 4 ∨ k = 5)%Z) by lia.
  destruct Hcases as [?|[?|[?|[?|[?|?]]]]]; subst k; cbn [Z.even] in Hf;
    cbn [Unrounded.sextant];
    change (inject_Z 0) with 0 in Hh; change (inject_Z 1) with 1 in Hh;
    change (inject_Z 2) with 2 in Hh; change (inject_Z 3) with 3 in Hh;
    change (inject_Z 4) with 4 in Hh; change (inject_Z 5) with 5 in Hh;
    repeat match goal with |- context [JsNum.ltb ?x ?y] =>
      let E := fresh "E" in
      destruct (JsNum.ltb x y) eqn:E;
      [apply ltb_true in E|apply ltb_false in E]; try lra end;
    unfold Unrounded.same; cbn [fst snd]; rewrite ?Hf;
    repeat split; ring.
Qed.

End RgbToHsl.

(** ** Where [RGB_TO_HSL.convert] lands *)

Section RoundTrip.
Import ColorUtils.
Local Open Scope Q_scope.

Lemma max3_spec (R G B : Q) :
  R <= Qmax (Qmax R G) B ∧ G <= Qmax (Qmax R G) B ∧ B <= Qmax (Qmax R G) B ∧
  (Qmax (Qmax R G) B == R ∨ Qmax (Qmax R G) B == G ∨ Qmax (Qmax R G) B == B).
Proof.
  destruct (Q.max_spec R G) as [[H1 E1]|[H1 E1]];
  destruct (Q.max_spec (Qmax R G) B) as [[H2 E2]|[H2 E2]];
  set (M1 := Qmax R G) in *; set (M := Qmax M1 B) in *;
  repeat split; try lra;
  first [left; lra|right; left; lra|right; right; lra].
Qed.

Lemma min3_spec (R G B : Q) :
  Qmin (Qmin R G) B <= R ∧ Qmin (Qmin R G) B <= G ∧ Qmin (Qmin R G) B <= B ∧
  (Qmin (Qmin R G) B == R ∨ Qmin (Qmin R G) B == G ∨ Qmin (Qmin R G) B == B).
Proof.
  destruct (Q.min_spec R G) as [[H1 E1]|[H1 E1]];
  destruct (Q.min_spec (Qmin R G) B) as [[H2 E2]|[H2 E2]];
  set (M1 := Qmin R G) in *; set (M := Qmin M1 B) in *;
  repeat split; try lra;
  first [left; lra|right; left; lra|right; right; lra].
Qed.

Lemma quotient_bounds (n d : Q) :
  0 < d → - d <= n → n <= d →
  n / d * d == n ∧ -1 <= n / d ∧ n / d <= 1 ∧
  (0 <= n → 0 <= n / d) ∧ (n < 0 → n / d < 0) ∧ (n < d → n / d < 1).
Proof.
  intros Hd Hlo Hhi.
  assert (E : n / d * d == n) by (field; lra).
  set (q := n / d) in *. repeat split; try nra.
Qed.

Ltac finish_sextant :=
  split; [lia|]; split; [lra|]; split; [lra|];
  split;
  [ match goal with |- context [JsNum.ltb ?x ?y] =>
      let E := fresh "E" in
      destruct (JsNum.ltb x y) eqn:E;
      [apply ltb_true in E|apply ltb_false in E]
    end; unfold inject_Z; lra
  | split; [assumption|]; split; [assumption|];
    unfold Unrounded.same; cbn [Unrounded.sextant fst snd];
    match goal with H : _ == _ ∨ _ == _ ∨ _ == _ |- _ =>
      repeat match goal with H : _ ∨ _ |- _ => destruct H end
    end; repeat split; nra ].

(** Hue, chroma and offset of the colour [RGB_TO_HSL.convert] returns for
    channels that are not all equal. *)
Lemma rgb_to_hsl_sextant (r g b : Q) :
  0 <= r → r <= 255 → 0 <= g → g <= 255 → 0 <= b → b <= 255 →
  ¬ (r == g ∧ g == b) →
  ∃ (k : Z) (u c m : Q),
    (0 <= k <= 5)%Z ∧ 0 <= u ∧ u < 1 ∧
    Hsl.h (RGB_TO_HSL.convert r g b) == 60 * (inject_Z k + u) ∧
    Unrounded.chroma (Hsl.s (RGB_TO_HSL.convert r g b))
      (Hsl.l (RGB_TO_HSL.convert r g b)) == c ∧
    Unrounded.offset (Hsl.s (RGB_TO_HSL.convert r g b))
      (Hsl.l (RGB_TO_HSL.convert r g b)) == m ∧
    Unrounded.same (Unrounded.sextant k u c m) (r / 255, g / 255, b / 255).
Proof.
  intros Hr0 Hr1 Hg0 Hg1 Hb0 Hb1 Hne. unfold RGB_TO_HSL.convert.
  assert (ER : r / 255 * 255 == r) by field.
  assert (EG : g / 255 * 255 == g) by field.
  assert (EB : b / 255 * 255 == b) by field.
  set (R := r / 255) in *. set (G := g / 255) in *. set (B := b / 255) in *.
  destruct (max3_spec R G B) as (MR & MG & MB & Mone).
  destruct (min3_spec R G B) as (mR & mG & mB & mone).
  set (M := Qmax (Qmax R G) B) in *. set (m := Qmin (Qmin R G) B) in *.
  assert (Hd : m < M).
  { destruct (Qlt_le_dec m M); [done|]. exfalso. apply Hne. split; lra. }
  destruct (Qeq_bool (M - m) 0) eqn:E0; [apply Qeq_bool_iff in E0; lra|].
  clear E0. cbn [Hsl.h Hsl.s Hsl.l].
  (* chroma and offset *)
  assert (Hcm : Unrounded.chroma
            ((if JsNum.ltb (1 # 2) ((M + m) / 2) then (M - m) / (2 - M - m)
              else (M - m) / (M + m)) * 100)
            ((M + m) / 2 * 100) == M - m ∧
          Unrounded.offset
            ((if JsNum.ltb (1 # 2) ((M + m) / 2) then (M - m) / (2 - M - m)
              else (M - m) / (M + m)) * 100)
            ((M + m) / 2 * 100) == m).
  { apply chroma_of_extremes; try lra.
    - field.
    - destruct (JsNum.ltb (1 # 2) ((M + m) / 2)) eqn:E.
      + field. lra.
      + field. lra. }
  destruct Hcm as [Hc Hm].
  set (S := (if JsNum.ltb (1 # 2) ((M + m) / 2) then (M - m) / (2 - M - m)
             else (M - m) / (M + m)) * 100) in *.
  set (L := (M + m) / 2 * 100) in *.
  assert (Hdm : 0 < M - m) by lra.
  destruct (Qeq_bool M R) eqn:EMR.
  - apply Qeq_bool_iff in EMR.
    destruct (quotient_bounds (G - B) (M - m) Hdm ltac:(lra) ltac:(lra))
      as (Eq & Hq0 & Hq1 & Hqnn & Hqneg & Hqlt).
    set (q := (G - B) / (M - m)) in *.
    destruct (JsNum.ltb G B) eqn:EGB.
    + apply ltb_true in EGB. specialize (Hqneg ltac:(lra)).
      exists 5%Z, (q + 1), (M - m), m. finish_sextant.
    + apply ltb_false in EGB. specialize (Hqnn ltac:(lra)).
      destruct (Qlt_le_dec q 1) as [Hlt|Hge].
      * exists 0%Z, q, (M - m), m. finish_sextant.
      * exists 1%Z, 0, (M - m), m. finish_sextant.
  - apply Qeq_bool_neq in EMR.
    assert (HRM : R < M).
    { destruct (Qlt_le_dec R M); [done|]. exfalso. apply EMR. lra. }
    destruct (Qeq_bool M G) eqn:EMG.
    + apply Qeq_bool_iff in EMG.
      destruct (quotient_bounds (B - R) (M - m) Hdm ltac:(lra) ltac:(lra))
        as (Eq & Hq0 & Hq1 & Hqnn & Hqneg & Hqlt).
      set (q := (B - R) / (M - m)) in *.
      destruct (Qlt_le_dec q 0) as [Hneg|Hnn].
      * exists 1%Z, (q + 1), (M - m), m. finish_sextant.
      * destruct (Qlt_le_dec q 1) as [Hlt|Hge].
        -- exists 2%Z, q, (M - m), m. finish_sextant.
        -- exists 3%Z, 0, (M - m), m. finish_sextant.
    + apply Qeq_bool_neq in EMG.
      assert (HGM : G < M).
      { destruct (Qlt_le_dec G M); [done|]. exfalso. apply EMG. lra. }
      assert (HBM : M == B) by (destruct Mone as [?|[?|?]]; lra).
      destruct (quotient_bounds (R - G) (M - m) Hdm ltac:(lra) ltac:(lra))
        as (Eq & Hq0 & Hq1 & Hqnn & Hqneg & Hqlt).
      specialize (Hqlt ltac:(lra)).
      set (q := (R - G) / (M - m)) in *.
      destruct (Qlt_le_dec q 0) as [Hneg|Hnn].
      * exists 3%Z, (q + 1), (M - m), m. finish_sextant.
      * exists 4%Z, q, (M - m), m. finish_sextant.
Qed.

End RoundTrip.

(** ** From RGB to HSL and back *)

Section RoundTripTheorems.
Import ColorUtils.
Local Open Scope Q_scope.

Lemma sextant_same (k : Z) (u c c' m m' : Q) :
  c == c' → m == m' →
  Unrounded.same (Unrounded.sextant k u c m) (Unrounded.sextant k u c' m').
Proof.
  intros Hc Hm. unfold Unrounded.same, Unrounded.sextant.
  repeat case_match; cbn [fst snd]; rewrite ?Hc, ?Hm;
    repeat split; reflexivity.
Qed.

(** Channels that are not all equal come back from hue, saturation and
    lightness exactly, before any rounding. *)
Lemma channels_of_rgb (r g b : Q) :
  0 <= r → r <= 255 → 0 <= g → g <= 255 → 0 <= b → b <= 255 →
  ¬ (r == g ∧ g == b) →
  Unrounded.same
    (Unrounded.channels (Hsl.h (RGB_TO_HSL.convert r g b))
       (Hsl.s (RGB_TO_HSL.convert r g b)) (Hsl.l (RGB_TO_HSL.convert r g b)))
    (r / 255, g / 255, b / 255).
Proof.
  intros Hr0 Hr1 Hg0 Hg1 Hb0 Hb1 Hne.
  destruct (rgb_to_hsl_sextant r g b Hr0 Hr1 Hg0 Hg1 Hb0 Hb1 Hne)
    as (k & u & c & m & Hk & Hu0 & Hu1 & Hh & Hc & Hm & Hsame).
  pose proof (channels_sextant _ (Hsl.s (RGB_TO_HSL.convert r g b))
                (Hsl.l (RGB_TO_HSL.convert r g b)) k u Hk Hu0 Hu1 Hh) as H1.
  pose proof (sextant_same k u _ _ _ _ Hc Hm) as H2.
  unfold Unrounded.same in *. cbn [fst snd] in *.
  destruct H1 as (A1 & A2 & A3), H2 as (B1 & B2 & B3), Hsame as (C1 & C2 & C3).
  repeat split.
  - by rewrite A1, B1.
  - by rewrite A2, B2.
  - by rewrite A3, B3.
Qed.

(** X1. An RGB triple of integer channels from 0 to 255 that is not a grey
    goes through [RGB_TO_HSL.convert] and back through
    [HSL_TO_RGB.convert] unchanged. *)
Theorem rgb_hsl_round_trip (r g b : Z) :
  byte_range r → byte_range g → byte_range b →
  ¬ (r = g ∧ g = b) →
  HSL_TO_RGB.convert
    (Hsl.h (RGB_TO_HSL.convert (inject_Z r) (inject_Z g) (inject_Z b)))
    (Hsl.s (RGB_TO_HSL.convert (inject_Z r) (inject_Z g) (inject_Z b)))
    (Hsl.l (RGB_TO_HSL.convert (inject_Z r) (inject_Z g) (inject_Z b)))
  = {| Rgb.r := r; Rgb.g := g; Rgb.b := b |}.
Proof.
  intros [Hr0 Hr1] [Hg0 Hg1] [Hb0 Hb1] Hne.
  assert (Q0 : ∀ z, (0 ≤ z)%Z → 0 <= inject_Z z).
  { intros z Hz. change 0 with (inject_Z 0). by rewrite <- Zle_Qle. }
  assert (Q1 : ∀ z, (z ≤ 255)%Z → inject_Z z <= 255).
  { intros z Hz. change 255 with (inject_Z 255). by rewrite <- Zle_Qle. }
  destruct (channels_of_rgb (inject_Z r) (inject_Z g) (inject_Z b))
    as (C1 & C2 & C3); auto.
  { intros [E1 E2]. apply Hne. split; by apply inject_Z_injective. }
  cbn [fst snd] in C1, C2, C3.
  rewrite convert_channels. f_equal; apply round_integer.
  - rewrite C1. field.
  - rewrite C2. field.
  - rewrite C3. field.
Qed.

Lemma rgb_hsl_round_trip_witness :
  HSL_TO_RGB.convert
    (Hsl.h (RGB_TO_HSL.convert (inject_Z 10) (inject_Z 200) (inject_Z 30)))
    (Hsl.s (RGB_TO_HSL.convert (inject_Z 10) (inject_Z 200) (inject_Z 30)))
    (Hsl.l (RGB_TO_HSL.convert (inject_Z 10) (inject_Z 200) (inject_Z 30)))
  = {| Rgb.r := 10; Rgb.g := 200; Rgb.b := 30 |}.
Proof.
  apply (rgb_hsl_round_trip 10 200 30); unfold byte_range; lia.
Defined.

End RoundTripTheorems.

(** ** The range of [RGB_TO_HSL.convert] *)

Section RgbToHslRange.
Import ColorUtils.
Local Open Scope Q_scope.

Lemma rgb_to_hsl_saturation_lightness (r g b : Q) :
  0 <= r → r <= 255 → 0 <= g → g <= 255 → 0 <= b → b <= 255 →
  ¬ (r == g ∧ g == b) →
  0 < Hsl.s (RGB_TO_HSL.convert r g b) ∧
  Hsl.s (RGB_TO_HSL.convert r g b) <= 100 ∧
  0 < Hsl.l (RGB_TO_HSL.convert r g b) ∧
  Hsl.l (RGB_TO_HSL.convert r g b) < 100.
Proof.
  intros Hr0 Hr1 Hg0 Hg1 Hb0 Hb1 Hne. unfold RGB_TO_HSL.convert.
  assert (ER : r / 255 * 255 == r) by field.
  assert (EG : g / 255 * 255 == g) by field.
  assert (EB : b / 255 * 255 == b) by field.
  set (R := r / 255) in *. set (G := g / 255) in *. set (B := b / 255) in *.
  destruct (max3_spec R G B) as (MR & MG & MB & Mone).
  destruct (min3_spec R G B) as (mR & mG & mB & mone).
  set (M := Qmax (Qmax R G) B) in *. set (m := Qmin (Qmin R G) B) in *.
  assert (Hd : m < M).
  { destruct (Qlt_le_dec m M); [done|]. exfalso. apply Hne. split; lra. }
  assert (Hm0 : 0 <= m) by (destruct mone as [?|[?|?]]; lra).
  assert (HM1 : M <= 1) by (destruct Mone as [?|[?|?]]; lra).
  destruct (Qeq_bool (M - m) 0) eqn:E0; [apply Qeq_bool_iff in E0; lra|].
  clear E0. cbn [Hsl.h Hsl.s Hsl.l].
  assert (Eh : (M + m) / 2 * 2 == M + m) by field.
  set (half := (M + m) / 2) in *.
  destruct (JsNum.ltb (1 # 2) half) eqn:E.
  - apply ltb_true in E.
    assert (Es : (M - m) / (2 - M - m) * (2 - M - m) == M - m) by (field; lra).
    set (s := (M - m) / (2 - M - m)) in *. repeat split; nra.
  - apply ltb_false in E.
    assert (Es : (M - m) / (M + m) * (M + m) == M - m) by (field; lra).
    set (s := (M - m) / (M + m)) in *. repeat split; nra.
Qed.

(** X2. For integer channels from 0 to 255 that are not all equal,
    [RGB_TO_HSL.convert] returns a hue from 0 up to but not including 360, a
    saturation above 0 and at most 100, and a lightness strictly between 0
    and 100. *)
Theorem rgb_to_hsl_range (r g b : Z) :
  byte_range r → byte_range g → byte_range b →
  ¬ (r = g ∧ g = b) →
  0 <= Hsl.h (RGB_TO_HSL.convert (inject_Z r) (inject_Z g) (inject_Z b)) ∧
  Hsl.h (RGB_TO_HSL.convert (inject_Z r) (inject_Z g) (inject_Z b)) < 360 ∧
  0 < Hsl.s (RGB_TO_HSL.convert (inject_Z r) (inject_Z g) (inject_Z b)) ∧
  Hsl.s (RGB_TO_HSL.convert (inject_Z r) (inject_Z g) (inject_Z b)) <= 100 ∧
  0 < Hsl.l (RGB_TO_HSL.convert (inject_Z r) (inject_Z g) (inject_Z b)) ∧
  Hsl.l (RGB_TO_HSL.convert (inject_Z r) (inject_Z g) (inject_Z b)) < 100.
Proof.
  intros [Hr0 Hr1] [Hg0 Hg1] [Hb0 Hb1] Hne.
  assert (Q0 : ∀ z, (0 ≤ z)%Z → 0 <= inject_Z z).
  { intros z Hz. change 0 with (inject_Z 0). by rewrite <- Zle_Qle. }
  assert (Q1 : ∀ z, (z ≤ 255)%Z → inject_Z z <= 255).
  { intros z Hz. change 255 with (inject_Z 255). by rewrite <- Zle_Qle. }
  assert (Hne' : ¬ (inject_Z r == inject_Z g ∧ inject_Z g == inject_Z b)).
  { intros [E1 E2]. apply Hne. split; by apply inject_Z_injective. }
  destruct (rgb_to_hsl_sextant (inject_Z r) (inject_Z g) (inject_Z b))
    as (k & u & c & m & Hk & Hu0 & Hu1 & Hh & _); auto.
  destruct (rgb_to_hsl_saturation_lightness
              (inject_Z r) (inject_Z g) (inject_Z b))
    as (Hs0 & Hs1 & Hl0 & Hl1); auto.
  assert (Hk0 : 0 <= inject_Z k).
  { change 0 with (inject_Z 0). rewrite <- Zle_Qle. lia. }
  assert (Hk5 : inject_Z k <= 5).
  { change 5 with (inject_Z 5). rewrite <- Zle_Qle. lia. }
  repeat split; try done; lra.
Qed.

Lemma rgb_to_hsl_range_witness :
  0 <= Hsl.h (RGB_TO_HSL.convert (inject_Z 10) (inject_Z 200) (inject_Z 30)) ∧
  Hsl.h (RGB_TO_HSL.convert (inject_Z 10) (inject_Z 200) (inject_Z 30)) < 360.
Proof.
  destruct (rgb_to_hsl_range 10 200 30) as (H0 & H1 & _);
    try (unfold byte_range; lia).
  split; [exact H0|exact H1].
Defined.

(** X3. A grey (all channels equal) gets hue 0, saturation 0 and, as
    lightness, the channel value divided by 255: a number from 0 to 1, not
    the percentage the other colours get. *)
Theorem rgb_to_hsl_grey (r g b : Q) :
  r == g → g == b →
  Hsl.h (RGB_TO_HSL.convert r g b) = 0 ∧
  Hsl.s (RGB_TO_HSL.convert r g b) = 0 ∧
  Hsl.l (RGB_TO_HSL.convert r g b) == r / 255 ∧
  (0 <= r → r <= 255 →
   0 <= Hsl.l (RGB_TO_HSL.convert r g b) ∧
   Hsl.l (RGB_TO_HSL.convert r g b) <= 1).
Proof.
  intros E1 E2. unfold RGB_TO_HSL.convert.
  assert (ER : r / 255 * 255 == r) by field.
  assert (EG : g / 255 * 255 == g) by field.
  assert (EB : b / 255 * 255 == b) by field.
  set (R := r / 255) in *. set (G := g / 255) in *. set (B := b / 255) in *.
  destruct (max3_spec R G B) as (MR & MG & MB & Mone).
  destruct (min3_spec R G B) as (mR & mG & mB & mone).
  set (M := Qmax (Qmax R G) B) in *. set (m := Qmin (Qmin R G) B) in *.
  assert (HM : M == R) by (destruct Mone as [?|[?|?]]; lra).
  assert (Hm : m == R) by (destruct mone as [?|[?|?]]; lra).
  destruct (Qeq_bool (M - m) 0) eqn:E0.
  2: { apply Qeq_bool_neq in E0. exfalso. apply E0. lra. }
  cbn [Hsl.h Hsl.s Hsl.l].
  assert (Eh : (M + m) / 2 * 2 == M + m) by field.
  set (half := (M + m) / 2) in *.
  repeat split; try done; lra.
Qed.

Lemma rgb_to_hsl_grey_witness :
  Hsl.l (RGB_TO_HSL.convert 128 128 128) == 128 / 255.
Proof.
  destruct (rgb_to_hsl_grey 128 128 128) as (_ & _ & H & _);
    [reflexivity|reflexivity|exact H].
Defined.

End RgbToHslRange.

(** ** Greys *)

Section GreyRoundTrip.
Import ColorUtils.

Lemma grey_comes_back_dark_all : forallb grey_comes_back_dark (seq 0 256) = true.
Proof. vm_compute. reflexivity. Qed.

(** X4. A grey does not survive the two conversions: because its lightness
    is not a percentage, the channel value [v] comes back as [v / 100]
    rounded, which is at most 3.  Only black comes back as it was. *)
Theorem rgb_hsl_round_trip_grey (v : Z) :
  byte_range v →
  rgb_hsl_rgb v v v =
    {| Rgb.r := (v + 50) / 100; Rgb.g := (v + 50) / 100;
       Rgb.b := (v + 50) / 100 |} ∧
  (0 ≤ (v + 50) / 100 ≤ 3)%Z ∧
  (rgb_hsl_rgb v v v = {| Rgb.r := v; Rgb.g := v; Rgb.b := v |} ↔ v = 0%Z).
Proof.
  intros [H0 H1].
  pose proof (forallb_below _ _ grey_comes_back_dark_all (Z.to_nat v)
                ltac:(lia)) as Hback.
  apply bool_decide_eq_true in Hback.
  rewrite Z2Nat.id in Hback by lia.
  pose proof (Z.div_mod (v + 50) 100 ltac:(lia)) as Hdiv.
  pose proof (Z.mod_pos_bound (v + 50) 100 ltac:(lia)) as Hmod.
  set (w := ((v + 50) / 100)%Z) in *.
  split; [exact Hback|]. split; [lia|].
  rewrite Hback. split.
  - intros [= E _ _]. lia.
  - intros E. f_equal; lia.
Qed.

Lemma rgb_hsl_round_trip_grey_witness :
  rgb_hsl_rgb 128 128 128 = {| Rgb.r := 1; Rgb.g := 1; Rgb.b := 1 |}.
Proof.
  destruct (rgb_hsl_round_trip_grey 128) as (H & _).
  - unfold byte_range. lia.
  - exact H.
Defined.

End GreyRoundTrip.

(** ** Colours without chroma *)

Section Achromatic.
Import ColorUtils.
Local Open Scope Q_scope.

Lemma round_comp (a b : Q) : a == b → JsNum.round a = JsNum.round b.
Proof. intros E. unfold JsNum.round. apply Qfloor_comp. by rewrite E. Qed.

(** X5. With saturation 0, or with lightness 0 or 100,
    [HSL_TO_RGB.convert] returns three equal channels, the lightness scaled
    to 0..255 and rounded, whatever the hue: black for lightness 0, white
    for lightness 100. *)
Theorem hsl_to_rgb_achromatic (h s l : Q) :
  s == 0 ∨ l == 0 ∨ l == 100 →
  HSL_TO_RGB.convert h s l =
  {| Rgb.r := JsNum.round (l / 100 * 255);
     Rgb.g := JsNum.round (l / 100 * 255);
     Rgb.b := JsNum.round (l / 100 * 255) |}.
Proof.
  intros Hcase. unfold HSL_TO_RGB.convert.
  set (c := (1 - Qabs (2 * (l / 100) - 1)) * (s / 100)).
  set (y := 1 - Qabs (JsNum.rem (h / 60) 2 - 1)).
  assert (Hc : c == 0).
  { subst c.
    assert (Eq : l / 100 * 100 == l) by field.
    set (q := l / 100) in *.
    destruct Hcase as [E|[E|E]].
    - rewrite E. field.
    - assert (Ha : 1 - Qabs (2 * q - 1) == 0)
        by (apply Qabs_case; intros; lra).
      rewrite Ha. ring.
    - assert (Ha : 1 - Qabs (2 * q - 1) == 0)
        by (apply Qabs_case; intros; lra).
      rewrite Ha. ring. }
  assert (Hx : c * y == 0) by (rewrite Hc; ring).
  assert (E1 : (c + (l / 100 - c / 2)) * 255 == l / 100 * 255).
  { rewrite Hc. field. }
  assert (E2 : (c * y + (l / 100 - c / 2)) * 255 == l / 100 * 255).
  { rewrite Hx, Hc. field. }
  assert (E3 : (0 + (l / 100 - c / 2)) * 255 == l / 100 * 255).
  { rewrite Hc. field. }
  repeat case_match; simplify_eq;
    by rewrite ?(round_comp _ _ E1), ?(round_comp _ _ E2), ?(round_comp _ _ E3).
Qed.

Lemma hsl_to_rgb_achromatic_witness :
  HSL_TO_RGB.convert 200 0 50 =
  {| Rgb.r := JsNum.round (50 / 100 * 255);
     Rgb.g := JsNum.round (50 / 100 * 255);
     Rgb.b := JsNum.round (50 / 100 * 255) |}.
Proof.
  apply (hsl_to_rgb_achromatic 200 0 50). left. reflexivity.
Defined.

End Achromatic.

(** ** A round of [getNextColor] *)

Section Round.
Import RainbowDelimiters.
Variable this : RainbowDelimiters.t.
Hypothesis distinct_objects : NoDup (Color.id <$> baseColors this).

Local Abbreviation ids := (list_to_set (Color.id <$> baseColors this) : gset nat).

Lemma filter_none {A} (P : A → Prop) `{∀ x, Decision (P x)} (l : list A) :
  Forall (λ x, ¬ P x) l → filter P l = [].
Proof.
  induction 1 as [|x l Hx _ IH]; [done|].
  rewrite filter_cons. by rewrite decide_False.
Qed.

Lemma size_ids : size ids = length (baseColors this).
Proof. rewrite size_list_to_set by done. by rewrite length_fmap. Qed.

(** While fewer colours are used than the palette holds, a colour is
    available. *)
Lemma getNextColor_fresh (used : gset nat) (depth : nat) :
  used ⊆ ids → (size used < length (baseColors this))%nat →
  ∃ c, getNextColor this used depth = (Some c, {[ Color.id c ]} ∪ used) ∧
       c ∈ baseColors this ∧ Color.id c ∉ used.
Proof.
  intros Hsub Hsize.
  destruct (decide (filter (λ c, Color.id c ∉ used) (baseColors this) = []))
    as [Hempty|Hleft].
  - exfalso.
    assert (Hall : ids ⊆ used).
    { intros i Hi. apply elem_of_list_to_set, list_elem_of_fmap in Hi
        as (c & -> & Hc).
      destruct (decide (Color.id c ∈ used)) as [|Hnot]; [done|].
      assert (c ∈ filter (λ c, Color.id c ∉ used) (baseColors this)) as Hin
        by (by apply list_elem_of_filter).
      rewrite Hempty in Hin. by apply elem_of_nil in Hin. }
    apply subseteq_size in Hall. rewrite size_ids in Hall. lia.
  - destruct (getNextColor_available this used depth Hleft)
      as (c & _ & Hin & Hnew & Heq).
    by exists c.
Qed.

Lemma nextColors_fresh (depths : list nat) (used : gset nat) :
  used ⊆ ids →
  (size used + length depths ≤ length (baseColors this))%nat →
  ∃ cs,
    nextColors this used depths =
      (Some <$> cs, list_to_set (Color.id <$> cs) ∪ used) ∧
    length cs = length depths ∧
    Forall (λ c, c ∈ baseColors this ∧ Color.id c ∉ used) cs ∧
    NoDup (Color.id <$> cs).
Proof.
  revert used. induction depths as [|d depths IH]; intros used Hsub Hsize.
  - exists []. simpl. split; [by rewrite (left_id_L ∅ (∪))|].
    repeat split; constructor.
  - simpl in Hsize.
    destruct (getNextColor_fresh used d Hsub ltac:(lia))
      as (c & Hnext & Hin & Hnew).
    destruct (IH ({[ Color.id c ]} ∪ used)) as (cs & Hrest & Hlen & Hall & Hnd).
    { apply union_subseteq. split; [|done].
      apply singleton_subseteq_l, elem_of_list_to_set, list_elem_of_fmap.
      by exists c. }
    { rewrite size_union by (by apply disjoint_singleton_l).
      rewrite size_singleton. lia. }
    exists (c :: cs). cbn [nextColors]. rewrite Hnext, Hrest.
    split; [|split; [|split]].
    + cbn [fmap list_fmap]. f_equal.
      rewrite list_to_set_cons. apply set_eq. intros x.
      rewrite !elem_of_union. tauto.
    + simpl. by rewrite Hlen.
    + constructor; [done|].
      eapply Forall_impl; [exact Hall|]. simpl. intros x [Hx Hnx].
      split; [done|]. intros Hu. apply Hnx, elem_of_union. by right.
    + cbn [fmap list_fmap]. constructor; [|done].
      intros Hc. apply list_elem_of_fmap in Hc as (x & Hid & Hx).
      pose proof (proj1 (Forall_forall _ _) Hall x Hx) as [_ Hnx].
      apply Hnx. rewrite <- Hid. apply elem_of_union. left.
      by apply elem_of_singleton.
Qed.

(** X6. From an empty used set, as many calls of [getNextColor] as the palette
    has colours return every colour of the palette exactly once, whatever
    the depths they are called with.  Every colour is then used: the next
    call empties the used set and returns the entry at [depth mod length] of
    the palette, so that the following round starts afresh. *)
Theorem getNextColor_round (depths : list nat) :
  length depths = length (baseColors this) →
  ∃ cs,
    nextColors this ∅ depths = (Some <$> cs, ids) ∧
    cs ≡ₚ baseColors this ∧
    ∀ depth,
      getNextColor this ids depth =
        (baseColors this !! (depth mod length (baseColors this)), ∅).
Proof.
  intros Hlen.
  destruct (nextColors_fresh depths ∅) as (cs & Hrun & Hlen' & Hall & Hnd).
  { apply empty_subseteq. }
  { rewrite size_empty. lia. }
  assert (Hcs : NoDup cs) by (by eapply NoDup_fmap_1).
  assert (Hperm : cs ≡ₚ baseColors this).
  { apply submseteq_length_Permutation; [|lia].
    apply NoDup_submseteq; [done|].
    intros c Hc. by apply (proj1 (Forall_forall _ _) Hall c Hc). }
  assert (Hids : list_to_set (Color.id <$> cs) ∪ ∅ = ids).
  { rewrite (right_id_L ∅ (∪)). apply list_to_set_perm_L. by rewrite Hperm. }
  exists cs. rewrite Hrun, Hids. split; [done|]. split; [done|].
  intros depth. apply getNextColor_exhausted, filter_none.
  apply Forall_forall. intros c Hc Hnot. apply Hnot.
  apply elem_of_list_to_set, list_elem_of_fmap. by exists c.
Qed.

End Round.

Lemma getNextColor_round_witness :
  ∃ cs,
    nextColors (RainbowDelimiters.with_palette
                  (ColorPaletteGenerator.generateBaseColors 3)) ∅ [5; 7; 0]%nat
      = (Some <$> cs, list_to_set [0; 1; 2]%nat) ∧
    cs ≡ₚ ColorPaletteGenerator.generateBaseColors 3.
Proof.
  destruct (getNextColor_round
              (RainbowDelimiters.with_palette
                 (ColorPaletteGenerator.generateBaseColors 3)))
    with (depths := [5; 7; 0]%nat) as (cs & Hrun & Hperm & _).
  - vm_compute. apply NoDup_ListNoDup. repeat constructor; simpl; lia.
  - reflexivity.
  - exists cs. split; [exact Hrun|exact Hperm].
Defined.

(** ** Colours are not given out twice before the palette is used up *)

Section Distinct.
Import RainbowDelimiters Scan.
Variable colors : list Color.t.
Variable isDarkMode : bool.
Variable text : jsstring.
Hypothesis distinct_objects : NoDup (Color.id <$> colors).

Local Abbreviation this := (with_palette colors).
Local Abbreviation delimiter :=
  (λ c : ascii, isOpening (with_palette colors) c
                || isClosing (with_palette colors) c = true).

Hypothesis few_delimiters : (length (filter delimiter text) ≤ length colors)%nat.

Local Abbreviation Unused := (Unused (with_palette colors) text).

Lemma filter_take_length k :
  (length (filter delimiter (take k text)) ≤ length colors)%nat.
Proof.
  etrans; [|exact few_delimiters].
  rewrite <- (take_drop k text) at 2. rewrite filter_app, length_app. lia.
Qed.

Lemma filter_take_delimiter k c :
  text !! k = Some c → isOpening this c || isClosing this c = true →
  length (filter delimiter (take (S k) text)) =
  S (length (filter delimiter (take k text))).
Proof.
  intros Hc Hd. rewrite (take_S_r _ _ _ Hc), filter_app, filter_cons, filter_nil.
  rewrite decide_True by done. rewrite length_app. simpl. lia.
Qed.

Lemma filter_take_other k c :
  text !! k = Some c → isOpening this c = false → isClosing this c = false →
  filter delimiter (take (S k) text) = filter delimiter (take k text).
Proof.
  intros Hc Hop Hcl.
  rewrite (take_S_r _ _ _ Hc), filter_app, filter_cons, filter_nil.
  rewrite decide_False by (rewrite Hop, Hcl; done). by rewrite app_nil_r.
Qed.

(** A call of [getNextColor] at a delimiter finds a colour that was not
    used. *)
Lemma Unused_fresh k c st :
  Unused k st → text !! k = Some c →
  isOpening this c || isClosing this c = true →
  ∃ base, getNextColor this (usedColors st) (depth st) =
            (Some base, {[ Color.id base ]} ∪ usedColors st) ∧
          base ∈ colors ∧ Color.id base ∉ usedColors st.
Proof.
  intros [Hn Hsz Hsub _ _] Hc Hd.
  apply (getNextColor_fresh this distinct_objects); [done|].
  pose proof (filter_take_delimiter k c Hc Hd).
  pose proof (filter_take_length (S k)). simpl. lia.
Qed.

Lemma Unused_grow k c st base depth' stack' :
  Unused k st → text !! k = Some c →
  isOpening this c || isClosing this c = true →
  base ∈ colors → Color.id base ∉ usedColors st →
  Unused (S k)
    (decorated isDarkMode text k c base st depth' stack'
       ({[ Color.id base ]} ∪ usedColors st)).
Proof.
  intros [Hn Hsz Hsub Hop Hnd] Hc Hd Hin Hnew.
  split; simpl.
  - rewrite length_app, (filter_take_delimiter k c Hc Hd), Hn. simpl. lia.
  - rewrite size_union by (by apply disjoint_singleton_l).
    rewrite size_singleton, length_app. simpl. lia.
  - apply union_subseteq. split; [|done].
    apply singleton_subseteq_l, elem_of_list_to_set, list_elem_of_fmap.
    by exists base.
  - unfold opening_decorations. rewrite filter_app, filter_cons, filter_nil.
    apply Forall_app. split.
    + eapply Forall_impl; [exact Hop|]. simpl. intros d Hdu.
      apply elem_of_union. by right.
    + case_decide; constructor; [|done]. simpl.
      apply elem_of_union. left. by apply elem_of_singleton.
  - unfold opening_decorations. rewrite filter_app, filter_cons, filter_nil.
    case_decide; [|by rewrite app_nil_r].
    rewrite fmap_app. apply NoDup_app. split; [done|]. split.
    + intros i Hi. simpl. rewrite list_elem_of_singleton. intros ->.
      apply list_elem_of_fmap in Hi as (d & Hid & Hdin). simpl in Hid.
      apply Hnew. rewrite Hid.
      exact (proj1 (Forall_forall _ _) Hop d Hdin).
    + simpl. apply NoDup_singleton.
Qed.

Lemma Unused_Step k st st' :
  Unused k st → Step this isDarkMode text k st st' → Unused (S k) st'.
Proof.
  intros Hun Hstep. pose proof Hun as [Hn Hsz Hsub Hop Hnd].
  destruct Hstep as [Hc|c Hc Ho Hcl|c base used' Hc Ho Hnext
                    |c base rest Hc Ho Hcl Hstack|c base used' Hc Ho Hcl Hstack Hnext].
  - apply lookup_ge_None in Hc. split; try done.
    by rewrite take_ge in Hn |- * by lia.
  - split; try done. by rewrite (filter_take_other k c Hc Ho Hcl).
  - assert (Hd : isOpening this c || isClosing this c = true) by by rewrite Ho.
    destruct (Unused_fresh k c st Hun Hc Hd) as (b & Hb & Hin & Hnew).
    rewrite Hb in Hnext. injection Hnext as <- <-.
    by apply Unused_grow.
  - assert (Hd : isOpening this c || isClosing this c = true)
      by by rewrite Ho, Hcl.
    split; simpl.
    + rewrite length_app, (filter_take_delimiter k c Hc Hd), Hn. simpl. lia.
    + rewrite length_app. simpl. lia.
    + done.
    + unfold opening_decorations. rewrite filter_app, filter_cons, filter_nil.
      rewrite decide_False by (simpl; congruence). by rewrite app_nil_r.
    + unfold opening_decorations. rewrite filter_app, filter_cons, filter_nil.
      rewrite decide_False by (simpl; congruence). by rewrite app_nil_r.
  - assert (Hd : isOpening this c || isClosing this c = true)
      by by rewrite Ho, Hcl.
    destruct (Unused_fresh k c st Hun Hc Hd) as (b & Hb & Hin & Hnew).
    rewrite Hb in Hnext. injection Hnext as <- <-.
    by apply Unused_grow.
Qed.

Lemma run_Unused k st : run this isDarkMode text k = Some st → Unused k st.
Proof.
  revert k st. apply run_ind.
  - split;
      [done|change (size (∅ : gset nat) ≤ 0)%nat; rewrite size_empty; lia
      |apply empty_subseteq|constructor|constructor].
  - intros k st st' _. apply Unused_Step.
Qed.

Lemma run_few_total k : is_Some (run this isDarkMode text k).
Proof.
  induction k as [|k [st Hst]]; [done|].
  rewrite run_S, Hst. simpl.
  pose proof (run_Unused k st Hst) as Hun.
  destruct (text !! k) as [c|] eqn:Hc.
  2: { eexists. apply Step_loop_body. by apply step_end. }
  destruct (isOpening this c) eqn:Ho.
  - destruct (Unused_fresh k c st Hun Hc) as (b & Hb & _); [by rewrite Ho|].
    eexists. apply Step_loop_body. by eapply step_open.
  - destruct (isClosing this c) eqn:Hcl.
    2: { eexists. apply Step_loop_body. by eapply step_other. }
    destruct (colorStack st) as [|base rest] eqn:Hstack.
    + destruct (Unused_fresh k c st Hun Hc) as (b & Hb & _);
        [by rewrite Ho, Hcl|].
      eexists. apply Step_loop_body. by eapply step_close_fallback.
    + eexists. apply Step_loop_body. by eapply step_close_pop.
Qed.

(** X7. While the text has no more delimiters than the palette has colours,
    and the colours are different objects, the scan completes with one
    decoration per delimiter, the used set holds no more colours than
    delimiters were met, and the opening delimiters get pairwise different
    base colours: a colour is not given out again after its pair is
    closed. *)
Theorem opening_colours_distinct :
  ∃ st, scan this isDarkMode text = Some st ∧
    length (emitted st) = length (filter delimiter text) ∧
    NoDup (Color.id ∘ d_base <$> opening_decorations this (emitted st)) ∧
    (size (usedColors st) ≤ length (emitted st))%nat.
Proof.
  destruct (run_few_total (length text)) as [st Hst].
  exists st. split; [exact Hst|].
  destruct (run_Unused _ _ Hst) as [Hn Hsz _ _ Hnd].
  rewrite firstn_all in Hn. done.
Qed.

End Distinct.

Section DistinctDefault.
Import RainbowDelimiters Scan.

Lemma generateBaseColors_ids (count : nat) :
  Color.id <$> ColorPaletteGenerator.generateBaseColors count = seq 0 count.
Proof.
  rewrite generateBaseColors_map, <- list_fmap_compose.
  rewrite <- (list_fmap_id (seq 0 count)) at 2. by apply list_fmap_ext.
Qed.

Lemma generateBaseColors_distinct (count : nat) :
  NoDup (Color.id <$> ColorPaletteGenerator.generateBaseColors count).
Proof. rewrite generateBaseColors_ids. apply NoDup_seq. Qed.

Lemma opening_colours_distinct_witness :
  ∃ st, scan new false (str "(f (g x) [y])") = Some st ∧
    length (emitted st) = 6%nat ∧
    NoDup (Color.id ∘ d_base <$> opening_decorations new (emitted st)).
Proof.
  destruct (opening_colours_distinct
              (ColorPaletteGenerator.generateBaseColors
                 ColorPaletteGenerator.default_count) false
              (str "(f (g x) [y])")
              (generateBaseColors_distinct ColorPaletteGenerator.default_count))
    as (st & Hst & Hn & Hnd & _).
  - vm_compute. lia.
  - exists st. split; [exact Hst|]. split; [exact Hn|exact Hnd].
Defined.

End DistinctDefault.

(** ** The colour texts and the length of the output *)

Section SpanColours.
Import RainbowDelimiters Scan.
Variable colors : list Color.t.
Variable isDarkMode : bool.
Hypothesis palette_not_empty : colors ≠ [].
Hypothesis palette_in_range :
  Forall (λ c, (0 <= Color.h c)%Q ∧ (Color.s c <= 100)%Q) colors.

Local Abbreviation this := (with_palette colors).
Local Abbreviation delimiter :=
  (λ c : ascii, isOpening (with_palette colors) c
                || isClosing (with_palette colors) c = true).

(** What [adjustColor] returns for a colour of the palette is in the range
    [HSL_TO_RGB.convert] maps to bytes. *)
Lemma adjusted_in_range base depth :
  base ∈ colors →
  (0 <= Hsl.h (adjusted isDarkMode base depth))%Q ∧
  (0 <= Hsl.s (adjusted isDarkMode base depth))%Q ∧
  (Hsl.s (adjusted isDarkMode base depth) <= 100)%Q ∧
  (0 <= Hsl.l (adjusted isDarkMode base depth))%Q ∧
  (Hsl.l (adjusted isDarkMode base depth) <= 100)%Q.
Proof.
  intros Hin.
  pose proof (proj1 (Forall_forall _ _) palette_in_range base Hin) as [Hh Hs].
  unfold adjusted, ColorAdjuster.adjustColor.
  cbn [mbind option_bind default Hsl.h Hsl.s Hsl.l].
  assert (Hr : (depth mod 3 < 3)%nat) by (apply Nat.mod_upper_bound; lia).
  assert (Hk : (0 <= JsNum.of_nat (depth / 3))%Q).
  { unfold JsNum.of_nat. change 0%Q with (inject_Z 0). rewrite <- Zle_Qle. lia. }
  split; [done|]. split; [|split; [|split]].
  - apply Qle_trans with 40%Q; [done|]. apply Q.le_max_l.
  - apply Q.max_lub; [done|]. lra.
  - destruct (depth mod 3)%nat as [|[|[|r]]]; [| | |lia];
      destruct isDarkMode; vm_compute; discriminate.
  - destruct (depth mod 3)%nat as [|[|[|r]]]; [| | |lia];
      destruct isDarkMode; vm_compute; discriminate.
Qed.

Lemma hexColor_well_formed base depth :
  base ∈ colors →
  HexText.well_formed (hexColor isDarkMode base depth) ∧
  HexText.parse (hexColor isDarkMode base depth) =
    Some (ColorUtils.HSL_TO_RGB.convert
            (Hsl.h (adjusted isDarkMode base depth))
            (Hsl.s (adjusted isDarkMode base depth))
            (Hsl.l (adjusted isDarkMode base depth))).
Proof.
  intros Hin.
  destruct (adjusted_in_range base depth Hin) as (Hh & Hs0 & Hs1 & Hl0 & Hl1).
  destruct (convert_range _ _ _ Hh Hs0 Hs1 Hl0 Hl1) as (Hr & Hg & Hb).
  exact (toHex_round_trip _ Hr Hg Hb).
Qed.

Lemma span_length_7 hex c : length hex = 7%nat → length (span hex c) = 37%nat.
Proof. intros H. unfold span. rewrite !length_app, H. reflexivity. Qed.

(** The length of a rendering whose wrapped pieces are the delimiters and
    carry colour texts of 7 characters. *)
Lemma render_length (ps : list Piece) (l : jsstring) :
  Forall2 (λ p c, if isOpening this c || isClosing this c
                  then ∃ hex, p = Wrapped hex c ∧ length hex = 7%nat
                  else p = Plain c) ps l →
  length (render ps) = (length l + 36 * length (filter delimiter l))%nat.
Proof.
  induction 1 as [|p c ps l Hp _ IH]; [done|].
  change (render (p :: ps)) with (render_piece p ++ render ps).
  rewrite length_app, IH, filter_cons.
  destruct (isOpening this c || isClosing this c) eqn:Hd.
  - destruct Hp as (hex & -> & Hlen). rewrite decide_True by done.
    simpl render_piece. rewrite (span_length_7 _ _ Hlen). simpl. lia.
  - subst p. rewrite decide_False by congruence. simpl. lia.
Qed.

(** X8. For a palette whose hues are not negative and whose saturations
    are at most 100, as every palette of [generateBaseColors] is, the scan
    completes and the colour text of every span it emits is a [#] followed
    by six lowercase hexadecimal digits, which read back as the channels
    [HSL_TO_RGB.convert] gives for the adjusted colour. *)
Theorem span_colours_well_formed (text : jsstring) :
  ∃ st, scan this isDarkMode text = Some st ∧
    Forall (λ d,
      HexText.well_formed (d_hex d) ∧
      HexText.parse (d_hex d) =
        Some (ColorUtils.HSL_TO_RGB.convert (Hsl.h (d_adjusted d))
                (Hsl.s (d_adjusted d)) (Hsl.l (d_adjusted d)))) (emitted st).
Proof.
  destruct (run_total this isDarkMode text (length text) palette_not_empty)
    as [st Hst].
  exists st. split; [exact Hst|].
  pose proof (scan_Invariant this isDarkMode text st Hst) as Hinv.
  eapply Forall_impl; [exact (inv_emitted _ _ _ _ _ Hinv)|].
  intros d (_ & _ & _ & Hbase & Hd). rewrite Hd. simpl.
  by apply hexColor_well_formed.
Qed.

(** X9. For such a palette the output of [processText] is longer than the
    text by exactly 36 characters for every delimiter: each delimiter is
    replaced by a span of 37 characters and nothing else is added or
    removed. *)
Theorem processText_length (text : jsstring) :
  ∃ out, processText this isDarkMode text = Some out ∧
    length out = (length text + 36 * length (filter delimiter text))%nat.
Proof.
  destruct (run_total this isDarkMode text (length text) palette_not_empty)
    as [st Hst].
  exists (render (pieces_of (emitted st) text)).
  split; [by apply processText_render|].
  pose proof (scan_Invariant this isDarkMode text st Hst) as Hinv.
  apply render_length. apply Forall2_same_length_lookup_2.
  { unfold pieces_of, pieces_from. by rewrite length_imap. }
  intros i p c Hp Hc.
  destruct (isOpening this c || isClosing this c) eqn:Hdelim.
  - destruct (pieces_of_delimiter this isDarkMode text st Hst i c Hc Hdelim)
      as (d & _ & Hin & Hpi).
    rewrite Hpi in Hp. injection Hp as <-. exists (d_hex d). split; [done|].
    pose proof (proj1 (Forall_forall _ _) (inv_emitted _ _ _ _ _ Hinv) d Hin)
      as (_ & _ & _ & Hbase & Hd).
    rewrite Hd. simpl.
    by destruct (hexColor_well_formed (d_base d) (d_depth d) Hbase) as [[? _] _].
  - destruct (pieces_of_other this isDarkMode text st Hst i c Hc Hdelim)
      as [_ Hpi].
    rewrite Hpi in Hp. by injection Hp as <-.
Qed.

End SpanColours.

Section SpanColoursDefault.
Import RainbowDelimiters Scan.
Local Open Scope Q_scope.

(** Every palette [generateBaseColors] builds is in the range the two
    theorems above ask for. *)
Lemma generateBaseColors_in_range (count : nat) :
  Forall (λ c, 0 <= Color.h c ∧ Color.s c <= 100)
    (ColorPaletteGenerator.generateBaseColors count).
Proof.
  rewrite generateBaseColors_map. apply Forall_fmap, Forall_forall.
  intros i Hi. apply elem_of_seq in Hi. simpl.
  unfold nth_color, Color.h, Color.s. cbn [Color.hsl Hsl.h Hsl.s].
  split; [|done].
  assert (Hc : 0 < inject_Z (Z.of_nat count)).
  { change 0 with (inject_Z 0). rewrite <- Zlt_Qlt. lia. }
  assert (Hi0 : 0 <= JsNum.of_nat i).
  { unfold JsNum.of_nat. change 0 with (inject_Z 0). rewrite <- Zle_Qle. lia. }
  assert (Estep : 360 / JsNum.of_nat count * JsNum.of_nat count == 360).
  { unfold JsNum.of_nat. field. intros E. rewrite E in Hc.
    by apply Qlt_irrefl in Hc. }
  unfold JsNum.of_nat in *.
  set (step := 360 / inject_Z (Z.of_nat count)) in *.
  assert (Hstep : 0 <= step).
  { destruct (Qlt_le_dec step 0) as [Hneg|]; [|done]. exfalso. nra. }
  nra.
Qed.

Lemma span_colours_well_formed_witness :
  ∃ st, scan new true (str "(a[b]{c})") = Some st ∧
    Forall (λ d,
      HexText.well_formed (d_hex d) ∧
      HexText.parse (d_hex d) =
        Some (ColorUtils.HSL_TO_RGB.convert (Hsl.h (d_adjusted d))
                (Hsl.s (d_adjusted d)) (Hsl.l (d_adjusted d)))) (emitted st).
Proof.
  exact (span_colours_well_formed
           (ColorPaletteGenerator.generateBaseColors
              ColorPaletteGenerator.default_count) true
           default_palette_not_empty
           (generateBaseColors_in_range ColorPaletteGenerator.default_count)
           (str "(a[b]{c})")).
Defined.

Lemma processText_length_witness :
  ∃ out, processText new false (str "f(x[0])") = Some out ∧
         length out = 151%nat.
Proof.
  destruct (processText_length
              (ColorPaletteGenerator.generateBaseColors
                 ColorPaletteGenerator.default_count) false
              default_palette_not_empty
              (generateBaseColors_in_range ColorPaletteGenerator.default_count)
              (str "f(x[0])")) as (out & Hout & Hlen).
  exists out. split; [exact Hout|exact Hlen].
Defined.

End SpanColoursDefault.

(** ** The scan reads from left to right *)

Section Prefix.
Import RainbowDelimiters Scan.
Variable colors : list Color.t.
Variable isDarkMode : bool.
Hypothesis palette_not_empty : colors ≠ [].

Local Abbreviation this := (with_palette colors).

Lemma substring_app_l (t u : jsstring) a b :
  (a ≤ b)%nat → (b ≤ length t)%nat →
  substring (t ++ u) a b = substring t a b.
Proof.
  intros Hab Hb. rewrite !substring_ordered by (rewrite ?length_app; lia).
  rewrite drop_app_le by lia. apply take_app_le. rewrite length_drop. lia.
Qed.

Lemma loop_body_prefix (t u : jsstring) i st :
  (i < length t)%nat → (lastIndex st ≤ i)%nat →
  loop_body this isDarkMode (t ++ u) i st = loop_body this isDarkMode t i st.
Proof.
  intros Hi Hl. unfold loop_body.
  rewrite lookup_app_l by done. by rewrite substring_app_l by lia.
Qed.

(** The first iterations of the loop do not depend on what the text holds
    further on. *)
Lemma run_prefix (t u : jsstring) k :
  (k ≤ length t)%nat →
  run this isDarkMode (t ++ u) k = run this isDarkMode t k.
Proof.
  induction k as [|k IH]; intros Hk; [done|].
  rewrite !run_S, IH by lia.
  destruct (run this isDarkMode t k) as [st|] eqn:Hst; [|done]. simpl.
  apply loop_body_prefix; [lia|].
  by destruct (inv_lastIndex _ _ _ _ _ (run_Invariant _ _ _ _ _ Hst)).
Qed.

(** X10. The scan does not look ahead: after the first [length t]
    iterations on [t ++ u] the local variables are those the scan of [t]
    ends with, and the output for [t ++ u] starts with the whole output for
    [t].  Appending text never changes the markup of what stands before
    it. *)
Theorem processText_prefix (t u : jsstring) :
  run this isDarkMode (t ++ u) (length t) = scan this isDarkMode t ∧
  ∃ out rest,
    processText this isDarkMode t = Some out ∧
    processText this isDarkMode (t ++ u) = Some (out ++ rest).
Proof.
  pose proof (run_prefix t u (length t) (le_n _)) as Hpre.
  split; [exact Hpre|].
  destruct (run_total this isDarkMode t (length t) palette_not_empty)
    as [st Hst].
  destruct (run_total this isDarkMode (t ++ u) (length (t ++ u))
              palette_not_empty) as [st' Hst'].
  assert (∃ more, emitted st' = emitted st ++ more) as [more Hmore].
  { rewrite length_app, run_app, Hpre, Hst in Hst'. simpl in Hst'.
    by eapply for_loop_emitted. }
  exists (render (pieces_of (emitted st) t)),
         (render (pieces_from (emitted st') (length t) u)).
  split; [by apply processText_render|].
  rewrite (processText_render _ _ _ _ Hst'). f_equal.
  rewrite <- render_app. f_equal.
  unfold pieces_of, pieces_from. rewrite imap_app. f_equal.
  apply imap_ext. intros i c Hc. simpl.
  assert (Hc' : (t ++ u) !! i = Some c) by by apply lookup_app_l_Some.
  destruct (isOpening this c || isClosing this c) eqn:Hdelim.
  - destruct (pieces_of_delimiter this isDarkMode t st Hst i c Hc Hdelim)
      as (d & Hd & _).
    by rewrite Hmore, (deco_at_app_l _ more _ _ Hd), Hd.
  - destruct (pieces_of_other this isDarkMode t st Hst i c Hc Hdelim)
      as [-> _].
    by destruct (pieces_of_other this isDarkMode (t ++ u) st' Hst' i c Hc' Hdelim)
      as [-> _].
Qed.

End Prefix.

Section PrefixDefault.
Import RainbowDelimiters Scan.

Lemma processText_prefix_witness :
  ∃ out rest,
    processText new false (str "(a") = Some out ∧
    processText new false (str "(a" ++ str " b)") = Some (out ++ rest).
Proof.
  exact (proj2 (processText_prefix
                  (ColorPaletteGenerator.generateBaseColors
                     ColorPaletteGenerator.default_count) false
                  default_palette_not_empty (str "(a") (str " b)"))).
Defined.

End PrefixDefault.

(** ** The colours depend on the delimiters alone *)

Section Skeleton.
Import RainbowDelimiters Scan.
Variable colors : list Color.t.
Variable isDarkMode : bool.
Hypothesis palette_not_empty : colors ≠ [].

Local Abbreviation this := (with_palette colors).
Local Abbreviation delimiter :=
  (λ c : ascii, isOpening (with_palette colors) c
                || isClosing (with_palette colors) c = true).

Lemma SameColouring_refl st : SameColouring st st.
Proof. by split. Qed.

Lemma SameColouring_sym st st' : SameColouring st st' → SameColouring st' st.
Proof. intros []. by split. Qed.

Lemma SameColouring_trans st1 st2 st3 :
  SameColouring st1 st2 → SameColouring st2 st3 → SameColouring st1 st3.
Proof. intros [] []. split; congruence. Qed.

(** The same delimiter met in states of the same colouring, at any index of
    any text, leaves states of the same colouring. *)
Lemma loop_body_SameColouring (t t' : jsstring) i i' c st st' st1 st1' :
  t !! i = Some c → t' !! i' = Some c →
  SameColouring st st' →
  loop_body this isDarkMode t i st = Some st1 →
  loop_body this isDarkMode t' i' st' = Some st1' →
  SameColouring st1 st1'.
Proof.
  intros Hc Hc' [Hd Hs Hu Hp]. unfold loop_body. rewrite Hc, Hc'.
  rewrite <- Hd, <- Hs, <- Hu.
  destruct (isOpening this c) eqn:Hop; simpl.
  - destruct (getNextColor this (usedColors st) (depth st))
      as [[base|] used'] eqn:Hnext; simpl; [|done].
    intros [= <-] [= <-]. split; simpl; try done.
    by rewrite !fmap_app, Hp.
  - destruct (isClosing this c) eqn:Hcl; simpl.
    2: { intros [= <-] [= <-]. by split. }
    destruct (colorStack st) as [|base rest] eqn:Hstack.
    + destruct (getNextColor this (usedColors st) (depth st))
        as [[base|] used'] eqn:Hnext; simpl; [|done].
      intros [= <-] [= <-]. split; simpl; try done.
      by rewrite !fmap_app, Hp.
    + simpl. intros [= <-] [= <-]. split; simpl; try done.
      by rewrite !fmap_app, Hp.
Qed.

(** After [k] iterations the scan of a text is where the scan of the
    delimiters among its first [k] characters ends. *)
Lemma run_skeleton (t : jsstring) k st :
  run this isDarkMode t k = Some st →
  ∃ st', scan this isDarkMode (filter delimiter (take k t)) = Some st' ∧
         SameColouring st st'.
Proof.
  revert st. induction k as [|k IH]; intros st Hst.
  - injection Hst as <-. exists init. split; [done|]. apply SameColouring_refl.
  - rewrite run_S in Hst.
    destruct (run this isDarkMode t k) as [st0|] eqn:Hst0; [|done].
    simpl in Hst. destruct (IH st0 eq_refl) as (st0' & Hst0' & Hsame).
    destruct (t !! k) as [c|] eqn:Hc.
    + rewrite (take_S_r _ _ _ Hc), filter_app, filter_cons, filter_nil.
      destruct (isOpening this c || isClosing this c) eqn:Hdelim.
      * rewrite decide_True by done.
        set (s := filter delimiter (take k t)) in *.
        destruct (run_total this isDarkMode (s ++ [c]) (length (s ++ [c]))
                    palette_not_empty) as [st1' Hst1'].
        exists st1'. split; [exact Hst1'|].
        rewrite length_app in Hst1'. simpl in Hst1'.
        unfold scan in Hst0'.
        rewrite Nat.add_1_r, run_S, run_prefix, Hst0' in Hst1' by done.
        simpl in Hst1'.
        eapply (loop_body_SameColouring t (s ++ [c]) k (length s) c);
          [done| |done|done|done].
        rewrite lookup_app_r by done. by rewrite Nat.sub_diag.
      * rewrite decide_False by congruence. rewrite app_nil_r.
        exists st0'. split; [done|].
        apply orb_false_iff in Hdelim as [Hop Hcl].
        rewrite (body_other colors isDarkMode t k c st0 Hc Hop Hcl) in Hst.
        by injection Hst as <-.
    + unfold loop_body in Hst. rewrite Hc in Hst. injection Hst as <-.
      apply lookup_ge_None in Hc. rewrite take_ge by lia.
      rewrite take_ge in Hst0' by lia. by exists st0'.
Qed.

(** X11. Two texts with the same delimiters in the same order are painted
    alike: delimiter by delimiter the scan uses the same base colour, the
    same depth and the same colour text, and ends at the same depth with
    the same stack.  The characters between the delimiters have no
    influence on the colours. *)
Theorem colours_depend_on_delimiters (t1 t2 : jsstring) :
  filter delimiter t1 = filter delimiter t2 →
  ∃ st1 st2,
    scan this isDarkMode t1 = Some st1 ∧
    scan this isDarkMode t2 = Some st2 ∧
    paint <$> emitted st1 = paint <$> emitted st2 ∧
    depth st1 = depth st2 ∧ colorStack st1 = colorStack st2.
Proof.
  intros Heq.
  destruct (run_total this isDarkMode t1 (length t1) palette_not_empty)
    as [st1 Hst1].
  destruct (run_total this isDarkMode t2 (length t2) palette_not_empty)
    as [st2 Hst2].
  exists st1, st2. split; [exact Hst1|]. split; [exact Hst2|].
  destruct (run_skeleton t1 _ st1 Hst1) as (s1 & Hs1 & Hsame1).
  destruct (run_skeleton t2 _ st2 Hst2) as (s2 & Hs2 & Hsame2).
  rewrite firstn_all in Hs1, Hs2. rewrite Heq, Hs2 in Hs1.
  injection Hs1 as <-.
  destruct (SameColouring_trans _ _ _ Hsame1 (SameColouring_sym _ _ Hsame2)).
  done.
Qed.

End Skeleton.

Section SkeletonDefault.
Import RainbowDelimiters Scan.

Lemma colours_depend_on_delimiters_witness :
  ∃ st1 st2,
    scan new false (str "(map inc [1 2])") = Some st1 ∧
    scan new false (str "([])") = Some st2 ∧
    paint <$> emitted st1 = paint <$> emitted st2.
Proof.
  destruct (colours_depend_on_delimiters
              (ColorPaletteGenerator.generateBaseColors
                 ColorPaletteGenerator.default_count) false
              default_palette_not_empty
              (str "(map inc [1 2])") (str "([])") eq_refl)
    as (st1 & st2 & H1 & H2 & Hp & _).
  exists st1, st2. split; [exact H1|]. split; [exact H2|exact Hp].
Defined.

End SkeletonDefault.

(** ** Pairs of delimiters of different kinds *)

Section AnyKind.
Import RainbowDelimiters Scan.
Variable colors : list Color.t.
Variable isDarkMode : bool.
Hypothesis palette_not_empty : colors ≠ [].

Local Abbreviation this := (with_palette colors).

(** Over a balanced stretch the loop leaves stack and depth as it found
    them, whatever the kinds of the delimiters. *)
Lemma for_loop_balanced (text w : jsstring) :
  Balanced this w →
  ∀ k st, Segment text k w →
  ∃ st' new,
    for_loop (loop_body this isDarkMode text) k (length w) st = Some st' ∧
    colorStack st' = colorStack st ∧
    depth st' = depth st ∧
    emitted st' = emitted st ++ new.
Proof.
  induction 1 as [|c w Hop Hcl Hw IH|o c w1 w2 Hoo Hco Hcc Hw1 IH1 Hw2 IH2];
    intros k st Hseg.
  - exists st, []. simpl. by rewrite app_nil_r.
  - apply (Segment_cons text) in Hseg as [Hc Hrest].
    destruct (IH (S k) st Hrest) as (st' & new & Hrun & ?).
    exists st', new. split; [|done].
    simpl. by rewrite (body_other colors isDarkMode text k c st Hc Hop Hcl).
  - apply (Segment_cons text) in Hseg as [Ho Hseg].
    apply (Segment_app text) in Hseg as [Hseg1 Hseg].
    apply (Segment_cons text) in Hseg as [Hc Hseg2].
    destruct (body_open colors isDarkMode text palette_not_empty k o st Ho Hoo)
      as (base & used1 & Hnext & Hb1).
    set (st1 := decorated isDarkMode text k o base st (S (depth st))
                  (base :: colorStack st) used1) in *.
    destruct (IH1 (S k) st1 Hseg1) as (st2 & new1 & Hrun1 & Hs2 & Hd2 & He2).
    pose proof (body_close_pop colors isDarkMode text (S (k + length w1)) c st2
                  base (colorStack st) Hc Hcc Hs2) as Hb3.
    set (st3 := decorated isDarkMode text (S (k + length w1)) c base st2
                  (depth st2 - 1) (colorStack st) (usedColors st2)) in *.
    destruct (IH2 (S (S (k + length w1))) st3 Hseg2)
      as (st4 & new2 & Hrun2 & Hs4 & Hd4 & He4).
    exists st4,
      ([decoration isDarkMode k o base (depth st)] ++ new1 ++
       [decoration isDarkMode (S (k + length w1)) c base (depth st2)] ++ new2).
    split; [|split; [|split]].
    + change (length (o :: w1 ++ c :: w2)) with (S (length (w1 ++ c :: w2))).
      rewrite length_app. simpl length.
      cbn [for_loop]. rewrite Hb1. simpl.
      rewrite for_loop_app, Hrun1. simpl. rewrite Hb3. simpl. exact Hrun2.
    + by rewrite Hs4.
    + rewrite Hd4. subst st3. simpl. rewrite Hd2. subst st1. simpl. lia.
    + rewrite He4. subst st3. simpl. rewrite He2. subst st1. simpl.
      by rewrite <- !app_assoc.
Qed.

(** X12. The scan never compares the kind of a closing delimiter with the
    kind of the opening delimiter it closes.  Whatever the two kinds, when
    the text between them is balanced (kinds ignored), the closing
    delimiter gets the base colour pushed for the opening delimiter and is
    adjusted one level deeper. *)
Theorem closer_ignores_kind (pre inner post : jsstring) (o c : ascii) :
  isOpening this o = true → isClosing this c = true →
  Balanced this inner →
  ∃ st dO dC,
    scan this isDarkMode (pre ++ o :: inner ++ c :: post) = Some st ∧
    deco_at (emitted st) (length pre) = Some dO ∧
    deco_at (emitted st) (S (length pre + length inner)) = Some dC ∧
    d_char dO = o ∧ d_char dC = c ∧
    d_base dC = d_base dO ∧
    d_depth dC = S (d_depth dO).
Proof.
  intros Hoo Hcc Hinner.
  set (text := pre ++ o :: inner ++ c :: post).
  set (i := length pre).
  assert (Hseg : Segment text i (o :: inner ++ [c])).
  { subst text i.
    replace (pre ++ o :: inner ++ c :: post)
      with (pre ++ (o :: inner ++ [c]) ++ post).
    - apply Segment_middle.
    - simpl. by rewrite <- app_assoc. }
  apply (Segment_cons text) in Hseg as [Ho Hseg].
  apply (Segment_app text) in Hseg as [Hseg1 Hseg].
  apply (Segment_cons text) in Hseg as [Hc _].
  change (S i + length inner)%nat with (S (i + length inner)) in Hc.
  destruct (run_total this isDarkMode text i palette_not_empty) as [st0 Hst0].
  pose proof (run_Invariant _ _ _ _ _ Hst0) as Hinv0.
  destruct (body_open colors isDarkMode text palette_not_empty i o st0 Ho Hoo)
    as (base & used1 & Hnext & Hb1).
  set (st1 := decorated isDarkMode text i o base st0 (S (depth st0))
                (base :: colorStack st0) used1) in *.
  assert (Hst1 : run this isDarkMode text (S i) = Some st1).
  { by rewrite run_S, Hst0. }
  destruct (for_loop_balanced text inner Hinner (S i) st1 Hseg1)
    as (st2 & new1 & Hrun1 & Hs2 & Hd2 & He2).
  assert (Hst2 : run this isDarkMode text (S (i + length inner)) = Some st2).
  { change (S (i + length inner)) with (S i + length inner)%nat.
    by rewrite run_app, Hst1. }
  pose proof (run_Invariant _ _ _ _ _ Hst2) as Hinv2.
  pose proof (body_close_pop colors isDarkMode text (S (i + length inner)) c st2
                base (colorStack st0) Hc Hcc Hs2) as Hb3.
  set (st3 := decorated isDarkMode text (S (i + length inner)) c base st2
                (depth st2 - 1) (colorStack st0) (usedColors st2)) in *.
  assert (Hst3 : run this isDarkMode text (S (S (i + length inner))) = Some st3).
  { by rewrite run_S, Hst2. }
  destruct (run_total this isDarkMode text (length text) palette_not_empty)
    as [st Hst].
  assert (Hlen : length text = (S (S (i + length inner)) + length post)%nat).
  { subst text i. rewrite !length_app. simpl. rewrite length_app. simpl. lia. }
  pose proof Hst as Hst'. rewrite Hlen, run_app, Hst3 in Hst'. simpl in Hst'.
  apply for_loop_emitted in Hst' as [more Hmore].
  exists st, (decoration isDarkMode i o base (depth st0)),
    (decoration isDarkMode (S (i + length inner)) c base (depth st2)).
  split; [exact Hst|].
  assert (Hidx0 : Forall (λ x, (d_index x < i)%nat) (emitted st0)).
  { eapply Forall_impl; [exact (inv_emitted _ _ _ _ _ Hinv0)|]. simpl. tauto. }
  assert (Hidx2 : Forall (λ x, (d_index x < S (i + length inner))%nat) (emitted st2)).
  { eapply Forall_impl; [exact (inv_emitted _ _ _ _ _ Hinv2)|]. simpl. tauto. }
  split.
  { rewrite Hmore. subst st3. simpl. rewrite He2. subst st1. simpl.
    rewrite <- !app_assoc. rewrite app_assoc.
    apply deco_at_app_l. by apply deco_at_snoc_new. }
  split.
  { rewrite Hmore. subst st3. simpl.
    apply deco_at_app_l. by apply deco_at_snoc_new. }
  repeat split; try done.
Qed.

End AnyKind.

Section AnyKindDefault.
Import RainbowDelimiters Scan.

Lemma closer_ignores_kind_witness :
  ∃ st dO dC,
    scan new false (str "f(a]") = Some st ∧
    deco_at (emitted st) 1 = Some dO ∧
    deco_at (emitted st) 3 = Some dC ∧
    d_char dO = "("%char ∧ d_char dC = "]"%char ∧
    d_base dC = d_base dO ∧
    d_depth dC = S (d_depth dO).
Proof.
  apply (closer_ignores_kind
           (ColorPaletteGenerator.generateBaseColors
              ColorPaletteGenerator.default_count) false
           default_palette_not_empty (str "f") (str "a") [] "(" "]").
  - reflexivity.
  - reflexivity.
  - apply bal_other; [reflexivity|reflexivity|apply bal_nil].
Defined.

End AnyKindDefault.

(** ** Opening delimiters that are never closed *)

Section Unclosed.
Import RainbowDelimiters Scan.
Variable colors : list Color.t.
Variable isDarkMode : bool.
Hypothesis palette_not_empty : colors ≠ [].

Local Abbreviation this := (with_palette colors).

(** X19. The depth counts the opening delimiters that are still open: on a
    text with [n] opening delimiters that are never closed, and balanced
    text (kinds ignored) around them, the scan ends at depth [n] with [n]
    colours on the stack. *)
Theorem depth_counts_unclosed (n : nat) (text : jsstring) :
  OpenNesting this n text →
  ∃ st, scan this isDarkMode text = Some st ∧
        depth st = n ∧ length (colorStack st) = n.
Proof.
  induction 1 as [w Hw|n w o w' _ (st & Hst & Hd & Hs) Ho Hw'].
  - destruct (for_loop_balanced colors isDarkMode palette_not_empty w w Hw
                0%nat init (Segment_whole w)) as (st & new & Hrun & Hs & Hd & _).
    exists st. split; [exact Hrun|]. by rewrite Hd, Hs.
  - set (text := w ++ o :: w').
    assert (Hpre : run this isDarkMode text (length w) = Some st).
    { subst text. by rewrite run_prefix. }
    assert (Hlook : text !! length w = Some o).
    { subst text. rewrite lookup_app_r by done. by rewrite Nat.sub_diag. }
    destruct (body_open colors isDarkMode text palette_not_empty (length w) o
                st Hlook Ho) as (base & used1 & _ & Hb).
    set (st1 := decorated isDarkMode text (length w) o base st (S (depth st))
                  (base :: colorStack st) used1) in *.
    assert (Hseg : Segment text (S (length w)) w').
    { intros j c Hc. subst text. rewrite lookup_app_r by lia.
      replace (S (length w) + j - length w)%nat with (S j) by lia. done. }
    destruct (for_loop_balanced colors isDarkMode palette_not_empty text w' Hw'
                (S (length w)) st1 Hseg) as (st2 & new & Hrun & Hs2 & Hd2 & _).
    exists st2. split; [|split].
    + unfold scan.
      replace (length text) with (S (length w) + length w')%nat
        by (subst text; rewrite length_app; simpl; lia).
      rewrite run_app, run_S, Hpre. simpl. rewrite Hb. simpl. exact Hrun.
    + rewrite Hd2. subst st1. simpl. by rewrite Hd.
    + rewrite Hs2. subst st1. simpl. by rewrite Hs.
Qed.

End Unclosed.

Section UnclosedDefault.
Import RainbowDelimiters Scan.

Lemma depth_counts_unclosed_witness :
  ∃ st, scan new false (str "(a[b") = Some st ∧ depth st = 2%nat.
Proof.
  destruct (depth_counts_unclosed
              (ColorPaletteGenerator.generateBaseColors
                 ColorPaletteGenerator.default_count) false
              default_palette_not_empty 2 (str "(a[b"))
    as (st & Hst & Hd & _).
  - apply (open_more _ 1 (str "(a") "[" (str "b")).
    + apply (open_more _ 0 [] "(" (str "a")).
      * apply open_none, bal_nil.
      * reflexivity.
      * apply bal_other; [reflexivity|reflexivity|apply bal_nil].
    + reflexivity.
    + apply bal_other; [reflexivity|reflexivity|apply bal_nil].
  - exists st. split; [exact Hst|exact Hd].
Defined.

End UnclosedDefault.

(** ** Deep nesting *)

Section DeepNesting.
Import ColorAdjuster.
Local Open Scope Q_scope.

Lemma Qmax_40_floor (x : Q) : x <= 40 → Qmax 40 x = 40.
Proof.
  intros Hx. unfold Qmax, GenericMinMax.gmax.
  destruct (40 ?= x) eqn:Hcmp; try done.
  rewrite <- Qlt_alt in Hcmp. lra.
Qed.

(** X13. Once the depth has taken the saturation down to its floor of 40
    (for a base saturation of at most [40 + 10 * m], from depth [3 * m] on),
    three more levels of nesting give the same adjusted colour and the
    same colour text: only the three lightness steps are left to tell the
    levels apart. *)
Theorem adjustColor_repeats (isDarkMode : bool) (base : Color.t)
    (m depth : nat) :
  Color.s base <= 40 + 10 * JsNum.of_nat m → (3 * m ≤ depth)%nat →
  adjustColor isDarkMode (Some base) (depth + 3) =
  adjustColor isDarkMode (Some base) depth ∧
  Scan.hexColor isDarkMode base (depth + 3) =
  Scan.hexColor isDarkMode base depth ∧
  Hsl.s (Scan.adjusted isDarkMode base depth) = 40.
Proof.
  intros Hs Hd.
  assert (Hmod : ((depth + 3) mod 3 = depth mod 3)%nat).
  { replace (depth + 3)%nat with (depth + 1 * 3)%nat by lia.
    apply Nat.Div0.mod_add. }
  assert (Hdiv : (m ≤ depth / 3)%nat).
  { apply Nat.div_le_lower_bound; lia. }
  assert (Hdiv' : (m ≤ (depth + 3) / 3)%nat).
  { apply Nat.div_le_lower_bound; lia. }
  assert (Hsat : ∀ k, (m ≤ k)%nat →
            Qmax 40 (Color.s base - JsNum.of_nat k * 10) = 40).
  { intros k Hk. apply Qmax_40_floor.
    assert (JsNum.of_nat m <= JsNum.of_nat k).
    { unfold JsNum.of_nat. rewrite <- Zle_Qle. lia. }
    lra. }
  assert (Hadj : adjustColor isDarkMode (Some base) (depth + 3) =
                 adjustColor isDarkMode (Some base) depth).
  { unfold adjustColor. cbn [mbind option_bind].
    by rewrite Hmod, (Hsat _ Hdiv), (Hsat _ Hdiv'). }
  split; [exact Hadj|]. split.
  - unfold Scan.hexColor, Scan.adjusted. by rewrite Hadj.
  - unfold Scan.adjusted, adjustColor. cbn [mbind option_bind default Hsl.s].
    apply (Hsat _ Hdiv).
Qed.

Lemma adjustColor_repeats_witness :
  Scan.hexColor true (nth_color 32 5) 13 = Scan.hexColor true (nth_color 32 5) 10.
Proof.
  apply (adjustColor_repeats true (nth_color 32 5) 3 10).
  - vm_compute. discriminate.
  - lia.
Defined.

End DeepNesting.

(** ** An empty palette *)

Section EmptyPalette.
Import RainbowDelimiters Scan.
Variable isDarkMode : bool.

Local Abbreviation this :=
  (with_palette (ColorPaletteGenerator.generateBaseColors 0)).
Local Abbreviation delimiter :=
  (λ c : ascii, isOpening this c || isClosing this c = true).

(** Up to the first delimiter the loop changes nothing. *)
Lemma run_before_delimiter (colors : list Color.t) (text : jsstring) k :
  Forall (λ c, isOpening (with_palette colors) c
               || isClosing (with_palette colors) c = false) (take k text) →
  run (with_palette colors) isDarkMode text k = Some init.
Proof.
  induction k as [|k IH]; intros Hall; [done|].
  rewrite run_S. destruct (text !! k) as [c|] eqn:Hc.
  - rewrite (take_S_r _ _ _ Hc) in Hall. apply Forall_app in Hall as [Hpre Hc'].
    rewrite IH by done. simpl.
    apply Forall_singleton, orb_false_iff in Hc' as [Hop Hcl].
    by apply (body_other _ _ _ _ c).
  - rewrite IH.
    + simpl. unfold loop_body. by rewrite Hc.
    + apply lookup_ge_None in Hc. rewrite take_ge in Hall by lia.
      by rewrite take_ge by lia.
Qed.

Lemma first_delimiter (colors : list Color.t) (text : jsstring) :
  Exists (λ c, isOpening (with_palette colors) c
               || isClosing (with_palette colors) c = true) text →
  ∃ pre c post,
    text = pre ++ c :: post ∧
    Forall (λ c, isOpening (with_palette colors) c
                 || isClosing (with_palette colors) c = false) pre ∧
    isOpening (with_palette colors) c
    || isClosing (with_palette colors) c = true.
Proof.
  induction text as [|a text IH]; intros Hex; [by apply Exists_nil in Hex|].
  destruct (isOpening (with_palette colors) a
            || isClosing (with_palette colors) a) eqn:Ha.
  - by exists [], a, text.
  - apply Exists_cons in Hex as [Hex|Hex]; [congruence|].
    destruct (IH Hex) as (pre & c & post & -> & Hpre & Hc).
    exists (a :: pre), c, post. split; [done|]. split; [|done].
    by constructor.
Qed.

(** X14. [generateBaseColors(0)] is the empty palette.  With it
    [processText] throws as soon as the text holds a delimiter
    ([getNextColor] reads [undefined] from the palette and [adjustColor]
    reads a property of it), and returns a text without delimiters
    unchanged. *)
Theorem empty_palette_throws (text : jsstring) :
  ColorPaletteGenerator.generateBaseColors 0 = [] ∧
  (Exists delimiter text → processText this isDarkMode text = None) ∧
  (Forall (λ c, isOpening this c || isClosing this c = false) text →
   processText this isDarkMode text = Some text).
Proof.
  split; [done|]. split.
  - intros Hex.
    destruct (first_delimiter _ text Hex) as (pre & c & post & -> & Hpre & Hc).
    unfold processText, scan.
    replace (length (pre ++ c :: post)) with (S (length pre) + length post)%nat
      by (rewrite length_app; simpl; lia).
    rewrite run_app, run_S, run_before_delimiter
      by (by rewrite take_app_length).
    simpl. unfold loop_body.
    rewrite lookup_app_r, Nat.sub_diag by done. simpl. rewrite Hc.
    destruct (isOpening this c); [done|]. done.
  - intros Hall. unfold processText, scan.
    rewrite run_before_delimiter by (by rewrite firstn_all).
    simpl. apply f_equal, substring_all.
Qed.

End EmptyPalette.

(** ** The luminance of the background *)

Section Luminance.
Import BgPattern ColorAdjuster.
Local Open Scope Q_scope.

Lemma munch_split p l : (munch p l).1 ++ (munch p l).2 = l.
Proof.
  induction l as [|c l IH]; [done|]. simpl.
  destruct (p c); [|done]. destruct (munch p l) as [run rest].
  simpl in *. by rewrite IH.
Qed.

Lemma munch_run p l : Forall (λ c, p c = true) (munch p l).1.
Proof.
  induction l as [|c l IH]; [by constructor|]. simpl.
  destruct (p c) eqn:Hc; [|by constructor].
  destruct (munch p l) as [run rest]. simpl in *. by constructor.
Qed.

Lemma munch_app p run rest :
  Forall (λ c, p c = true) run →
  (∀ c, head rest = Some c → p c = false) →
  munch p (run ++ rest) = (run, rest).
Proof.
  intros Hrun Hrest. induction Hrun as [|c run Hc _ IH]; simpl.
  - destruct rest as [|c rest]; [done|]. simpl. by rewrite (Hrest c).
  - by rewrite Hc, IH.
Qed.

Lemma digit_not_space c : is_digit c = true → is_space c = false.
Proof.
  unfold is_digit, is_space. intros H.
  apply andb_true_iff in H as [H1 H2].
  apply Nat.leb_le in H1, H2. apply bool_decide_eq_false.
  rewrite !elem_of_cons, elem_of_nil. lia.
Qed.

Lemma digits_app run rest :
  run ≠ [] → Forall (λ c, is_digit c = true) run →
  (∀ c, head rest = Some c → is_digit c = false) →
  digits (run ++ rest) = Some (run, rest).
Proof.
  intros Hne Hrun Hrest. unfold digits. rewrite munch_app by done.
  by rewrite bool_decide_eq_false_2.
Qed.

Lemma spaces_digits_app ws run rest :
  Forall (λ c, is_space c = true) ws →
  run ≠ [] → Forall (λ c, is_digit c = true) run →
  (∀ c, head rest = Some c → is_digit c = false) →
  digits (munch is_space (ws ++ run ++ rest)).2 = Some (run, rest).
Proof.
  intros Hws Hne Hrun Hrest. rewrite munch_app; [by apply digits_app|done|].
  destruct Hrun as [|c run Hc _]; [done|]. simpl. intros ? [= <-].
  by apply digit_not_space.
Qed.

Lemma digits_Some l run rest :
  digits l = Some (run, rest) →
  l = run ++ rest ∧ Forall (λ c, is_digit c = true) run.
Proof.
  unfold digits. pose proof (munch_split is_digit l) as Hs.
  pose proof (munch_run is_digit l) as Hr.
  destruct (munch is_digit l) as [run' rest']. simpl in *.
  case_bool_decide; [done|]. by intros [= <- <-].
Qed.

Lemma literal_Some c l l' : literal c l = Some l' → l = c :: l'.
Proof.
  destruct l as [|a l]; simpl; [done|]. case_bool_decide; [|done].
  intros [= <-]. by subst.
Qed.

Lemma groups_Some l r g b :
  groups l = Some (r, g, b) →
  ","%char ∈ l ∧
  Forall (λ c, is_digit c = true) r ∧ Forall (λ c, is_digit c = true) g ∧
  Forall (λ c, is_digit c = true) b.
Proof.
  unfold groups. intros H.
  destruct (literal "(" l) as [l1|] eqn:H1; [|done]. simpl in H.
  destruct (digits l1) as [[r' l2]|] eqn:H2; [|done]. simpl in H.
  destruct (literal "," l2) as [l3|] eqn:H3; [|done]. simpl in H.
  destruct (digits (munch is_space l3).2) as [[g' l4]|] eqn:H4; [|done].
  simpl in H.
  destruct (literal "," l4) as [l5|] eqn:H5; [|done]. simpl in H.
  destruct (digits (munch is_space l5).2) as [[b' l6]|] eqn:H6; [|done].
  simpl in H. injection H as -> -> ->.
  apply literal_Some in H1, H3. apply digits_Some in H2 as [H2 Hr].
  apply digits_Some in H4 as [_ Hg]. apply digits_Some in H6 as [_ Hb].
  split; [|done]. subst l l1 l2.
  apply list_elem_of_further, elem_of_app. right. apply list_elem_of_here.
Qed.

Lemma match_at_Some l r g b :
  match_at l = Some (r, g, b) →
  ","%char ∈ l ∧
  Forall (λ c, is_digit c = true) r ∧ Forall (λ c, is_digit c = true) g ∧
  Forall (λ c, is_digit c = true) b.
Proof.
  unfold match_at. intros H.
  destruct (literal "r" l) as [l1|] eqn:H1; [|done]. simpl in H.
  destruct (literal "g" l1) as [l2|] eqn:H2; [|done]. simpl in H.
  destruct (literal "b" l2) as [l3|] eqn:H3; [|done]. simpl in H.
  apply literal_Some in H1, H2, H3. subst l l1 l2.
  destruct (literal "a" l3) as [l4|] eqn:H4; simpl in H.
  - apply literal_Some in H4. subst l3.
    destruct (groups l4) as [m|] eqn:H5.
    + injection H as ->. apply groups_Some in H5 as [Hin ?].
      split; [|done]. by do 4 apply list_elem_of_further.
    + apply groups_Some in H as [Hin ?].
      split; [|done]. by do 3 apply list_elem_of_further.
  - apply groups_Some in H as [Hin ?].
    split; [|done]. by do 3 apply list_elem_of_further.
Qed.

Lemma search_Some l r g b :
  search l = Some (r, g, b) →
  ","%char ∈ l ∧
  Forall (λ c, is_digit c = true) r ∧ Forall (λ c, is_digit c = true) g ∧
  Forall (λ c, is_digit c = true) b.
Proof.
  induction l as [|a l IH]; simpl.
  - done.
  - destruct (match_at (a :: l)) as [m|] eqn:Hm.
    + intros [= ->]. by apply match_at_Some in Hm.
    + intros H. apply IH in H as [Hin ?]. split; [|done].
      by apply list_elem_of_further.
Qed.

Lemma search_here l m : match_at l = Some m → search l = Some m.
Proof.
  intros H. destruct l as [|a l]; [done|].
  change (search (a :: l))
    with (match match_at (a :: l) with
          | Some m => Some m
          | None => search l
          end).
  by rewrite H.
Qed.

Lemma Number_nonneg s : Forall (λ c, is_digit c = true) s → 0 <= Number s.
Proof.
  intros Hs. unfold Number. change 0 with (inject_Z 0). rewrite <- Zle_Qle.
  assert (H : ∀ acc, (0 ≤ acc)%Z →
            (0 ≤ foldl (λ acc c, 10 * acc + (Z.of_nat (nat_of_ascii c) - 48))
                   acc s)%Z); [|by apply H].
  induction Hs as [|c s Hc _ IH]; intros acc Hacc; simpl; [done|].
  apply IH. unfold is_digit in Hc. apply andb_true_iff in Hc as [H1 _].
  apply Nat.leb_le in H1. lia.
Qed.

(** X15. On a background text that starts with [rgb(] or [rgba(], three
    runs of decimal digits separated by commas and optional white space,
    and then anything that is not a digit, [getBackgroundLuminance] returns
    [(0.299 r + 0.587 g + 0.114 b) / 255] for the three numbers: a fourth
    component such as the alpha value is ignored.  The result is not
    negative, and it is at most 1 when no number exceeds 255. *)
Theorem luminance_of_rgb (alpha : bool) (r g b ws1 ws2 rest : jsstring) :
  r ≠ [] → g ≠ [] → b ≠ [] →
  Forall (λ c, is_digit c = true) r →
  Forall (λ c, is_digit c = true) g →
  Forall (λ c, is_digit c = true) b →
  Forall (λ c, is_space c = true) ws1 →
  Forall (λ c, is_space c = true) ws2 →
  (∀ c, head rest = Some c → is_digit c = false) →
  getBackgroundLuminance
    (str "rgb" ++ (if alpha then str "a" else []) ++ str "(" ++
     r ++ str "," ++ ws1 ++ g ++ str "," ++ ws2 ++ b ++ rest) =
  (0.299 * Number r + 0.587 * Number g + 0.114 * Number b) / 255 ∧
  0 <= (0.299 * Number r + 0.587 * Number g + 0.114 * Number b) / 255 ∧
  (Number r <= 255 → Number g <= 255 → Number b <= 255 →
   (0.299 * Number r + 0.587 * Number g + 0.114 * Number b) / 255 <= 1).
Proof.
  intros Hr Hg Hb Dr Dg Db W1 W2 Hrest.
  assert (Hcomma : ∀ l c, head (str "," ++ l) = Some c → is_digit c = false).
  { by intros l c [= <-]. }
  set (body := str "(" ++ r ++ str "," ++ ws1 ++ g ++ str "," ++ ws2 ++ b ++ rest).
  assert (Hgroups : groups body = Some (r, g, b)).
  { unfold groups, body. cbn [str list_ascii_of_string app literal].
    rewrite bool_decide_eq_true_2 by done. cbn [mbind option_bind].
    change (r ++ ","%char :: ws1 ++ g ++ ","%char :: ws2 ++ b ++ rest)
      with (r ++ str "," ++ ws1 ++ g ++ str "," ++ ws2 ++ b ++ rest).
    rewrite digits_app by (try done; apply Hcomma). cbn [mbind option_bind].
    cbn [str list_ascii_of_string app literal].
    rewrite bool_decide_eq_true_2 by done. cbn [mbind option_bind].
    change (ws1 ++ g ++ ","%char :: ws2 ++ b ++ rest)
      with (ws1 ++ g ++ str "," ++ ws2 ++ b ++ rest).
    rewrite spaces_digits_app by (try done; apply Hcomma).
    cbn [mbind option_bind].
    cbn [str list_ascii_of_string app literal].
    rewrite bool_decide_eq_true_2 by done. cbn [mbind option_bind].
    by rewrite spaces_digits_app by done. }
  assert (Hopen : literal "a" body = None) by done.
  split; [|split].
  - unfold getBackgroundLuminance.
    assert (search (str "rgb" ++ (if alpha then str "a" else []) ++ body)
            = Some (r, g, b)) as ->; [|done].
    apply search_here. unfold match_at.
    destruct alpha.
    + change (str "rgb" ++ str "a" ++ body)
        with ("r"%char :: "g"%char :: "b"%char :: "a"%char :: body).
      do 4 (cbn [literal]; rewrite bool_decide_eq_true_2 by done;
            cbn [mbind option_bind]).
      by rewrite Hgroups.
    + change (str "rgb" ++ [] ++ body)
        with ("r"%char :: "g"%char :: "b"%char :: body).
      do 3 (cbn [literal]; rewrite bool_decide_eq_true_2 by done;
            cbn [mbind option_bind]).
      rewrite Hopen. cbn [mbind option_bind].
      by rewrite Hgroups.
  - pose proof (Number_nonneg r Dr). pose proof (Number_nonneg g Dg).
    pose proof (Number_nonneg b Db).
    apply Qle_shift_div_l; [done|]. lra.
  - intros. apply Qle_shift_div_r; [done|]. lra.
Qed.

(** X16. [getBackgroundLuminance] never returns a negative number, and it
    returns 0.5 for every background text without a comma, such as a
    colour in the space separated syntax. *)
Theorem luminance_default (bgColor : jsstring) :
  0 <= getBackgroundLuminance bgColor ∧
  (","%char ∉ bgColor → getBackgroundLuminance bgColor = 0.5).
Proof.
  unfold getBackgroundLuminance.
  destruct (search bgColor) as [[[r g] b]|] eqn:Hs.
  - apply search_Some in Hs as (Hin & Dr & Dg & Db). split; [|done].
    pose proof (Number_nonneg r Dr). pose proof (Number_nonneg g Dg).
    pose proof (Number_nonneg b Db).
    apply Qle_shift_div_l; [done|]. lra.
  - split; [done|done].
Qed.

Lemma luminance_of_rgb_witness :
  getBackgroundLuminance (str "rgba(24, 26, 27, 0.5)") =
  (0.299 * Number (str "24") + 0.587 * Number (str "26")
   + 0.114 * Number (str "27")) / 255.
Proof.
  apply (luminance_of_rgb true (str "24") (str "26") (str "27")
           (str " ") (str " ") (str ", 0.5)")); try done.
  all: try (repeat constructor).
  by intros c [= <-].
Defined.

End Luminance.

(** ** The hues of the palette and the binary64 colours at concrete inputs *)

Section MoreWitnesses.
Import RainbowDelimiters Scan.
Local Open Scope Q_scope.

Lemma generateBaseColors_hues_witness :
  0 <= Color.h (nth_color 32 1) ∧
  Color.h (nth_color 32 1) < Color.h (nth_color 32 2) ∧
  Color.h (nth_color 32 2) < 360.
Proof.
  apply (generateBaseColors_hues 32 1 2).
  - vm_compute. reflexivity.
  - vm_compute. reflexivity.
  - lia.
Defined.

Lemma binary64_agrees_witness :
  Binary64.hexColor 32 false 3 4 = Some (hexColor false (nth_color 32 3) 4).
Proof.
  apply (binary64_agrees false 3 4).
  - lia.
  - lia.
  - unfold Binary64.rounding_differs.
    rewrite !elem_of_cons, elem_of_nil. intros [[=]|[[=]|[]]].
Defined.

End MoreWitnesses.
